(** * Gas estimation of the venus message pool

    A shallow embedding of [pkg/messagepool] gas estimation
    ([GasEstimateFeeCap], [medianGasPremium], [GasEstimateGasPremium],
    [GasEstimateGasLimit], [GasEstimateCallWithGas], [evalMessageGasLimit],
    [GasEstimateMessageGas], [GasBatchEstimateMessageGas]) together with the
    properties its specification states about it.

    Conventions.  Go's [int64] and [uint64] are [Z] with the wrap-around
    written out ([Int64.wrap], [Uint64.wrap]); [float64] is Rocq's primitive
    binary64 [float]; [big.Int] is [Z], and a [big.Int] field that may be the
    nil [types.EmptyInt] is [option Z].  Collaborators reached through
    interfaces ([mp.api], [mp.sm], the LRU cache, the random source, [sort])
    are fields of the [MessagePool] record; what estimation mutates (the
    messages it is given by pointer, the cache, the random source, and the
    log of what the evaluator was asked) lives in [World].  The retry loop
    of the gas-limit estimator has no bound in the source; the model gives
    it fuel, and a run that exhausts it ends as [Spinning].

    Besides the estimators the file embeds the tipset height index of
    [pkg/chain] ([ChainIndex]: [GetTipSetByHeight], [fillCache],
    [roundHeight], [roundDown], [walkBack]), the consensus-fault check of
    the FVM externs ([Fvm]: [VerifyConsensusFault], [VerifyBlockSig],
    [workerKeyAtLookback], [resolveToKeyAddr]) and the creation message of
    the multisig actor ([Multisig]: [Create]), with properties read off
    their code.  The loops of the index have no bound either and take fuel
    in the same way; its lock is not modelled. *)

From Stdlib Require Import ZArith List String Bool Lia Floats Permutation Sorted.
Import ListNotations.

Local Open Scope Z_scope.

(* Decimal float literals denote, as in Go, the nearest binary64 value. *)
Set Warnings "-inexact-float".

(** ** Machine integers *)

Module Int64.
Definition min_int : Z := - 2 ^ 63.
Definition max_int : Z := 2 ^ 63 - 1.
Definition wrap (z : Z) : Z := (z + 2 ^ 63) mod 2 ^ 64 - 2 ^ 63.
Definition in_range (z : Z) : Prop := min_int <= z <= max_int.
Definition add (a b : Z) : Z := wrap (a + b).
Definition sub (a b : Z) : Z := wrap (a - b).
Definition mul (a b : Z) : Z := wrap (a * b).
(** Go's [/] truncates toward zero and panics on a zero divisor; every
    division below has a positive literal divisor. *)
Definition quot (a b : Z) : Z := wrap (Z.quot a b).
(** [>>] on a signed integer is the arithmetic shift. *)
Definition shr (a : Z) (n : Z) : Z := Z.shiftr a n.
End Int64.

Module Uint64.
Definition wrap (z : Z) : Z := z mod 2 ^ 64.
Definition add (a b : Z) : Z := wrap (a + b).
Definition mul (a b : Z) : Z := wrap (a * b).
End Uint64.

(** ** float64 *)

(** Go leaves the result of converting a floating-point value that the
    integer type cannot represent to the implementation.  A [Platform]
    fixes it. *)
Record Platform := {
  f64_to_u64_unrepresentable : float -> Z;
  f64_to_i64_unrepresentable : float -> Z
}.

Module F64.
(** The integer part of a finite float (truncation toward zero). *)
Definition trunc (f : float) : option Z :=
  match Prim2SF f with
  | S754_zero _ => Some 0
  | S754_finite s m e =>
      let v := if 0 <=? e then Z.pos m * 2 ^ e else Z.pos m / 2 ^ (- e) in
      Some (if s then - v else v)
  | S754_infinity _ | S754_nan => None
  end.

(** [float64(z)] for an [int64] or [uint64] [z]: round to nearest even. *)
Definition of_Z (z : Z) : float :=
  let a := Z.abs z in
  let hi := PrimFloat.of_uint63 (Uint63.of_Z (a / 2 ^ 32)) in
  let lo := PrimFloat.of_uint63 (Uint63.of_Z (a mod 2 ^ 32)) in
  let m := (hi * 0x1p32 + lo)%float in
  if z <? 0 then (- m)%float else m.

(** [uint64(f)] *)
Definition to_uint64 (p : Platform) (f : float) : Z :=
  match trunc f with
  | Some z => if (0 <=? z) && (z <? 2 ^ 64) then z
              else f64_to_u64_unrepresentable p f
  | None => f64_to_u64_unrepresentable p f
  end.

(** [int64(f)] *)
Definition to_int64 (p : Platform) (f : float) : Z :=
  match trunc f with
  | Some z => if (- 2 ^ 63 <=? z) && (z <? 2 ^ 63) then z
              else f64_to_i64_unrepresentable p f
  | None => f64_to_i64_unrepresentable p f
  end.

(** The conversion is one the language defines. *)
Definition fits_uint64 (f : float) : bool :=
  match trunc f with
  | Some z => (0 <=? z) && (z <? 2 ^ 64)
  | None => false
  end.
End F64.

(** The gc compiler on amd64: [CVTTSD2SQ] yields the "integer indefinite"
    [0x8000000000000000] for a value outside [int64]; [uint64(f)] is
    compiled as [int64(f)] below [2^63] and as [int64(f - 2^63) | 1<<63]
    from there on. *)
Definition amd64 : Platform := {|
  f64_to_i64_unrepresentable := fun _ => - 2 ^ 63;
  f64_to_u64_unrepresentable := fun f =>
    if (f <? 0x1p63)%float then
      match F64.trunc f with
      | Some z => if (- 2 ^ 63 <=? z) then Uint64.wrap z else 2 ^ 63
      | None => 2 ^ 63
      end
    else 2 ^ 63
|}.

(** *** [math.Pow]

    The portable implementation of the Go standard library, for the
    arguments [GasEstimateFeeCap] reaches it with: a finite base and an
    exponent that is the image of an [int64] (so [Modf] has no fractional
    part and the [Exp]/[Log] branch is never taken).  Outside those the
    model answers [nan]. *)
Module Math.
(** The loop [for i := int64(yi); i != 0; i >>= 1], by recursion on the
    binary digits of [i]. *)
Fixpoint pow_loop (i : positive) (a1 : float) (ae : Z) (x1 : float) (xe : Z)
  : float * Z :=
  if (xe <? - 4096) || (4096 <? xe) then (a1, ae + xe)
  else
    let '(a1, ae) :=
      match i with
      | xH | xI _ => ((a1 * x1)%float, ae + xe)
      | xO _ => (a1, ae)
      end in
    let x1 := (x1 * x1)%float in
    let xe := 2 * xe in
    let '(x1, xe) :=
      if (x1 <? 0.5)%float then ((x1 + x1)%float, xe - 1) else (x1, xe) in
    match i with
    | xH => (a1, ae)
    | xO j | xI j => pow_loop j a1 ae x1 xe
    end.

Definition Pow (x y : float) : float :=
  if (y =? 0)%float || (x =? 1)%float then 1%float
  else if (y =? 1)%float then x
  else if PrimFloat.is_nan x || PrimFloat.is_nan y || (x =? 0)%float
          || PrimFloat.is_infinity x || PrimFloat.is_infinity y
  then nan
  else
    match F64.trunc (abs y) with
    | Some (Zpos yi) =>
        if negb (F64.of_Z (Zpos yi) =? abs y)%float then nan
        else if 2 ^ 63 <=? Zpos yi then
          if (x =? -1)%float then 1%float
          else if Bool.eqb (abs x <? 1)%float (0 <? y)%float then 0%float
          else infinity
        else
          let '(x1, xe) := Z.frexp x in
          let '(a1, ae) := pow_loop yi 1%float 0 x1 xe in
          let '(a1, ae) :=
            if (y <? 0)%float then ((1 / a1)%float, - ae) else (a1, ae) in
          Z.ldexp a1 ae
    | _ => nan
    end.
End Math.

(** ** Data model *)

Definition Address := Z.
Definition Cid := Z.
(** [types.TipSetKey]: the block CIDs of a tipset; [EmptyTSK] has none. *)
Definition TipSetKey := list Cid.
Definition EmptyTSK : TipSetKey := [].
Definition IsEmpty (tsk : TipSetKey) : bool :=
  match tsk with [] => true | _ => false end.

(** [types.BigInt]: [None] is [types.EmptyInt], the BigInt whose pointer is
    nil. *)
Definition BigInt := option Z.
Definition EmptyInt : BigInt := None.

Record Message := {
  To : Address;
  From_ : Address;
  Nonce : Z;            (* uint64 *)
  Value : BigInt;
  GasLimit : Z;         (* int64 *)
  GasFeeCap : BigInt;
  GasPremium : BigInt;
  Method : Z;           (* abi.MethodNum *)
  Params : list Byte.byte
}.

Definition with_Nonce (n : Z) (m : Message) : Message :=
  {| To := To m; From_ := From_ m; Nonce := n; Value := Value m;
     GasLimit := GasLimit m; GasFeeCap := GasFeeCap m;
     GasPremium := GasPremium m; Method := Method m; Params := Params m |}.
Definition with_GasLimit (g : Z) (m : Message) : Message :=
  {| To := To m; From_ := From_ m; Nonce := Nonce m; Value := Value m;
     GasLimit := g; GasFeeCap := GasFeeCap m;
     GasPremium := GasPremium m; Method := Method m; Params := Params m |}.
Definition with_GasFeeCap (c : BigInt) (m : Message) : Message :=
  {| To := To m; From_ := From_ m; Nonce := Nonce m; Value := Value m;
     GasLimit := GasLimit m; GasFeeCap := c;
     GasPremium := GasPremium m; Method := Method m; Params := Params m |}.
Definition with_GasPremium (p : BigInt) (m : Message) : Message :=
  {| To := To m; From_ := From_ m; Nonce := Nonce m; Value := Value m;
     GasLimit := GasLimit m; GasFeeCap := GasFeeCap m;
     GasPremium := p; Method := Method m; Params := Params m |}.

Record BlockHeader := { ParentBaseFee : Z }.

Record TipSet := {
  Key : TipSetKey;
  Height : Z;           (* abi.ChainEpoch, an int64 *)
  Parents : TipSetKey;
  Blocks : list BlockHeader
}.

Record GasMeta := { Price : Z; Limit : Z }.

Record MessageReceipt := { ExitCode : Z; GasUsed : Z }.
Record InvocResult := { MsgRct : MessageReceipt; Error : string }.
Definition exitcode_Ok : Z := 0.

Record Actor := { Code : Cid }.

Record SendSpec := {
  MaxFee : BigInt;
  GasOverEstimation : float;
  GasOverPremium : float
}.

(** Messages are passed by pointer and written in place; a [ptr] names a
    cell of the [heap]. *)
Definition ptr := nat.

Record EstimateMessage := { Msg : option ptr; Spec : option SendSpec }.

(** [types.EstimateResult]; [Err] is the empty string on success. *)
Record EstimateResult := { ResMsg : ptr; Err : string }.

(** *** Errors *)

Inductive error :=
| ErrExpensiveFork                         (* fork.ErrExpensiveFork *)
| ErrNew (text : string)                   (* errors.New, or a collaborator's *)
| ErrWrap (prefix : string) (e : error).   (* fmt.Errorf("prefix: %w", e) *)

Fixpoint error_text (e : error) : string :=
  match e with
  | ErrExpensiveFork => "refusing explicit call due to state fork at epoch"
  | ErrNew s => s
  | ErrWrap p e => p ++ ": " ++ error_text e
  end.

(** [err != fork.ErrExpensiveFork] compares with the sentinel itself. *)
Definition is_ErrExpensiveFork (e : error) : bool :=
  match e with ErrExpensiveFork => true | _ => false end.

(** A Go [(T, error)] return. *)
Definition result (A : Type) : Type := (A + error)%type.

(** How a call ends: it returns a value, returns an error, panics, or is
    still inside the retry loop when the fuel of the model runs out. *)
Inductive outcome (A : Type) :=
| Ret (a : A)
| Fail (e : error)
| Panic (why : string)
| Spinning.
Arguments Ret {A} a.
Arguments Fail {A} e.
Arguments Panic {A} why.
Arguments Spinning {A}.

(** One invocation of the state-transition evaluator. *)
Record Call := { call_msg : Message; call_prior : list Message; call_ts : TipSet }.

Section Model.

Context {Cache : Type}.

(** What estimation mutates. *)
Record World := {
  heap : ptr -> Message;
  cache : Cache;            (* the contents of [mp.PriceCache] *)
  draws : nat;              (* values taken from the global random source *)
  calls : list Call         (* invocations of [CallWithGas], oldest first *)
}.

Definition set_heap (h : ptr -> Message) (w : World) : World :=
  {| heap := h; cache := cache w; draws := draws w; calls := calls w |}.
Definition set_cache (c : Cache) (w : World) : World :=
  {| heap := heap w; cache := c; draws := draws w; calls := calls w |}.
Definition set_draws (n : nat) (w : World) : World :=
  {| heap := heap w; cache := cache w; draws := n; calls := calls w |}.
Definition set_calls (l : list Call) (w : World) : World :=
  {| heap := heap w; cache := cache w; draws := draws w; calls := l |}.

Definition update (p : ptr) (m : Message) (h : ptr -> Message) : ptr -> Message :=
  fun q => if Nat.eqb q p then m else h q.

(** The state tree of a tipset, as [GetActor] sees it:
    [(act, found, err)]. *)
Definition StateTree := Address -> result (option Actor).

(** The message pool: its collaborators ([mp.api], [mp.sm]), its
    configuration, and what the build fixes (the protocol constants of
    package [constants] and [builtin], which the shown files only use, and
    the platform). *)
Record MessagePool := {
  (* mp.api *)
  ChainHead : result TipSet;
  ChainTipSet : TipSetKey -> result TipSet;
  LoadTipSet : TipSetKey -> result TipSet;
  MessagesForTipset : TipSet -> result (list Message);
  (* mp.sm *)
  ResolveToDeterministicAddress : Address -> TipSet -> result Address;
  CallWithGas : Message -> list Message -> TipSet -> result InvocResult;
  ParentState : TipSet -> result StateTree;
  (* the pool itself *)
  PendingFor : Address -> list Message * TipSet;
  UpgradeHyggeHeight : Z;                     (* mp.forkParams *)
  GasLimitOverestimation : float;             (* mp.GetConfig() *)
  (** [CapGasFee(mp.GetMaxFee, msg, spec)] is declared outside the shown
      files; it rewrites the message's [GasFeeCap] and [GasPremium] and
      nothing else, and this is the pair it leaves. *)
  CapGasFee : Message -> option SendSpec -> BigInt * BigInt;
  (* libraries *)
  cacheGet : TipSetKey -> Cache -> option (list GasMeta) * Cache;  (* lru Get *)
  cacheAdd : TipSetKey -> list GasMeta -> Cache -> Cache;          (* lru Add *)
  NormFloat64 : nat -> float;               (* the n-th draw of math/rand *)
  sortSlice : (GasMeta -> GasMeta -> bool) -> list GasMeta -> list GasMeta;
  (** [new(big.Float).Mul(SetInt(NewInt(p.Int64())), NewFloat(f)).Int(nil)] *)
  bigFloatMul : Z -> float -> Z;
  IsStorageMinerActor : Cid -> bool;
  IsPaymentChannelActor : Cid -> bool;
  (* constants *)
  BlockGasLimit : Z;
  BlockGasTarget : Z;
  MinimumBaseFee : Z;
  BaseFeeMaxChangeDenom : Z;
  MethodSend : Z;
  MethodsPaych_Collect : Z;
  platform : Platform
}.

(** *** The monad of estimation: world passing with an outcome *)

Definition M (A : Type) : Type := World -> outcome A * World.

Definition ret {A} (a : A) : M A := fun w => (Ret a, w).
Definition fail {A} (e : error) : M A := fun w => (Fail e, w).
Definition panic {A} (why : string) : M A := fun w => (Panic why, w).

Definition bind {A B} (m : M A) (f : A -> M B) : M B :=
  fun w =>
    match m w with
    | (Ret a, w') => f a w'
    | (Fail e, w') => (Fail e, w')
    | (Panic s, w') => (Panic s, w')
    | (Spinning, w') => (Spinning, w')
    end.

(** [v, err := f(); if err != nil { ... }]: the error becomes a value. *)
Definition try {A} (m : M A) : M (result A) :=
  fun w =>
    match m w with
    | (Ret a, w') => (Ret (inl a), w')
    | (Fail e, w') => (Ret (inr e), w')
    | (Panic s, w') => (Panic s, w')
    | (Spinning, w') => (Spinning, w')
    end.

(** [if err != nil { return ..., fmt.Errorf("prefix: %w", err) }] *)
Definition wrapping {A} (prefix : string) (m : M A) : M A :=
  fun w =>
    match m w with
    | (Fail e, w') => (Fail (ErrWrap prefix e), w')
    | r => r
    end.

Definition lift {A} (r : result A) : M A :=
  match r with inl a => ret a | inr e => fail e end.

Definition load (p : ptr) : M Message := fun w => (Ret (heap w p), w).
Definition store (p : ptr) (f : Message -> Message) : M unit :=
  fun w => (Ret tt, set_heap (update p (f (heap w p)) (heap w)) w).

End Model.

Arguments World Cache : clear implicits.
Arguments MessagePool Cache : clear implicits.
Arguments M Cache A : clear implicits.

Declare Scope pool_scope.
Delimit Scope pool_scope with pool.
Notation "x <- m ;; k" := (bind m (fun x => k))
  (at level 100, m at next level, right associativity) : pool_scope.
Notation "m ;;; k" := (bind m (fun _ => k))
  (at level 100, right associativity) : pool_scope.

(** ** The estimators *)

Definition MinGasPremium : Z := 100000.       (* const MinGasPremium = 100e3 *)

(** A price read from a chain message; messages taken from the chain are
    decoded ones, whose big integers are never nil. *)
Definition bigint_value (b : BigInt) : Z :=
  match b with Some z => z | None => 0 end.

Section Estimators.

Context {Cache : Type} (mp : MessagePool Cache).
Local Open Scope pool_scope.
Local Abbreviation M := (M Cache).

(** [GasPriceCache.GetTSGasStats] *)
Definition GetTSGasStats (ts : TipSet) : M (list GasMeta) :=
  fun w =>
    let '(hit, c) := cacheGet mp (Key ts) (cache w) in
    match hit with
    | Some i => (Ret i, set_cache c w)
    | None =>
        match MessagesForTipset mp ts with
        | inr err => (Fail (ErrWrap "loading messages" err), set_cache c w)
        | inl msgs =>
            let prices :=
              map (fun msg => {| Price := bigint_value (GasPremium msg);
                                 Limit := GasLimit msg |}) msgs in
            (Ret prices, set_cache (cacheAdd mp (Key ts) prices c) w)
        end
    end.

(** [MessagePool.GasEstimateFeeCap] *)
Definition GasEstimateFeeCap (msg : Message) (maxqueueblks : Z) (tsk : TipSetKey)
  : M Z :=
  ts <- lift (ChainHead mp) ;;
  match Blocks ts with
  | [] => panic "index out of range"
  | b :: _ =>
      let parentBaseFee := ParentBaseFee b in
      let increaseFactor :=
        Math.Pow (1 + 1 / F64.of_Z (BaseFeeMaxChangeDenom mp))%float
                 (F64.of_Z maxqueueblks) in
      let feeInFuture :=
        parentBaseFee * F64.to_uint64 (platform mp) (increaseFactor * 256)%float in
      let out := feeInFuture / 256 in
      let out :=
        match GasPremium msg with
        | Some premium => out + premium
        | None => out
        end in
      ret out
  end.

(** The loop of [medianGasPremium] over the sorted prices; the result is
    [(prev1, prev2)]. *)
Fixpoint medianWalk (prices : list GasMeta) (at_ prev1 prev2 : Z) : Z * Z :=
  match prices with
  | [] => (prev1, prev2)
  | price :: rest =>
      let at' := Int64.sub at_ (Limit price) in
      if at' <? 0 then (Price price, prev1)
      else medianWalk rest at' (Price price) prev1
  end.

(** [medianGasPremium] *)
Definition medianGasPremium (prices : list GasMeta) (blocks : Z) : Z :=
  let prices := sortSlice mp (fun i j => Price j <? Price i) prices in
  let at_ := Int64.quot (Int64.mul (BlockGasTarget mp) blocks) 2 in
  let at_ := Int64.add at_ (Int64.quot (Int64.mul (BlockGasTarget mp) blocks) (2 * 20)) in
  let '(prev1, prev2) := medianWalk prices at_ 0 0 in
  if negb (prev2 =? 0) then (prev1 + prev2) / 2 else prev1.

(** The loop of [GasEstimateGasPremium] that gathers the price window:
    [n] iterations are left, [ts] is the tipset reached. *)
Fixpoint gatherPrices (n : nat) (ts : TipSet) (prices : list GasMeta) (blocks : Z)
  : M (list GasMeta * Z) :=
  match n with
  | O => ret (prices, blocks)
  | S n' =>
      if Height ts =? 0 then ret (prices, blocks)
      else
        pts <- lift (LoadTipSet mp (Parents ts)) ;;
        let blocks := Int64.add blocks (Z.of_nat (List.length (Blocks pts))) in
        meta <- GetTSGasStats pts ;;
        gatherPrices n' pts (prices ++ meta) blocks
  end.

(** [if nblocksincl == 0 { nblocksincl = 1 }] *)
Definition inclusionTarget (nblocksincl : Z) : Z :=
  if nblocksincl =? 0 then 1 else nblocksincl.

(** The [switch] of [GasEstimateGasPremium] on a premium below
    [MinGasPremium]. *)
Definition premiumFloor (nblocksincl : Z) (premium : Z) : Z :=
  if premium <? MinGasPremium then
    if nblocksincl =? 1 then 2 * MinGasPremium
    else if nblocksincl =? 2 then 150000      (* 1.5 * MinGasPremium *)
    else MinGasPremium
  else premium.

(** [GasEstimateGasPremium] up to the point where noise is added. *)
Definition premiumBeforeNoise (nblocksincl : Z) : M Z :=
  let nblocksincl := inclusionTarget nblocksincl in
  ts <- lift (ChainHead mp) ;;
  pb <- gatherPrices (Z.to_nat (Uint64.mul nblocksincl 2)) ts [] 0 ;;
  let premium := medianGasPremium (fst pb) (snd pb) in
  ret (premiumFloor nblocksincl premium).

(** The noise of [GasEstimateGasPremium]; [precision = 32]. *)
Definition addNoise (premium : Z) : M Z :=
  fun w =>
    let noise := (1 + NormFloat64 mp (draws w) * 0.005)%float in
    let premium :=
      premium * Uint64.add (F64.to_uint64 (platform mp) (noise * 0x1p32)%float) 1 in
    (Ret (premium / 2 ^ 32), set_draws (S (draws w)) w).

(** [MessagePool.GasEstimateGasPremium]; the tipset key is the parameter
    the source names [_]. *)
Definition GasEstimateGasPremium (nblocksincl : Z) (sender : Address)
  (gaslimit : Z) (tsk : TipSetKey) : M Z :=
  premium <- premiumBeforeNoise nblocksincl ;;
  addNoise premium.

(** The pending messages that precede [nonce]:
    [for _, m := range pending { if m.Message.Nonce == msg.Nonce { break }; ... }] *)
Fixpoint priorTo (nonce : Z) (pending : list Message) : list Message :=
  match pending with
  | [] => []
  | m :: rest => if Nonce m =? nonce then [] else m :: priorTo nonce rest
  end.

(** How the loop "try calling until we find a height with no migration"
    is left. *)
Inductive LoopExit :=
| Broke (res : result InvocResult) (ts : TipSet)   (* [break] *)
| ParentFailed (err : error)                       (* [return] inside the loop *)
| OutOfFuel.

(** The loop shared, statement for statement, by [evalMessageGasLimit] and
    [GasEstimateCallWithGas]. *)
Fixpoint callUntilNoMigration (fuel : nat) (msg : Message)
  (priorMsgs : list Message) (ts : TipSet) (w : World Cache)
  : LoopExit * World Cache :=
  match fuel with
  | O => (OutOfFuel, w)
  | S fuel' =>
      let w := set_calls (calls w ++ [ {| call_msg := msg; call_prior := priorMsgs;
                                          call_ts := ts |} ]) w in
      let res := CallWithGas mp msg priorMsgs ts in
      match res with
      | inr ErrExpensiveFork =>
          match ChainTipSet mp (Parents ts) with
          | inr err => (ParentFailed err, w)
          | inl ts' => callUntilNoMigration fuel' msg priorMsgs ts' w
          end
      | _ => (Broke res ts, w)
      end
  end.

(** [switch msgIn.Method] for a storage miner actor. *)
Definition minerMulti (method : Z) : float :=
  match method with
  | 3 => 1.92
  | 4 => 1.72
  | 6 => 1.06
  | 7 => 1.2
  | 16 => 1.19
  | 18 => 1.73
  | 23 => 1.73
  | 26 => 1.15
  | 27 => 1.18
  | _ => 1.0
  end%float.

(** The closure of [evalMessageGasLimit] that picks [transitionalMulti]
    inside the upgrade window. *)
Definition overestimate (msgIn msg : Message) (ts : TipSet) : float :=
  if Method msgIn =? MethodSend mp then 3.0%float
  else
    match ParentState mp ts with
    | inr _ => 1.0%float
    | inl st =>
        match st (To msg) with
        | inr _ => 1.0%float
        | inl None => 1.0%float
        | inl (Some act) =>
            if IsStorageMinerActor mp (Code act) then minerMulti (Method msgIn)
            else 1.0%float
        end
    end.

Definition transitionalMulti (msgIn msg : Message) (ts : TipSet) : float :=
  if (Height ts <=? UpgradeHyggeHeight mp)
     && (Int64.sub (UpgradeHyggeHeight mp) (Height ts) <=? 20)
  then overestimate msgIn msg ts
  else 1.0%float.

(** The special case for PaymentChannel collect: what is added to [ret]. *)
Definition collectRefund (msgIn msg : Message) (ts : TipSet) : Z :=
  match ParentState mp ts with
  | inr _ => 0
  | inl st =>
      match st (To msg) with
      | inl (Some act) =>
          if IsPaymentChannelActor mp (Code act)
             && (Method msgIn =? MethodsPaych_Collect mp)
          then 76000
          else 0
      | _ => 0
      end
  end.

(** [evalMessageGasLimit] from [ret := res.MsgRct.GasUsed] to
    [ret = (ret * int64(transitionalMulti*1024)) >> 10]. *)
Definition scaledGas (msgIn msg : Message) (ts : TipSet) (gasUsed : Z) : Z :=
  let ret := gasUsed in
  let multi := transitionalMulti msgIn msg ts in
  Int64.shr (Int64.mul ret (F64.to_int64 (platform mp) (multi * 1024)%float)) 10.

(** ... and from there to [return ret, nil]. *)
Definition correctedGas (msgIn msg : Message) (ts : TipSet) (gasUsed : Z) : Z :=
  let ret := scaledGas msgIn msg ts gasUsed in
  Int64.add ret (collectRefund msgIn msg ts).

(** The message [evalMessageGasLimit] hands to the evaluator. *)
Definition probeMessage (msgIn : Message) : Message :=
  with_GasPremium (Some 0) (with_GasFeeCap (Some 0)
    (with_GasLimit (BlockGasLimit mp) msgIn)).

(** [MessagePool.evalMessageGasLimit] *)
Definition evalMessageGasLimit (fuel : nat) (msgIn : Message)
  (priorMsgs : list Message) (ts : TipSet) : M Z :=
  fun w =>
    let msg := probeMessage msgIn in
    match callUntilNoMigration fuel msg priorMsgs ts w with
    | (OutOfFuel, w') => (Spinning, w')
    | (ParentFailed err, w') => (Fail (ErrWrap "getting parent tipset" err), w')
    | (Broke (inr err) _, w') => (Fail (ErrWrap "CallWithGas failed" err), w')
    | (Broke (inl res) ts, w') =>
        if negb (ExitCode (MsgRct res) =? exitcode_Ok) then
          (Fail (ErrNew ("message execution failed: " ++ Error res)%string), w')
        else (Ret (correctedGas msgIn msg ts (GasUsed (MsgRct res))), w')
    end.

(** [MessagePool.GasEstimateGasLimit] *)
Definition GasEstimateGasLimit (fuel : nat) (msgIn : Message) (tsk : TipSetKey)
  : M Z :=
  tsk <- (if IsEmpty tsk
          then ts <- wrapping "getting head" (lift (ChainHead mp)) ;; ret (Key ts)
          else ret tsk) ;;
  currTS <- wrapping "getting tipset" (lift (ChainTipSet mp tsk)) ;;
  let msg :=
    with_GasPremium (Some 1)
      (with_GasFeeCap (Some (Int64.add (MinimumBaseFee mp) 1))
         (with_GasLimit (BlockGasLimit mp) msgIn)) in
  fromA <- wrapping "getting key address"
             (lift (ResolveToDeterministicAddress mp (From_ msgIn) currTS)) ;;
  let '(pending, ts) := PendingFor mp fromA in
  let priorMsgs := priorTo (Nonce msg) pending in
  evalMessageGasLimit fuel msgIn priorMsgs ts.

(** [MessagePool.GasEstimateCallWithGas] *)
Definition GasEstimateCallWithGas (fuel : nat) (msgIn : Message) (currTS : TipSet)
  : M (InvocResult * list Message * TipSet) :=
  let msg := msgIn in
  fromA <- wrapping "getting key address"
             (lift (ResolveToDeterministicAddress mp (From_ msgIn) currTS)) ;;
  let '(pending, ts) := PendingFor mp fromA in
  let priorMsgs := priorTo (Nonce msg) pending in
  fun w =>
    match callUntilNoMigration fuel msg priorMsgs ts w with
    | (OutOfFuel, w') => (Spinning, w')
    | (ParentFailed err, w') => (Fail (ErrWrap "getting parent tipset" err), w')
    | (Broke (inr err) _, w') => (Fail (ErrWrap "CallWithGas failed" err), w')
    | (Broke (inl res) ts, w') => (Ret (res, priorMsgs, ts), w')
    end.

(** [x == types.EmptyInt || types.BigCmp(x, types.NewInt(0)) == 0] *)
Definition unset (x : BigInt) : bool :=
  match x with None => true | Some z => z =? 0 end.

(** [if spec != nil && spec.GasOverPremium > 0 { ... }] *)
Definition overPremium (spec : option SendSpec) (gasPremium : Z) : Z :=
  match spec with
  | Some s =>
      if (0 <? GasOverPremium s)%float
      then bigFloatMul mp gasPremium (GasOverPremium s)
      else gasPremium
  | None => gasPremium
  end.

(** [CapGasFee(mp.GetMaxFee, msg, spec)] on the message at [p]. *)
Definition capGasFee (p : ptr) (spec : option SendSpec) : M unit :=
  msg <- load p ;;
  let '(feeCap, premium) := CapGasFee mp msg spec in
  store p (fun m => with_GasPremium premium (with_GasFeeCap feeCap m)).

Definition nilDeref : string := "invalid memory address or nil pointer dereference".

(** [MessagePool.GasEstimateMessageGas]; it returns the pointer it was
    given. *)
Definition GasEstimateMessageGas (fuel : nat)
  (estimateMessage : option EstimateMessage) (tsk : TipSetKey) : M ptr :=
  match estimateMessage with
  | None => fail (ErrNew "estimate message is nil")
  | Some em =>
      match Msg em with
      | None => fail (ErrNew "estimate message is nil")
      | Some p =>
          msg <- load p ;;
          (if GasLimit msg =? 0 then
             gasLimit <- wrapping "estimating gas used"
                           (GasEstimateGasLimit fuel msg EmptyTSK) ;;
             let gasLimitOverestimation :=
               match Spec em with
               | Some s => if (0 <? GasOverEstimation s)%float
                           then GasOverEstimation s
                           else GasLimitOverestimation mp
               | None => GasLimitOverestimation mp
               end in
             store p (with_GasLimit
                        (F64.to_int64 (platform mp)
                           (F64.of_Z gasLimit * gasLimitOverestimation)%float))
           else ret tt) ;;;
          msg <- load p ;;
          (if unset (GasPremium msg) then
             gasPremium <- wrapping "estimating gas price"
                             (GasEstimateGasPremium 10 (From_ msg) (GasLimit msg)
                                EmptyTSK) ;;
             store p (with_GasPremium (Some (overPremium (Spec em) gasPremium)))
           else ret tt) ;;;
          msg <- load p ;;
          (if unset (GasFeeCap msg) then
             feeCap <- wrapping "estimating fee cap"
                         (GasEstimateFeeCap msg 20 EmptyTSK) ;;
             store p (with_GasFeeCap (Some feeCap))
           else ret tt) ;;;
          capGasFee p (Spec em) ;;;
          ret p
      end
  end.

(** An entry of the batch's [priorMsgs]: a pending message of the pool, or
    a message of this batch, held by pointer. *)
Definition PriorMsg := (Message + ptr)%type.

Definition derefPrior (priorMsgs : list PriorMsg) : M (list Message) :=
  fun w =>
    (Ret (map (fun c => match c with inl m => m | inr q => heap w q end) priorMsgs),
     w).

(** The three failure exits of the batch loop:
    [estimateMsg.Nonce = 0; estimateResults = append(...); continue]. *)
Definition failSlot (p : ptr) (what : string) (err : error) : M (option string) :=
  store p (with_Nonce 0) ;;;
  ret (Some (what ++ ": " ++ error_text err)%string).

(** The body of the batch loop is three guarded blocks and a tail; a block
    that takes its failure exit ([continue]) yields the text of the error,
    and the blocks after it are skipped. *)
Definition orContinue (block rest : M (option string)) : M (option string) :=
  e <- block ;;
  match e with
  | Some text => ret (Some text)
  | None => rest
  end.

(** [if estimateMsg.GasLimit == 0 { ... }] *)
Definition fillGasLimit (fuel : nat) (p : ptr) (spec : option SendSpec)
  (priorMsgs : list PriorMsg) (ts : TipSet) : M (option string) :=
  msg <- load p ;;
  if GasLimit msg =? 0 then
    prior <- derefPrior priorMsgs ;;
    r <- try (evalMessageGasLimit fuel msg prior ts) ;;
    match r with
    | inr err => failSlot p "estimating gas limit" err
    | inl gasUsed =>
        match spec with
        | None => panic nilDeref      (* estimateMessage.Spec.GasOverEstimation *)
        | Some s =>
            store p (with_GasLimit
                       (F64.to_int64 (platform mp)
                          (F64.of_Z gasUsed * GasOverEstimation s)%float)) ;;;
            ret None
        end
    end
  else ret None.

(** [if estimateMsg.GasPremium == types.EmptyInt || ... { ... }] *)
Definition fillGasPremium (p : ptr) (spec : option SendSpec) : M (option string) :=
  msg <- load p ;;
  if unset (GasPremium msg) then
    r <- try (GasEstimateGasPremium 10 (From_ msg) (GasLimit msg) EmptyTSK) ;;
    match r with
    | inr err => failSlot p "estimating gas premium" err
    | inl gasPremium =>
        store p (with_GasPremium (Some (overPremium spec gasPremium))) ;;;
        ret None
    end
  else ret None.

(** [if estimateMsg.GasFeeCap == types.EmptyInt || ... { ... }] *)
Definition fillGasFeeCap (p : ptr) : M (option string) :=
  msg <- load p ;;
  if unset (GasFeeCap msg) then
    r <- try (GasEstimateFeeCap msg 20 EmptyTSK) ;;
    match r with
    | inr err => failSlot p "estimating fee cap" err
    | inl feeCap => store p (with_GasFeeCap (Some feeCap)) ;;; ret None
    end
  else ret None.

(** One iteration of the loop of [GasBatchEstimateMessageGas], up to the
    point where it either takes a failure exit ([Some] text of the error)
    or reaches the end of the body ([None]). *)
Definition estimateSlot (fuel : nat) (p : ptr) (spec : option SendSpec)
  (priorMsgs : list PriorMsg) (ts : TipSet) (fromNonce : Z) : M (option string) :=
  store p (with_Nonce fromNonce) ;;;
  orContinue (fillGasLimit fuel p spec priorMsgs ts)
    (orContinue (fillGasPremium p spec)
       (orContinue (fillGasFeeCap p)
          (capGasFee p spec ;;; ret None))).

(** [for _, estimateMessage := range estimateMessages { ... }] *)
Fixpoint batchLoop (fuel : nat) (estimateMessages : list (option EstimateMessage))
  (priorMsgs : list PriorMsg) (ts : TipSet) (fromNonce : Z)
  (estimateResults : list EstimateResult) : M (list EstimateResult) :=
  match estimateMessages with
  | [] => ret estimateResults
  | None :: _ => panic nilDeref
  | Some em :: rest =>
      match Msg em with
      | None => panic nilDeref
      | Some p =>
          e <- estimateSlot fuel p (Spec em) priorMsgs ts fromNonce ;;
          match e with
          | Some text =>
              batchLoop fuel rest priorMsgs ts fromNonce
                (estimateResults ++ [ {| ResMsg := p; Err := text |} ])
          | None =>
              batchLoop fuel rest (priorMsgs ++ [inr p]) ts (Uint64.add fromNonce 1)
                (estimateResults ++ [ {| ResMsg := p; Err := "" |} ])
          end
      end
  end.

(** [MessagePool.GasBatchEstimateMessageGas] *)
Definition GasBatchEstimateMessageGas (fuel : nat)
  (estimateMessages : list (option EstimateMessage)) (fromNonce : Z)
  (tsk : TipSetKey) : M (list EstimateResult) :=
  match estimateMessages with
  | [] => fail (ErrNew "estimate messages are empty")
  | first :: _ =>
      currTS <- wrapping "getting tipset" (lift (ChainTipSet mp tsk)) ;;
      first <- match first with
               | Some {| Msg := Some p |} => load p
               | _ => panic nilDeref
               end ;;
      fromA <- wrapping "getting key address"
                 (lift (ResolveToDeterministicAddress mp (From_ first) currTS)) ;;
      let '(pending, ts) := PendingFor mp fromA in
      let priorMsgs := map (fun m => inl m) pending in
      batchLoop fuel estimateMessages priorMsgs ts fromNonce []
  end.

End Estimators.

(** ** The tipset height index ([pkg/chain/chain_index.go]) *)

Module ChainIndex.

Record lbEntry := { targetHeight : Z; target : TipSetKey }.

(** [indexCache map[types.TipSetKey]*lbEntry] *)
Definition IndexCache := TipSetKey -> option lbEntry.

Definition key_eqb (a b : TipSetKey) : bool :=
  if list_eq_dec Z.eq_dec a b then true else false.

(** [ci.indexCache[tsk] = lbe] *)
Definition insert (tsk : TipSetKey) (lbe : lbEntry) (c : IndexCache) : IndexCache :=
  fun k => if key_eqb k tsk then Some lbe else c k.

(** [ChainIndex], without its lock and its cache (which is the state the
    operations thread).  [NewChainIndex] sets [skipLength] to 20. *)
Record Index := {
  loadTipSet : TipSetKey -> result TipSet;
  skipLength : Z
}.

Definition NewChainIndex (lts : TipSetKey -> result TipSet) : Index :=
  {| loadTipSet := lts; skipLength := 20 |}.

Section Ops.

Context (ci : Index).

(** [roundHeight]: "floors to nearest skipLength multiple".  Go panics on
    a zero divisor; [NewChainIndex] sets 20, and the properties below ask
    for a positive [skipLength]. *)
Definition roundHeight (h : Z) : Z :=
  Int64.mul (Int64.quot h (skipLength ci)) (skipLength ci).

(** The loop of [walkBack]. *)
Fixpoint walkLoop (fuel : nat) (ts : TipSet) (to : Z) : outcome TipSet :=
  match fuel with
  | O => Spinning
  | S fuel' =>
      match loadTipSet ci (Parents ts) with
      | inr err => Fail (ErrWrap "failed to load tipset" err)
      | inl pts =>
          if Height pts <? to then Ret ts
          else if to =? Height pts then Ret pts
          else walkLoop fuel' pts to
      end
  end.

(** [walkBack] *)
Definition walkBack (fuel : nat) (from : TipSet) (to : Z) : outcome TipSet :=
  if Height from <? to then
    Fail (ErrNew "looking for tipset with height greater than start point")
  else if to =? Height from then Ret from
  else walkLoop fuel from to.

(** [GetTipsetByHeightWithoutCache] *)
Definition GetTipsetByHeightWithoutCache (fuel : nat) (from : TipSet) (to : Z)
  : outcome TipSet :=
  walkBack fuel from to.

(** [roundDown] *)
Definition roundDown (fuel : nat) (ts : TipSet) : outcome TipSet :=
  let target := roundHeight (Height ts) in
  match walkBack fuel ts target with
  | Fail err => Fail (ErrWrap "failed to walk back" err)
  | o => o
  end.

(** [fillCache]; the caller holds the lock. *)
Definition fillCache (fuel : nat) (tsk : TipSetKey) (c : IndexCache)
  : outcome lbEntry * IndexCache :=
  match loadTipSet ci tsk with
  | inr err => (Fail (ErrWrap "failed to load tipset" err), c)
  | inl ts =>
      if Height ts =? 0 then (Ret {| targetHeight := 0; target := tsk |}, c)
      else
        let rheight := roundHeight (Height ts) in
        match loadTipSet ci (Parents ts) with
        | inr err => (Fail err, c)
        | inl parent =>
            let rheight := Int64.sub rheight (skipLength ci) in
            let rheight := if rheight <? 0 then 0 else rheight in
            let skipTarget :=
              if Height parent <? rheight then Ret parent
              else match walkBack fuel parent rheight with
                   | Fail err => Fail (ErrWrap "fillCache walkback" err)
                   | o => o
                   end in
            match skipTarget with
            | Ret skipTarget =>
                let lbe := {| targetHeight := Height skipTarget;
                              target := Key skipTarget |} in
                (Ret lbe, insert tsk lbe c)
            | Fail err => (Fail err, c)
            | Panic s => (Panic s, c)
            | Spinning => (Spinning, c)
            end
        end
  end.

(** The loop of [GetTipSetByHeight] over the cache; [fuel] bounds this loop
    and [inner] the loops of the calls it makes. *)
Fixpoint lookupLoop (fuel inner : nat) (cur : TipSetKey) (to : Z) (c : IndexCache)
  : outcome TipSet * IndexCache :=
  match fuel with
  | O => (Spinning, c)
  | S fuel' =>
      let filled :=
        match c cur with
        | Some lbe => (Ret lbe, c)
        | None =>
            match fillCache inner cur c with
            | (Fail err, c') => (Fail (ErrWrap "failed to fill cache" err), c')
            | r => r
            end
        end in
      match filled with
      | (Ret lbe, c) =>
          if to =? targetHeight lbe then
            match loadTipSet ci (target lbe) with
            | inr err => (Fail (ErrWrap "failed to load tipset" err), c)
            | inl ts => (Ret ts, c)
            end
          else if targetHeight lbe <? to then
            match loadTipSet ci cur with
            | inr err => (Fail (ErrWrap "failed to load tipset" err), c)
            | inl ts => (walkBack inner ts to, c)
            end
          else lookupLoop fuel' inner (target lbe) to c
      | (Fail err, c) => (Fail err, c)
      | (Panic s, c) => (Panic s, c)
      | (Spinning, c) => (Spinning, c)
      end
  end.

(** [GetTipSetByHeight] *)
Definition GetTipSetByHeight (fuel : nat) (from : TipSet) (to : Z) (c : IndexCache)
  : outcome TipSet * IndexCache :=
  if Int64.sub (Height from) to <=? skipLength ci then (walkBack fuel from to, c)
  else
    match roundDown fuel from with
    | Ret rounded => lookupLoop fuel fuel (Key rounded) to c
    | Fail err => (Fail (ErrWrap "failed to round down" err), c)
    | Panic s => (Panic s, c)
    | Spinning => (Spinning, c)
    end.

End Ops.

End ChainIndex.

(** ** Consensus faults of the FVM externs ([pkg/vm/fvm.go]) *)

Module Fvm.

(** [ffi_cgo.ConsensusFault] and its [Type] *)
Inductive ConsensusFaultType :=
| ConsensusFaultNone
| ConsensusFaultDoubleForkMining
| ConsensusFaultParentGrinding
| ConsensusFaultTimeOffsetMining.

Record ConsensusFault := {
  Target : Address;
  Epoch : Z;
  Type_ : ConsensusFaultType
}.

(** What the checks read of a [types.BlockHeader]; [BlockSig] is a pointer,
    [None] when nil. *)
Record BlockHeader := {
  Miner : Address;
  Height : Z;
  Parents : list Cid;
  BlockSig : option (list Byte.byte)
}.

Record MinerInfo := { Worker : Address }.

(** What [FvmExtern] reaches outside the file.  The calls that read through
    the gas-charging store ([cstWithGas]) take the gas the tank has used
    and leave what it has used after them.  A collaborator that panics is
    outside the model. *)
Record FvmExtern {LbState MinerState StateTree AccountState : Type} := {
  UnmarshalCBOR : list Byte.byte -> result BlockHeader;
  BlockCid : BlockHeader -> Cid;                          (* blk.Cid() *)
  SignatureData : BlockHeader -> result (list Byte.byte);
  CidArrsEqual : list Cid -> list Cid -> bool;
  CidArrsContains : list Cid -> Cid -> bool;
  crypto_Verify : list Byte.byte -> Address -> list Byte.byte -> option error;
  lbState : Z -> result LbState;
  LoadActor : LbState -> Address -> result Actor;
  miner_Load : Actor -> Z -> result MinerState * Z;
  Info : MinerState -> Z -> result MinerInfo * Z;
  base : Cid;
  tree_LoadState : Cid -> result StateTree;
  GetActor : StateTree -> Address -> result (option Actor);
  account_Load : Actor -> Z -> result AccountState * Z;
  PubkeyAddress : AccountState -> Z -> result Address * Z;
  Protocol : Address -> Z;
  address_BLS : Z;
  address_SECP256K1 : Z;
  address_Undef : Address;
  address_String : Address -> string;
  cid_String : Cid -> string
}.
Arguments FvmExtern : clear implicits.

Section Extern.

Context {LbState MinerState StateTree AccountState : Type}.
Context (x : FvmExtern LbState MinerState StateTree AccountState).

(** [resolveToKeyAddr]; [gas] is what the tank behind [cst] has used. *)
Definition resolveToKeyAddr (state : StateTree) (addr : Address) (gas : Z)
  : result Address * Z :=
  if (Protocol x addr =? address_BLS x) || (Protocol x addr =? address_SECP256K1 x)
  then (inl addr, gas)
  else
    match GetActor x state addr with
    | inr _ =>
        (inr (ErrNew ("failed to find actor: " ++ address_String x addr)), gas)
    | inl None =>
        (inr (ErrNew ("signer resolution found no such actor "
                      ++ address_String x addr)), gas)
    | inl (Some act) =>
        match account_Load x act gas with
        | (inr err, gas) =>
            (inr (ErrWrap ("failed to get account actor state for "
                           ++ address_String x addr) err), gas)
        | (inl aast, gas) => PubkeyAddress x aast gas
        end
    end.

(** [workerKeyAtLookback]: the address, [gasTank.GasUsed], and the error. *)
Definition workerKeyAtLookback (minerID : Address) (height : Z)
  : Address * Z * option error :=
  let gasTank := 0 in
  match lbState x height with
  | inr err => (address_Undef x, 0, Some err)
  | inl lb =>
      match LoadActor x lb minerID with
      | inr err => (address_Undef x, 0, Some err)
      | inl act =>
          match miner_Load x act gasTank with
          | (inr err, _) => (address_Undef x, 0, Some err)
          | (inl mas, gasTank) =>
              match Info x mas gasTank with
              | (inr err, _) => (address_Undef x, 0, Some err)
              | (inl info, gasTank) =>
                  match tree_LoadState x (base x) with
                  | inr err => (address_Undef x, 0, Some err)
                  | inl st =>
                      match resolveToKeyAddr st (Worker info) gasTank with
                      | (inr err, _) => (address_Undef x, 0, Some err)
                      | (inl raddr, gasTank) => (raddr, gasTank, None)
                      end
                  end
              end
          end
      end
  end.

(** [VerifyBlockSig] *)
Definition VerifyBlockSig (blk : BlockHeader) : Z * option error :=
  match workerKeyAtLookback (Miner blk) (Height blk) with
  | (_, gasUsed, Some err) => (gasUsed, Some err)
  | (waddr, gasUsed, None) =>
      match BlockSig blk with
      | None =>
          (0, Some (ErrNew ("no consensus fault: block "
                            ++ cid_String x (BlockCid x blk)
                            ++ " has nil signature")))
      | Some sig =>
          match SignatureData x blk with
          | inr err => (0, Some err)
          | inl sd => (gasUsed, crypto_Verify x sig waddr sd)
          end
      end
  end.

(** The fault the two blocks show before [extra] is looked at: (a) and (b)
    of [VerifyConsensusFault]. *)
Definition forkOrOffset (blockA blockB : BlockHeader) : ConsensusFaultType :=
  let faultType := ConsensusFaultNone in
  let faultType :=
    if Height blockA =? Height blockB then ConsensusFaultDoubleForkMining
    else faultType in
  if CidArrsEqual x (Parents blockA) (Parents blockB)
     && negb (Height blockA =? Height blockB)
  then ConsensusFaultTimeOffsetMining
  else faultType.

(** The test of (c), on the decoded witness block. *)
Definition grinds (blockA blockB blockC : BlockHeader) : bool :=
  CidArrsEqual x (Parents blockA) (Parents blockC)
  && (Height blockA =? Height blockC)
  && CidArrsContains x (Parents blockB) (BlockCid x blockC)
  && negb (CidArrsContains x (Parents blockB) (BlockCid x blockA)).

(** [VerifyConsensusFault]: the fault and the gas. *)
Definition VerifyConsensusFault (a b extra : list Byte.byte) : ConsensusFault * Z :=
  let totalGas := 0 in
  let ret := {| Target := address_Undef x; Epoch := 0; Type_ := ConsensusFaultNone |} in
  match UnmarshalCBOR x a with
  | inr _ => (ret, totalGas)
  | inl blockA =>
  match UnmarshalCBOR x b with
  | inr _ => (ret, totalGas)
  | inl blockB =>
  if BlockCid x blockA =? BlockCid x blockB then (ret, totalGas)
  else if negb (Miner blockA =? Miner blockB) then (ret, totalGas)
  else if Height blockB <? Height blockA then (ret, totalGas)
  else
    let ret := {| Target := Target ret; Epoch := Height blockB; Type_ := Type_ ret |} in
    let faultType := forkOrOffset blockA blockB in
    let witnessed :=
      match extra with
      | [] => Some faultType
      | _ =>
          match UnmarshalCBOR x extra with
          | inr _ => None
          | inl blockC =>
              Some (if grinds blockA blockB blockC then ConsensusFaultParentGrinding
                    else faultType)
          end
      end in
    match witnessed with
    | None => (ret, totalGas)
    | Some ConsensusFaultNone => (ret, totalGas)
    | Some faultType =>
        let (gasA, sigErr) := VerifyBlockSig blockA in
        let totalGas := Int64.add totalGas gasA in
        match sigErr with
        | Some _ => (ret, totalGas)
        | None =>
            let (gas2, sigErr) := VerifyBlockSig blockB in
            let totalGas := Int64.add totalGas gas2 in
            match sigErr with
            | Some _ => (ret, totalGas)
            | None =>
                ({| Target := Miner blockA; Epoch := Epoch ret; Type_ := faultType |},
                 totalGas)
            end
        end
    end
  end end.

End Extern.

End Fvm.

(** ** Creating a multisig actor ([builtin/multisig], actors version 8) *)

Module Multisig.

(** [multisig8.ConstructorParams] and [init8.ExecParams] *)
Record ConstructorParams := {
  Signers : list Address;
  NumApprovalsThreshold : Z;     (* uint64 *)
  UnlockDuration : Z;
  StartEpoch : Z
}.

Record ExecParams := {
  CodeCID : Cid;
  ConstructorParams_ : list Byte.byte
}.

(** What [Create] reaches outside the file. *)
Record Actors := {
  SerializeConstructorParams : ConstructorParams -> result (list Byte.byte);
  SerializeExecParams : ExecParams -> result (list Byte.byte);
  GetActorCodeID : Z -> string -> option Cid;
  Version8 : Z;
  init_Address : Address;
  MethodsInit_Exec : Z;
  address_Undef : Address
}.

Record message0 := { from : Address }.

(** [message8.Create] *)
Definition Create (a : Actors) (m : message0)
    (signers : list Address) (threshold : Z)
    (unlockStart unlockDuration : Z) (initialAmount : BigInt)
  : result Message :=
  let lenAddrs := Uint64.wrap (Z.of_nat (List.length signers)) in
  if lenAddrs <? threshold then
    inr (ErrNew "cannot require signing of more addresses than provided for multisig")
  else
    let threshold := if threshold =? 0 then lenAddrs else threshold in
    if from m =? address_Undef a then inr (ErrNew "must provide source address")
    else
      let msigParams := {| Signers := signers;
                           NumApprovalsThreshold := threshold;
                           UnlockDuration := unlockDuration;
                           StartEpoch := unlockStart |} in
      match SerializeConstructorParams a msigParams with
      | inr actErr => inr actErr
      | inl enc =>
          match GetActorCodeID a (Version8 a) "multisig" with
          | None => inr (ErrNew "error getting actor multisig code id for actor version 8")
          | Some actorCodeID =>
              let execParams := {| CodeCID := actorCodeID; ConstructorParams_ := enc |} in
              match SerializeExecParams a execParams with
              | inr actErr => inr actErr
              | inl enc =>
                  inl {| To := init_Address a;
                         From_ := from m;
                         Nonce := 0;
                         Value := initialAmount;
                         GasLimit := 0;
                         GasFeeCap := EmptyInt;
                         GasPremium := EmptyInt;
                         Method := MethodsInit_Exec a;
                         Params := enc |}
              end
          end
      end.

End Multisig.

(** ** A sample chain and pool

    Three tipsets above one another, an evaluator that charges 1,000,000
    gas, fails messages sent to address 666 and reports the fork boundary
    for method 77 at the head; actors 50 (storage miner), 60 (payment
    channel) and 70 (account); address 404 is not in the state tree, and
    looking up address 500 is an error. *)
Module Sample.

Definition Cache := list (TipSetKey * list GasMeta).

Definition genesis : TipSet :=
  {| Key := [100]; Height := 0; Parents := []; Blocks := [ {| ParentBaseFee := 100 |} ] |}.
Definition tip1 : TipSet :=
  {| Key := [101]; Height := 1; Parents := [100]; Blocks := [ {| ParentBaseFee := 100 |} ] |}.
Definition tip2 : TipSet :=
  {| Key := [102]; Height := 2; Parents := [101];
     Blocks := [ {| ParentBaseFee := 100 |}; {| ParentBaseFee := 100 |} ] |}.

Definition tipset (tsk : TipSetKey) : result TipSet :=
  match tsk with
  | [] => inl tip2
  | [100] => inl genesis
  | [101] => inl tip1
  | [102] => inl tip2
  | _ => inr (ErrNew "tipset not found")
  end.

Definition message (to method : Z) : Message :=
  {| To := to; From_ := 7; Nonce := 0; Value := Some 0; GasLimit := 0;
     GasFeeCap := None; GasPremium := None; Method := method; Params := [] |}.

Definition included (ts : TipSet) : result (list Message) :=
  inl (if Height ts =? 1
       then [ with_GasLimit 4000000000 (with_GasPremium (Some 300000) (message 70 0));
              with_GasLimit 4000000000 (with_GasPremium (Some 500000) (message 70 0)) ]
       else []).

Definition evaluator (msg : Message) (prior : list Message) (ts : TipSet)
  : result InvocResult :=
  if (Method msg =? 77) && (Height ts =? 2) then inr ErrExpensiveFork
  else if Method msg =? 78 then inr (ErrNew "state not found")
  else if To msg =? 666 then
    inl {| MsgRct := {| ExitCode := 16; GasUsed := 0 |}; Error := "no such actor" |}
  else inl {| MsgRct := {| ExitCode := 0; GasUsed := 1000000 |}; Error := "" |}.

Definition tree : StateTree :=
  fun a =>
    if a =? 50 then inl (Some {| Code := 2 |})
    else if a =? 60 then inl (Some {| Code := 3 |})
    else if a =? 404 then inl None
    else if a =? 500 then inr (ErrNew "lookup failed")
    else inl (Some {| Code := 1 |}).

Fixpoint insert (less : GasMeta -> GasMeta -> bool) (x : GasMeta) (l : list GasMeta)
  : list GasMeta :=
  match l with
  | [] => [x]
  | y :: r => if less y x then y :: insert less x r else x :: y :: r
  end.
Definition insertionSort (less : GasMeta -> GasMeta -> bool) (l : list GasMeta)
  : list GasMeta :=
  fold_right (insert less) [] l.

Fixpoint lookup (k : TipSetKey) (c : Cache) : option (list GasMeta) :=
  match c with
  | [] => None
  | (k', v) :: r => if list_eq_dec Z.eq_dec k k' then Some v else lookup k r
  end.

(** The evaluator without the fork boundary. *)
Definition steadyEvaluator (msg : Message) (prior : list Message) (ts : TipSet)
  : result InvocResult :=
  if To msg =? 666 then
    inl {| MsgRct := {| ExitCode := 16; GasUsed := 0 |}; Error := "no such actor" |}
  else inl {| MsgRct := {| ExitCode := 0; GasUsed := 1000000 |}; Error := "" |}.

Definition poolWith (eval : Message -> list Message -> TipSet -> result InvocResult)
  (incl : TipSet -> result (list Message)) (hygge : Z) : MessagePool Cache := {|
  ChainHead := inl tip2;
  ChainTipSet := tipset;
  LoadTipSet := tipset;
  MessagesForTipset := incl;
  ResolveToDeterministicAddress := fun a _ => inl a;
  CallWithGas := eval;
  ParentState := fun _ => inl tree;
  PendingFor := fun _ => ([], tip2);
  UpgradeHyggeHeight := hygge;
  GasLimitOverestimation := 1.25;
  CapGasFee := fun m _ => (GasFeeCap m, GasPremium m);
  cacheGet := fun k c => (lookup k c, c);
  cacheAdd := fun k v c => (k, v) :: c;
  NormFloat64 := fun _ => 0%float;
  sortSlice := insertionSort;
  bigFloatMul := fun z f => F64.to_int64 amd64 (F64.of_Z z * f)%float;
  IsStorageMinerActor := fun c => c =? 2;
  IsPaymentChannelActor := fun c => c =? 3;
  BlockGasLimit := 10000000000;
  BlockGasTarget := 5000000000;
  MinimumBaseFee := 100;
  BaseFeeMaxChangeDenom := 8;
  MethodSend := 0;
  MethodsPaych_Collect := 4;
  platform := amd64
|}.

Definition pool (hygge : Z) : MessagePool Cache := poolWith evaluator included hygge.

(** A pool that is [calm]; the upgrade is far away. *)
Definition steady : MessagePool Cache := poolWith steadyEvaluator included 1000.

(** A chain whose messages all paid a zero premium. *)
Definition unpriced (ts : TipSet) : result (list Message) :=
  inl [ with_GasLimit 4000000000 (with_GasPremium (Some 0) (message 70 0)) ].

Definition quiet : MessagePool Cache := poolWith steadyEvaluator unpriced 1000.

(** A batch of the messages at the given cells, each with a spec that
    asks for [over] as its gas over-estimation. *)
Definition batch (over : float) (cells : list ptr) : list (option EstimateMessage) :=
  map (fun p => Some {| Msg := Some p;
                        Spec := Some {| MaxFee := None; GasOverEstimation := over;
                                        GasOverPremium := 0 |} |}) cells.

(** A heap whose cell [p] holds a message to address [to p]. *)
Definition cells (to : nat -> Z) (method : Z) : ptr -> Message :=
  fun p => message (to p) method.

Definition world (h : ptr -> Message) : World Cache :=
  {| heap := h; cache := []; draws := 0%nat; calls := [] |}.

(** Messages to the account actor 70. *)
Definition plain : World Cache := world (cells (fun _ => 70) 0).

(** Five messages, the third of which is addressed to the actor whose
    execution fails. *)
Definition fiveMessages : World Cache :=
  world (cells (fun p => if Nat.eqb p 2 then 666 else 70) 5).

(** The window gathered on the sample chain for one block. *)
Definition window : list GasMeta :=
  [ {| Price := 300000; Limit := 4000000000 |};
    {| Price := 500000; Limit := 4000000000 |} ].

(** A spec that leaves both multipliers at zero. *)
Definition zeroSpec : SendSpec :=
  {| MaxFee := None; GasOverEstimation := 0; GasOverPremium := 0 |}.

Definition receipt : InvocResult :=
  {| MsgRct := {| ExitCode := 0; GasUsed := 1000000 |}; Error := "" |}.

End Sample.

(** ** Further samples

    The steady pool with its head at another tipset; a chain of heights 0
    to 100 in which the heights 3, 10, 17, ... are null rounds, behind a
    fresh index; five block headers of one miner for the consensus-fault
    check; and the collaborators of multisig creation. *)
Module Cases.

Definition poolAt (head : TipSet) : MessagePool Sample.Cache := {|
  ChainHead := inl head;
  ChainTipSet := Sample.tipset;
  LoadTipSet := Sample.tipset;
  MessagesForTipset := Sample.included;
  ResolveToDeterministicAddress := fun a _ => inl a;
  CallWithGas := Sample.steadyEvaluator;
  ParentState := fun _ => inl Sample.tree;
  PendingFor := fun _ => ([], Sample.tip2);
  UpgradeHyggeHeight := 1000;
  GasLimitOverestimation := 1.25;
  CapGasFee := fun m _ => (GasFeeCap m, GasPremium m);
  cacheGet := fun k c => (Sample.lookup k c, c);
  cacheAdd := fun k v c => (k, v) :: c;
  NormFloat64 := fun _ => 0%float;
  sortSlice := Sample.insertionSort;
  bigFloatMul := fun z f => F64.to_int64 amd64 (F64.of_Z z * f)%float;
  IsStorageMinerActor := fun c => c =? 2;
  IsPaymentChannelActor := fun c => c =? 3;
  BlockGasLimit := 10000000000;
  BlockGasTarget := 5000000000;
  MinimumBaseFee := 100;
  BaseFeeMaxChangeDenom := 8;
  MethodSend := 0;
  MethodsPaych_Collect := 4;
  platform := amd64
|}.

(** Messages that come with all their gas fields. *)
Definition complete : World Sample.Cache :=
  Sample.world (fun _ => with_GasFeeCap (Some 9)
                           (with_GasPremium (Some 7)
                              (with_GasLimit 5 (Sample.message 70 0)))).

(** Messages whose simulation is an error of the evaluator. *)
Definition failing : World Sample.Cache :=
  Sample.world (Sample.cells (fun _ => 70) 78).

(** *** A chain with null rounds *)

Definition nullRound (h : Z) : bool := h mod 7 =? 3.

Definition parentHeight (h : Z) : Z :=
  if nullRound (h - 1) then h - 2 else h - 1.

Definition tipsetAt (h : Z) : TipSet :=
  {| Key := [h]; Height := h; Parents := [parentHeight h]; Blocks := [] |}.

Definition loadTipSet (k : TipSetKey) : result TipSet :=
  match k with
  | [h] =>
      if (0 <=? h) && (h <=? 100) && negb (nullRound h) then inl (tipsetAt h)
      else inr (ErrNew "tipset not found")
  | _ => inr (ErrNew "tipset not found")
  end.

Definition index : ChainIndex.Index := ChainIndex.NewChainIndex loadTipSet.

Definition empty : ChainIndex.IndexCache := fun _ => None.

(** *** Block headers of miner 1000 *)

(** A header is encoded as one byte, which is also its signature; its CID
    is the number of that byte. *)
Definition header (id : Byte.byte) (height : Z) (parents : list Cid) : Fvm.BlockHeader :=
  {| Fvm.Miner := 1000; Fvm.Height := height; Fvm.Parents := parents;
     Fvm.BlockSig := Some [id] |}.

Definition blockCid (blk : Fvm.BlockHeader) : Cid :=
  match Fvm.BlockSig blk with
  | Some [id] => Z.of_N (Byte.to_N id)
  | _ => 0
  end.

(** Block 1 at height 5; block 2 at the same height on other parents;
    block 3 one height up on the parents of block 1; block 4 a sibling of
    block 1; block 5 on top of blocks 4 and 2, leaving block 1 out. *)
Definition decode (bs : list Byte.byte) : result Fvm.BlockHeader :=
  match bs with
  | [id] =>
      match Byte.to_N id with
      | 1%N => inl (header id 5 [100; 101])
      | 2%N => inl (header id 5 [102])
      | 3%N => inl (header id 6 [100; 101])
      | 4%N => inl (header id 5 [100; 101])
      | 5%N => inl (header id 6 [4; 2])
      | _ => inr (ErrNew "cbor input had wrong number of fields")
      end
  | _ => inr (ErrNew "cbor input had wrong number of fields")
  end.

Fixpoint sameCids (a b : list Cid) : bool :=
  match a, b with
  | [], [] => true
  | x :: a', y :: b' => (x =? y) && sameCids a' b'
  | _, _ => false
  end.

(** The worker of every miner is the key address 77, found for 15 gas. *)
Definition extern : Fvm.FvmExtern unit unit unit unit := {|
  Fvm.UnmarshalCBOR := decode;
  Fvm.BlockCid := blockCid;
  Fvm.SignatureData := fun _ => inl [];
  Fvm.CidArrsEqual := sameCids;
  Fvm.CidArrsContains := fun l c => existsb (Z.eqb c) l;
  Fvm.crypto_Verify := fun _ addr _ =>
    if addr =? 77 then None else Some (ErrNew "signature did not match");
  Fvm.lbState := fun _ => inl tt;
  Fvm.LoadActor := fun _ _ => inl {| Code := 2 |};
  Fvm.miner_Load := fun _ gas => (inl tt, gas + 10);
  Fvm.Info := fun _ gas => (inl {| Fvm.Worker := 77 |}, gas + 5);
  Fvm.base := 0;
  Fvm.tree_LoadState := fun _ => inl tt;
  Fvm.GetActor := fun _ _ => inl None;
  Fvm.account_Load := fun _ gas => (inl tt, gas);
  Fvm.PubkeyAddress := fun _ gas => (inl 77, gas);
  Fvm.Protocol := fun a => if a =? 77 then 3 else 0;
  Fvm.address_BLS := 3;
  Fvm.address_SECP256K1 := 1;
  Fvm.address_Undef := 0;
  Fvm.address_String := fun _ => "f01000"%string;
  Fvm.cid_String := fun _ => "bafy"%string
|}.

(** *** Multisig creation *)

Definition actors : Multisig.Actors := {|
  Multisig.SerializeConstructorParams := fun p =>
    inl (map (fun _ => Byte.x01) (Multisig.Signers p));
  Multisig.SerializeExecParams := fun p => inl (Byte.x02 :: Multisig.ConstructorParams_ p);
  Multisig.GetActorCodeID := fun v _ => if v =? 8 then Some 42 else None;
  Multisig.Version8 := 8;
  Multisig.init_Address := 1;
  Multisig.MethodsInit_Exec := 2;
  Multisig.address_Undef := 0
|}.

End Cases.

(** ** Notions the properties are stated with *)

(** The nonces the results of a batch carry once the call has returned:
    a result holds the pointer of its message. *)
Definition resultNonces {Cache} (w : World Cache) (rs : list EstimateResult) : list Z :=
  map (fun r => Nonce (heap w (ResMsg r))) rs.

Definition succeeded (r : EstimateResult) : bool := String.eqb (Err r) "".

(** Nonces handed out one per success: a failed slot carries the unset
    nonce [0] and takes none. *)
Fixpoint noncesBySuccess (start : Z) (rs : list EstimateResult) : list Z :=
  match rs with
  | [] => []
  | r :: rest =>
      if succeeded r then start :: noncesBySuccess (Uint64.add start 1) rest
      else 0 :: noncesBySuccess start rest
  end.

(** Nonces handed out one per slot, whether it failed or not. *)
Fixpoint noncesBySlot (start : Z) (rs : list EstimateResult) : list Z :=
  match rs with
  | [] => []
  | r :: rest =>
      (if succeeded r then start else 0) :: noncesBySlot (Uint64.add start 1) rest
  end.

(** The message pointers of a batch. *)
Fixpoint pointers (ems : list (option EstimateMessage)) : list ptr :=
  match ems with
  | [] => []
  | Some {| Msg := Some p |} :: rest => p :: pointers rest
  | _ :: rest => pointers rest
  end.

(** The contract of [sort.Slice] for the comparison [medianGasPremium]
    gives it: a rearrangement of the slice in which no entry is followed
    by a dearer one.  The order of entries of equal price is not fixed. *)
Definition sortsDescending {Cache} (mp : MessagePool Cache) : Prop :=
  forall l : list GasMeta,
    let s := sortSlice mp (fun i j => Price j <? Price i) l in
    Permutation l s /\ StronglySorted (fun a b => Price b <= Price a) s.

(** [target = blockGasTarget * blocks / 2], plus 5% of the same base. *)
Definition target (blockGasTarget blocks : Z) : Z :=
  blockGasTarget * blocks / 2 + blockGasTarget * blocks / 40.

(** What is left of the target after the first [k] entries. *)
Definition remaining (tgt : Z) (sorted : list GasMeta) (k : nat) : Z :=
  tgt - fold_right Z.add 0 (map Limit (firstn k sorted)).

(** Entry [i] is the first one at which the running total is negative. *)
Definition stopsAt (tgt : Z) (sorted : list GasMeta) (i : nat) : Prop :=
  (i < List.length sorted)%nat
  /\ remaining tgt sorted (S i) < 0
  /\ forall j, (j < i)%nat -> 0 <= remaining tgt sorted (S j).

Definition priceAt (sorted : list GasMeta) (i : nat) : Z :=
  nth i (map Price sorted) 0.

(** The average of the price at [i] and the one before it when that one
    is nonzero; the price at [i] alone otherwise. *)
Definition chosenPremium (sorted : list GasMeta) (i : nat) : Z :=
  match i with
  | O => priceAt sorted O
  | S j =>
      if priceAt sorted j =? 0 then priceAt sorted i
      else (priceAt sorted i + priceAt sorted j) / 2
  end.

(** The actor a message is addressed to, when the state tree of the tipset
    can be read and has it. *)
Definition targetActor {Cache} (mp : MessagePool Cache) (ts : TipSet) (a : Address)
  : option Actor :=
  match ParentState mp ts with
  | inl st => match st a with inl (Some act) => Some act | _ => None end
  | inr _ => None
  end.

(** Within 20 heights at or before the upgrade. *)
Definition inUpgradeWindow (upgrade height : Z) : bool :=
  (height <=? upgrade) && (upgrade - height <=? 20).

(** The correction table, in hundredths. *)
Definition minerFactor (method : Z) : Z :=
  match method with
  | 3 => 192 | 4 => 172 | 6 => 106 | 7 => 120 | 16 => 119
  | 18 => 173 | 23 => 173 | 26 => 115 | 27 => 118
  | _ => 100
  end.

Definition correctionFactor {Cache} (mp : MessagePool Cache) (msg : Message)
  (ts : TipSet) : Z :=
  if negb (inUpgradeWindow (UpgradeHyggeHeight mp) (Height ts)) then 100
  else if Method msg =? MethodSend mp then 300
  else
    match targetActor mp ts (To msg) with
    | Some act =>
        if IsStorageMinerActor mp (Code act) then minerFactor (Method msg) else 100
    | None => 100
    end.

(** Multiplication by [hundredths / 100] in fixed point: the factor is
    scaled by 1024 and truncated, the product shifted right by 10. *)
Definition fixedPointMul (gas hundredths : Z) : Z :=
  (gas * (hundredths * 1024 / 100)) / 2 ^ 10.

(** The refund of a payment-channel collect. *)
Definition refund {Cache} (mp : MessagePool Cache) (msg : Message) (ts : TipSet) : Z :=
  match targetActor mp ts (To msg) with
  | Some act =>
      if IsPaymentChannelActor mp (Code act)
         && (Method msg =? MethodsPaych_Collect mp) then 76000 else 0
  | None => 0
  end.

(** The evaluator answered with the fork boundary at every tipset of
    [seen], each parent could be loaded, and the walk stands at [last]. *)
Inductive steppedBack {Cache} (mp : MessagePool Cache) (msg : Message)
  (prior : list Message) : TipSet -> list TipSet -> TipSet -> Prop :=
| sb_here : forall ts, steppedBack mp msg prior ts [] ts
| sb_back : forall ts ts' seen last,
    CallWithGas mp msg prior ts = inr ErrExpensiveFork ->
    ChainTipSet mp (Parents ts) = inl ts' ->
    steppedBack mp msg prior ts' seen last ->
    steppedBack mp msg prior ts (ts :: seen) last.

(** The evaluator invoked once at each of [tips], in order. *)
Definition invoked (msg : Message) (prior : list Message) (tips : list TipSet)
  : list Call :=
  map (fun ts => {| call_msg := msg; call_prior := prior; call_ts := ts |}) tips.

(** The fields of the message the evaluator is given, against the input:
    all the same but the gas limit, which is the block gas limit, and the
    fee cap and premium, which are zero. *)
Definition probes {Cache} (mp : MessagePool Cache) (msgIn : Message) (c : Call) : Prop :=
  let m := call_msg c in
  To m = To msgIn /\ From_ m = From_ msgIn /\ Nonce m = Nonce msgIn
  /\ Value m = Value msgIn /\ Method m = Method msgIn /\ Params m = Params msgIn
  /\ GasLimit m = BlockGasLimit mp
  /\ GasFeeCap m = Some 0 /\ GasPremium m = Some 0.

(** [uint64(increaseFactor * (1<<8))] for a delay of [d] blocks, when the
    language defines the conversion. *)
Definition scaledIncrease (denom d : Z) : option Z :=
  let f := (Math.Pow (1 + 1 / F64.of_Z denom) (F64.of_Z d) * 256)%float in
  if F64.fits_uint64 f then F64.trunc f else None.

(** The largest delay whose scaled factor fits 64 bits. *)
Definition maxDelay : Z := 329.

(** The scaled factors of delays [n] and [n + 1] are defined and do not
    decrease. *)
Definition increaseStep (n : nat) : bool :=
  match scaledIncrease 8 (Z.of_nat n), scaledIncrease 8 (Z.of_nat (S n)) with
  | Some a, Some b => (0 <=? a) && (a <=? b)
  | _, _ => false
  end.

(** *** Reasoning about runs *)

(** [Q] holds of the outcome and the world [m] leaves when run from [w]. *)
Definition post {Cache A} (m : M Cache A) (w : World Cache)
  (Q : outcome A -> World Cache -> Prop) : Prop :=
  Q (fst (m w)) (snd (m w)).

(** A pool in which estimation neither spins nor panics: the model has
    fuel, the evaluator never reports the fork boundary, and the head has a
    block. *)
Definition calm {Cache} (mp : MessagePool Cache) (fuel : nat) : Prop :=
  fuel <> 0%nat
  /\ (forall m pr ts, CallWithGas mp m pr ts <> inr ErrExpensiveFork)
  /\ (forall ts, ChainHead mp = inl ts -> Blocks ts <> []).

(** A batch entry with its message and its spec. *)
Definition wellFormed (em : option EstimateMessage) : Prop :=
  match em with
  | Some {| Msg := Some _; Spec := Some _ |} => True
  | _ => False
  end.

(** The heap away from [p] is [h0], and the message at [p] carries nonce [k]. *)
Definition slotInv {Cache} (h0 : ptr -> Message) (p : ptr) (k : Z) (w : World Cache)
  : Prop :=
  (forall q, q <> p -> heap w q = h0 q) /\ Nonce (heap w p) = k.

(** What a block of the loop body guarantees: at its end the message still
    carries the nonce [n]; at a failure exit, which has a text, it carries
    0; a block returns no error, and it panics or spins only if [C] fails. *)
Definition slotPost {Cache} (C : Prop) (h0 : ptr -> Message) (p : ptr) (n : Z)
  (o : outcome (option string)) (w : World Cache) : Prop :=
  match o with
  | Ret None => slotInv h0 p n w
  | Ret (Some text) => slotInv h0 p 0 w /\ text <> ""%string
  | Fail _ => False
  | Panic _ | Spinning => ~ C
  end.

(** What the batch loop guarantees when run from [w] with the results
    [acc] so far. *)
Definition batchPost {Cache} (C : Prop) (ems : list (option EstimateMessage))
  (n : Z) (acc : list EstimateResult) (w : World Cache)
  (o : outcome (list EstimateResult)) (w' : World Cache) : Prop :=
  match o with
  | Ret rs =>
      exists new,
        rs = acc ++ new
        /\ List.length new = List.length ems
        /\ map ResMsg new = pointers ems
        /\ (forall q, ~ In q (pointers ems) -> heap w' q = heap w q)
        /\ resultNonces w' new = noncesBySuccess n new
  | Fail _ => False
  | Panic _ | Spinning => ~ C
  end.

(** *** Notions of the further properties *)

(** A cache that still holds what a hit just returned, and holds what was
    just added. *)
Definition retainsEntries {Cache} (mp : MessagePool Cache) : Prop :=
  (forall k v c c', cacheGet mp k c = (Some v, c') -> fst (cacheGet mp k c') = Some v)
  /\ (forall k v c, fst (cacheGet mp k (cacheAdd mp k v c)) = Some v).

(** The fields estimation never writes. *)
Definition sameButGas (m m' : Message) : Prop :=
  To m' = To m /\ From_ m' = From_ m /\ Nonce m' = Nonce m /\ Value m' = Value m
  /\ Method m' = Method m /\ Params m' = Params m.




(** A step that leaves the log of evaluator calls alone. *)
Definition silent {Cache A} (m : M Cache A) : Prop :=
  forall w, calls (snd (m w)) = calls w.

(** The walk of [walkBack] from a tipset above [to]: it ends at the first
    tipset whose parent is at [to], with that parent, or below [to], with
    the tipset itself. *)
Inductive descends (ci : ChainIndex.Index) (to : Z) : TipSet -> TipSet -> Prop :=
| d_above : forall ts p,
    ChainIndex.loadTipSet ci (Parents ts) = inl p -> Height p < to ->
    descends ci to ts ts
| d_hit : forall ts p,
    ChainIndex.loadTipSet ci (Parents ts) = inl p -> Height p = to ->
    descends ci to ts p
| d_next : forall ts p r,
    ChainIndex.loadTipSet ci (Parents ts) = inl p -> to < Height p ->
    descends ci to p r ->
    descends ci to ts r.

(** What [walkBack] answers, without the fuel. *)
Definition walks (ci : ChainIndex.Index) (from : TipSet) (to : Z) (r : TipSet) : Prop :=
  (to = Height from /\ r = from) \/ (to < Height from /\ descends ci to from r).

(** The store is consistent: a tipset is stored under its own key, and
    above its parent. *)
Definition consistent (ci : ChainIndex.Index) : Prop :=
  forall k ts,
    ChainIndex.loadTipSet ci k = inl ts ->
    Key ts = k
    /\ forall p, ChainIndex.loadTipSet ci (Parents ts) = inl p -> Height p < Height ts.

(** An entry for key [k] is a jump the walk would make: from the tipset of
    [k] the walk to the entry's height ends at the entry's target. *)
Definition validEntry (ci : ChainIndex.Index) (k : TipSetKey) (e : ChainIndex.lbEntry)
  : Prop :=
  exists ts t,
    ChainIndex.loadTipSet ci k = inl ts
    /\ ChainIndex.loadTipSet ci (ChainIndex.target e) = inl t
    /\ Height t = ChainIndex.targetHeight e
    /\ walks ci ts (ChainIndex.targetHeight e) t.

(** Every cached entry is such a jump, and goes down. *)
Definition validCache (ci : ChainIndex.Index) (c : ChainIndex.IndexCache) : Prop :=
  forall k e,
    c k = Some e ->
    validEntry ci k e
    /\ forall ts, ChainIndex.loadTipSet ci k = inl ts ->
                  ChainIndex.targetHeight e < Height ts.

(** A tipset with a finite ancestry in the store, of falling heights, down
    to a tipset of height 0. *)
Inductive grounded (ci : ChainIndex.Index) : TipSet -> Prop :=
| g_genesis : forall ts, Height ts = 0 -> grounded ci ts
| g_child : forall ts p,
    ChainIndex.loadTipSet ci (Parents ts) = inl p ->
    0 <= Height p < Height ts ->
    grounded ci p ->
    grounded ci ts.

Definition rooted (ci : ChainIndex.Index) : Prop :=
  forall k ts, ChainIndex.loadTipSet ci k = inl ts -> grounded ci ts.

(** ** Machine arithmetic *)

Lemma Int64_wrap_id (z : Z) : Int64.in_range z -> Int64.wrap z = z.
Proof.
  unfold Int64.in_range, Int64.min_int, Int64.max_int, Int64.wrap. intros H.
  rewrite Z.mod_small; lia.
Qed.

Lemma Uint64_wrap_id (z : Z) : 0 <= z < 2 ^ 64 -> Uint64.wrap z = z.
Proof. intros H. unfold Uint64.wrap. apply Z.mod_small; exact H. Qed.

Lemma to_uint64_defined (p : Platform) (f : float) (z : Z) :
  F64.fits_uint64 f = true -> F64.trunc f = Some z -> F64.to_uint64 p f = z.
Proof.
  unfold F64.fits_uint64, F64.to_uint64. intros Hfit Htr.
  rewrite Htr in *. rewrite Hfit. reflexivity.
Qed.

(** ** The fee cap *)

Lemma increase_steps : forallb increaseStep (seq 0 329) = true.
Proof. vm_compute. reflexivity. Qed.

Lemma scaledIncrease_step (d : Z) :
  0 <= d < 329 ->
  exists a b, scaledIncrease 8 d = Some a /\ scaledIncrease 8 (d + 1) = Some b
              /\ 0 <= a <= b.
Proof.
  intros Hd.
  pose proof (proj1 (forallb_forall _ _) increase_steps (Z.to_nat d)) as H.
  assert (Hin : In (Z.to_nat d) (seq 0 329)) by (apply in_seq; lia).
  specialize (H Hin). unfold increaseStep in H.
  rewrite Nat2Z.inj_succ, Z2Nat.id in H by lia.
  change (Z.succ d) with (d + 1) in H.
  destruct (scaledIncrease 8 d) as [a|]; [|discriminate].
  destruct (scaledIncrease 8 (d + 1)) as [b|]; [|discriminate].
  exists a, b. apply andb_true_iff in H. destruct H as [H0 H1].
  apply Z.leb_le in H0. apply Z.leb_le in H1. auto.
Qed.

Lemma scaledIncrease_defined (d : Z) :
  0 <= d <= 329 -> exists a, scaledIncrease 8 d = Some a /\ 0 <= a.
Proof.
  intros Hd. destruct (Z.eq_dec d 329) as [->|Hne].
  - destruct (scaledIncrease_step 328) as (a & b & _ & Hb & Hab); [lia|].
    exists b. split; [exact Hb | lia].
  - destruct (scaledIncrease_step d) as (a & b & Ha & _ & Hab); [lia|].
    exists a. split; [exact Ha | lia].
Qed.

Lemma scaledIncrease_mono (n : nat) (d : Z) :
  0 <= d -> d + Z.of_nat n <= 329 ->
  exists a b, scaledIncrease 8 d = Some a
              /\ scaledIncrease 8 (d + Z.of_nat n) = Some b /\ 0 <= a <= b.
Proof.
  induction n as [|n IH]; intros H0 Hle.
  - destruct (scaledIncrease_defined d) as (a & Ha & Hpos); [lia|].
    exists a, a. rewrite Z.add_0_r. repeat split; auto; lia.
  - destruct IH as (a & b & Ha & Hb & Hab); [lia | lia |].
    destruct (scaledIncrease_step (d + Z.of_nat n)) as (b' & c & Hb' & Hc & Hbc); [lia|].
    rewrite Hb in Hb'. injection Hb' as <-.
    exists a, c. rewrite Nat2Z.inj_succ.
    replace (d + Z.succ (Z.of_nat n)) with (d + Z.of_nat n + 1) by lia.
    repeat split; auto; lia.
Qed.

Section FeeCap.

Context {Cache : Type} (mp : MessagePool Cache).

(** What [GasEstimateFeeCap] returns when the scaled factor is defined. *)
Lemma GasEstimateFeeCap_defined (msg : Message) (d : Z) (tsk : TipSetKey)
  (w : World Cache) (ts : TipSet) (b : BlockHeader) (bs : list BlockHeader) (a : Z) :
  ChainHead mp = inl ts -> Blocks ts = b :: bs ->
  scaledIncrease (BaseFeeMaxChangeDenom mp) d = Some a ->
  GasEstimateFeeCap mp msg d tsk w
  = (Ret (ParentBaseFee b * a / 256
          + match GasPremium msg with Some p => p | None => 0 end), w).
Proof.
  intros Hhead Hblocks Ha.
  unfold GasEstimateFeeCap, bind, lift. rewrite Hhead. cbn [ret]. rewrite Hblocks.
  unfold scaledIncrease in Ha.
  destruct (F64.fits_uint64 _) eqn:Hfit in Ha; [|discriminate].
  rewrite (to_uint64_defined _ _ _ Hfit Ha).
  unfold ret. destruct (GasPremium msg); [reflexivity | rewrite Z.add_0_r; reflexivity].
Qed.

(** C7, as amended.  For a non-negative base fee and inclusion delays
    between 0 and [maxDelay] (329, the largest delay for which the scaled
    increase factor fits 64 bits, so that its conversion is defined), the
    projected fee cap does not decrease when the delay grows; this holds
    on every platform and for every message. *)
Theorem feecap_monotone_in_delay (msg : Message) (tsk : TipSetKey)
  (w : World Cache) (ts : TipSet) (b : BlockHeader) (bs : list BlockHeader)
  (d1 d2 : Z) :
  BaseFeeMaxChangeDenom mp = 8 ->
  ChainHead mp = inl ts -> Blocks ts = b :: bs ->
  0 <= ParentBaseFee b ->
  0 <= d1 <= d2 -> d2 <= maxDelay ->
  exists c1 c2,
    GasEstimateFeeCap mp msg d1 tsk w = (Ret c1, w)
    /\ GasEstimateFeeCap mp msg d2 tsk w = (Ret c2, w)
    /\ c1 <= c2.
Proof.
  intros Hden Hhead Hblocks Hfee Hd Hmax. unfold maxDelay in Hmax.
  destruct (scaledIncrease_mono (Z.to_nat (d2 - d1)) d1) as (a1 & a2 & H1 & H2 & Ha);
    [lia | rewrite Z2Nat.id; lia |].
  rewrite Z2Nat.id in H2 by lia. replace (d1 + (d2 - d1)) with d2 in H2 by lia.
  rewrite <- Hden in H1, H2.
  eexists. eexists.
  split; [apply (GasEstimateFeeCap_defined msg d1 tsk w ts b bs a1); assumption|].
  split; [apply (GasEstimateFeeCap_defined msg d2 tsk w ts b bs a2); assumption|].
  apply Z.add_le_mono_r. apply Z.div_le_mono; [lia|].
  apply Z.mul_le_mono_nonneg_l; lia.
Qed.

End FeeCap.

Lemma feecap_monotone_in_delay_witness :
  exists c1 c2,
    GasEstimateFeeCap (Sample.pool 1000) (Sample.message 70 0) 20 []
      (Sample.plain)
    = (Ret c1, Sample.plain)
    /\ GasEstimateFeeCap (Sample.pool 1000) (Sample.message 70 0) 21 []
         (Sample.plain)
       = (Ret c2, Sample.plain)
    /\ c1 <= c2.
Proof.
  apply (feecap_monotone_in_delay (Sample.pool 1000) (Sample.message 70 0) []
           (Sample.plain) Sample.tip2
           {| ParentBaseFee := 100 |} [ {| ParentBaseFee := 100 |} ] 20 21).
  - reflexivity.
  - reflexivity.
  - reflexivity.
  - simpl. lia.
  - lia.
  - unfold maxDelay. lia.
Defined.

(** C7 as stated fails past [maxDelay]: on amd64, with a base fee of 100,
    a delay of 330 blocks projects a lower fee cap than a delay of 329. *)
Lemma feecap_drops_past_maxDelay :
  let run d :=
    fst (GasEstimateFeeCap (Sample.pool 1000) (Sample.message 70 0) d []
           (Sample.plain)) in
  run 329 = Ret 6748074757198869600
  /\ run 330 = Ret 3602879701896396800
  /\ 3602879701896396800 < 6748074757198869600.
Proof. vm_compute. repeat split; reflexivity. Qed.

(** ** The retry loop *)

Section GasLimit.

Context {Cache : Type} (mp : MessagePool Cache).

Lemma set_calls_calls (w : World Cache) : set_calls (calls w) w = w.
Proof. destruct w; reflexivity. Qed.

Lemma set_calls_twice (l1 l2 : list Call) (w : World Cache) :
  set_calls l2 (set_calls l1 w) = set_calls l2 w.
Proof. reflexivity. Qed.

Lemma invoked_app (msg : Message) (prior : list Message) (a b : list TipSet) :
  invoked msg prior (a ++ b) = invoked msg prior a ++ invoked msg prior b.
Proof. apply map_app. Qed.

(** Across the tipsets that answered with the fork boundary the loop
    re-invokes the evaluator at each parent in turn. *)
Lemma loop_steps_back (msg : Message) (prior : list Message) (ts last : TipSet)
  (seen : list TipSet) :
  steppedBack mp msg prior ts seen last ->
  forall (fuel : nat) (w : World Cache),
    callUntilNoMigration mp (List.length seen + fuel) msg prior ts w
    = callUntilNoMigration mp fuel msg prior last
        (set_calls (calls w ++ invoked msg prior seen) w).
Proof.
  induction 1 as [ts | ts ts' seen last Hcall Hparent _ IH]; intros fuel w.
  - cbn [List.length invoked map Nat.add]. rewrite app_nil_r, set_calls_calls. reflexivity.
  - cbn [List.length Nat.add callUntilNoMigration]. rewrite Hcall, Hparent.
    rewrite IH. cbn [calls set_calls invoked map]. rewrite <- app_assoc. reflexivity.
Qed.

(** The last invocation decides how the loop is left. *)
Lemma loop_leaves (msg : Message) (prior : list Message) (ts last : TipSet)
  (seen : list TipSet) (fuel : nat) (w : World Cache) :
  steppedBack mp msg prior ts seen last ->
  (List.length seen < fuel)%nat ->
  let w' := set_calls (calls w ++ invoked msg prior (seen ++ [last])) w in
  match CallWithGas mp msg prior last with
  | inr ErrExpensiveFork =>
      forall err, ChainTipSet mp (Parents last) = inr err ->
                  callUntilNoMigration mp fuel msg prior ts w = (ParentFailed err, w')
  | res => callUntilNoMigration mp fuel msg prior ts w = (Broke res last, w')
  end.
Proof.
  intros Hback Hfuel w'.
  replace fuel with (List.length seen + S (fuel - List.length seen - 1))%nat by lia.
  rewrite (loop_steps_back _ _ _ _ _ Hback).
  cbn [callUntilNoMigration calls set_calls].
  assert (Hw : set_calls ((calls w ++ invoked msg prior seen)
                          ++ [ {| call_msg := msg; call_prior := prior; call_ts := last |} ])
                 (set_calls (calls w ++ invoked msg prior seen) w) = w').
  { unfold w'. rewrite invoked_app, app_assoc. reflexivity. }
  rewrite Hw.
  destruct (CallWithGas mp msg prior last) as [res | [ | text | prefix e]]; try reflexivity.
  intros err Herr. rewrite Herr. reflexivity.
Qed.

(** A successful simulated execution, reached after any number of steps
    back: the estimate is the corrected gas at the tipset reached. *)
Lemma evalMessageGasLimit_success (fuel : nat) (msgIn : Message)
  (prior : list Message) (ts last : TipSet) (seen : list TipSet)
  (w : World Cache) (res : InvocResult) :
  steppedBack mp (probeMessage mp msgIn) prior ts seen last ->
  (List.length seen < fuel)%nat ->
  CallWithGas mp (probeMessage mp msgIn) prior last = inl res ->
  ExitCode (MsgRct res) = exitcode_Ok ->
  evalMessageGasLimit mp fuel msgIn prior ts w
  = (Ret (correctedGas mp msgIn (probeMessage mp msgIn) last (GasUsed (MsgRct res))),
     set_calls (calls w ++ invoked (probeMessage mp msgIn) prior (seen ++ [last])) w).
Proof.
  intros Hback Hfuel Hcall Hexit.
  pose proof (loop_leaves _ _ _ _ _ fuel w Hback Hfuel) as Hloop.
  cbv zeta in Hloop. rewrite Hcall in Hloop.
  unfold evalMessageGasLimit. rewrite Hloop, Hexit. reflexivity.
Qed.

(** C4.  Let the evaluator have answered with the fork boundary at the
    tipsets [seen], each time followed by a successful load of the parent,
    and let [last] be the tipset then reached (fuel permitting).  The
    evaluator has been invoked once at each of these tipsets and at
    [last], in this order, and nowhere else; what it answers at [last]
    ends the call: any other error is returned as an error without a
    further invocation, a boundary error whose parent cannot be loaded is
    returned as that load error, and a receipt ends the loop (an exit code
    other than Ok being an error too). *)
Theorem fork_boundary_is_the_only_retry (fuel : nat) (msgIn : Message)
  (prior : list Message) (ts last : TipSet) (seen : list TipSet) (w : World Cache) :
  steppedBack mp (probeMessage mp msgIn) prior ts seen last ->
  (List.length seen < fuel)%nat ->
  let probe := probeMessage mp msgIn in
  let w' := set_calls (calls w ++ invoked probe prior (seen ++ [last])) w in
  let run := evalMessageGasLimit mp fuel msgIn prior ts w in
  (forall e, CallWithGas mp probe prior last = inr e -> e <> ErrExpensiveFork ->
             run = (Fail (ErrWrap "CallWithGas failed" e), w'))
  /\ (forall e, CallWithGas mp probe prior last = inr ErrExpensiveFork ->
                ChainTipSet mp (Parents last) = inr e ->
                run = (Fail (ErrWrap "getting parent tipset" e), w'))
  /\ (forall res, CallWithGas mp probe prior last = inl res ->
                  ExitCode (MsgRct res) = exitcode_Ok ->
                  run = (Ret (correctedGas mp msgIn probe last (GasUsed (MsgRct res))), w'))
  /\ (forall res, CallWithGas mp probe prior last = inl res ->
                  ExitCode (MsgRct res) <> exitcode_Ok ->
                  exists e, run = (Fail e, w')).
Proof.
  intros Hback Hfuel probe w' run.
  pose proof (loop_leaves _ _ _ _ _ fuel w Hback Hfuel) as Hloop.
  cbv zeta in Hloop. fold probe in Hloop. fold w' in Hloop.
  unfold run, evalMessageGasLimit. fold probe.
  repeat split.
  - intros e He Hne. rewrite He in Hloop.
    destruct e as [ | text | prefix e]; [congruence | |]; rewrite Hloop; reflexivity.
  - intros e He Hparent. rewrite He in Hloop. rewrite (Hloop e Hparent). reflexivity.
  - intros res Hres Hexit. rewrite Hres in Hloop. rewrite Hloop, Hexit. reflexivity.
  - intros res Hres Hexit. rewrite Hres in Hloop. rewrite Hloop.
    apply Z.eqb_neq in Hexit. rewrite Hexit. eexists. reflexivity.
Qed.

(** The same protocol in [GasEstimateCallWithGas], whose loop is the same
    statements. *)
Lemma GasEstimateCallWithGas_retry (fuel : nat) (msgIn : Message)
  (currTS ts last : TipSet) (seen : list TipSet) (fromA : Address)
  (pending : list Message) (w : World Cache) :
  ResolveToDeterministicAddress mp (From_ msgIn) currTS = inl fromA ->
  PendingFor mp fromA = (pending, ts) ->
  let prior := priorTo (Nonce msgIn) pending in
  steppedBack mp msgIn prior ts seen last ->
  (List.length seen < fuel)%nat ->
  let w' := set_calls (calls w ++ invoked msgIn prior (seen ++ [last])) w in
  let run := GasEstimateCallWithGas mp fuel msgIn currTS w in
  (forall e, CallWithGas mp msgIn prior last = inr e -> e <> ErrExpensiveFork ->
             run = (Fail (ErrWrap "CallWithGas failed" e), w'))
  /\ (forall e, CallWithGas mp msgIn prior last = inr ErrExpensiveFork ->
                ChainTipSet mp (Parents last) = inr e ->
                run = (Fail (ErrWrap "getting parent tipset" e), w'))
  /\ (forall res, CallWithGas mp msgIn prior last = inl res ->
                  run = (Ret (res, prior, last), w')).
Proof.
  intros Hres Hpend prior Hback Hfuel w' run.
  pose proof (loop_leaves _ _ _ _ _ fuel w Hback Hfuel) as Hloop.
  cbv zeta in Hloop. fold w' in Hloop.
  unfold run, GasEstimateCallWithGas, bind, wrapping, lift. rewrite Hres.
  cbn [ret]. rewrite Hpend. fold prior.
  repeat split.
  - intros e He Hne. rewrite He in Hloop.
    destruct e as [ | text | prefix e]; [congruence | |]; rewrite Hloop; reflexivity.
  - intros e He Hparent. rewrite He in Hloop. rewrite (Hloop e Hparent). reflexivity.
  - intros res Hr. rewrite Hr in Hloop. rewrite Hloop. reflexivity.
Qed.

End GasLimit.

(** ** The probe message *)

Section Probe.

Context {Cache : Type} (mp : MessagePool Cache).

Lemma loop_invokes (fuel : nat) (msg : Message) (prior : list Message) :
  forall (ts : TipSet) (w : World Cache),
  exists tips,
    calls (snd (callUntilNoMigration mp fuel msg prior ts w))
    = calls w ++ invoked msg prior tips
    /\ (forall res last, fst (callUntilNoMigration mp fuel msg prior ts w) = Broke res last ->
                         tips <> []).
Proof.
  induction fuel as [|fuel IH]; intros ts w.
  - exists []. cbn. rewrite app_nil_r. split; [reflexivity | discriminate].
  - cbn [callUntilNoMigration].
    set (w1 := set_calls _ w).
    assert (Hone : forall r : LoopExit,
               exists tips, calls (snd (r, w1)) = calls w ++ invoked msg prior tips
                            /\ (forall res last, fst (r, w1) = Broke res last -> tips <> [])).
    { intros r. exists [ts]. split; [reflexivity | discriminate]. }
    destruct (CallWithGas mp msg prior ts) as [res | [ | text | prefix e]]; try apply Hone.
    destruct (ChainTipSet mp (Parents ts)) as [ts' | err]; [|apply Hone].
    destruct (IH ts' w1) as (tips & Hcalls & Hne).
    exists (ts :: tips). split.
    + rewrite Hcalls. unfold w1. cbn [calls set_calls invoked map].
      rewrite <- app_assoc. reflexivity.
    + discriminate.
Qed.

Lemma evalMessageGasLimit_invokes (fuel : nat) (msgIn : Message)
  (prior : list Message) (ts : TipSet) (w : World Cache) :
  exists tips,
    calls (snd (evalMessageGasLimit mp fuel msgIn prior ts w))
    = calls w ++ invoked (probeMessage mp msgIn) prior tips
    /\ (forall g, fst (evalMessageGasLimit mp fuel msgIn prior ts w) = Ret g -> tips <> []).
Proof.
  destruct (loop_invokes fuel (probeMessage mp msgIn) prior ts w) as (tips & Hcalls & Hne).
  exists tips. unfold evalMessageGasLimit.
  destruct (callUntilNoMigration mp fuel (probeMessage mp msgIn) prior ts w)
    as [[[res | err] last | err | ] w'] eqn:Hloop; cbn [fst snd] in *.
  - destruct (negb _); cbn [fst snd]; split; auto; try discriminate.
    intros g _. exact (Hne _ _ eq_refl).
  - split; [assumption | discriminate].
  - split; [assumption | discriminate].
  - split; [assumption | discriminate].
Qed.

Lemma invoked_probes (msgIn : Message) (prior : list Message) (tips : list TipSet) :
  Forall (probes mp msgIn) (invoked (probeMessage mp msgIn) prior tips).
Proof.
  induction tips as [|ts tips IH]; constructor; [|exact IH].
  unfold probes. cbn. repeat split; reflexivity.
Qed.

(** [GasEstimateGasLimit] either fails before it reaches the evaluator or
    is [evalMessageGasLimit] on the input message. *)
Lemma GasEstimateGasLimit_runs (fuel : nat) (msgIn : Message) (tsk : TipSetKey)
  (w : World Cache) :
  (exists e, GasEstimateGasLimit mp fuel msgIn tsk w = (Fail e, w))
  \/ (exists prior ts,
        GasEstimateGasLimit mp fuel msgIn tsk w
        = evalMessageGasLimit mp fuel msgIn prior ts w).
Proof.
  unfold GasEstimateGasLimit, bind, wrapping, lift.
  destruct (IsEmpty tsk).
  - destruct (ChainHead mp) as [head | err]; cbn [ret fail]; [|left; eexists; reflexivity].
    destruct (ChainTipSet mp (Key head)) as [currTS | err]; cbn [ret fail];
      [|left; eexists; reflexivity].
    destruct (ResolveToDeterministicAddress mp (From_ msgIn) currTS) as [fromA | err];
      cbn [ret fail]; [|left; eexists; reflexivity].
    destruct (PendingFor mp fromA) as [pending ts].
    right. eexists. eexists. reflexivity.
  - cbn [ret fail].
    destruct (ChainTipSet mp tsk) as [currTS | err]; cbn [ret fail];
      [|left; eexists; reflexivity].
    destruct (ResolveToDeterministicAddress mp (From_ msgIn) currTS) as [fromA | err];
      cbn [ret fail]; [|left; eexists; reflexivity].
    destruct (PendingFor mp fromA) as [pending ts].
    right. eexists. eexists. reflexivity.
Qed.

(** C2, as amended.  Every message [GasEstimateGasLimit] passes to the
    evaluator has the fields of the input except [gasLimit], which is the
    block gas limit, and [gasFeeCap] and [gasPremium], which are both 0;
    and an estimate is only returned after at least one such invocation. *)
Theorem probe_passed_to_evaluator (fuel : nat) (msgIn : Message)
  (tsk : TipSetKey) (w : World Cache) :
  exists new,
    calls (snd (GasEstimateGasLimit mp fuel msgIn tsk w)) = calls w ++ new
    /\ Forall (probes mp msgIn) new
    /\ (forall g, fst (GasEstimateGasLimit mp fuel msgIn tsk w) = Ret g -> new <> []).
Proof.
  destruct (GasEstimateGasLimit_runs fuel msgIn tsk w) as [[e He] | (prior & ts & He)];
    rewrite He.
  - exists []. cbn. rewrite app_nil_r. repeat split; [constructor | discriminate].
  - destruct (evalMessageGasLimit_invokes fuel msgIn prior ts w) as (tips & Hcalls & Hne).
    exists (invoked (probeMessage mp msgIn) prior tips).
    repeat split; [exact Hcalls | apply invoked_probes |].
    intros g Hg Hnil. apply (Hne g Hg).
    destruct tips; [reflexivity | discriminate].
Qed.

End Probe.

(** C2 as stated fails: the message the evaluator receives has a zero fee
    cap and a zero premium, not [MinimumBaseFee + 1] and 1. *)
Lemma probe_fees_are_zero :
  let pool := Sample.pool 1000 in
  let w := snd (GasEstimateGasLimit pool 5 (Sample.message 70 5) []
                  (Sample.world (Sample.cells (fun _ => 70) 5))) in
  map (fun c => (GasLimit (call_msg c), GasFeeCap (call_msg c), GasPremium (call_msg c)))
      (calls w)
  = [ (BlockGasLimit pool, Some 0, Some 0) ]
  /\ (Some 0, Some 0) <> (Some (MinimumBaseFee pool + 1), Some 1).
Proof. split; [vm_compute; reflexivity | discriminate]. Qed.

(** ** Corrections to the gas used *)

(** Five binary digits decide every case of the method table. *)
Ltac split_method method :=
  let q := fresh "q" in
  destruct method as [|q|q];
  [ | do 5 (try destruct q as [q|q|]) | ].

Lemma minerMulti_scaled (p : Platform) (method : Z) :
  F64.to_int64 p (minerMulti method * 1024)%float = minerFactor method * 1024 / 100.
Proof. split_method method; vm_compute; reflexivity. Qed.

Lemma minerFactor_bounds (method : Z) : 100 <= minerFactor method <= 300.
Proof. split_method method; cbn; lia. Qed.

Lemma Int64_wrap_range (z : Z) : Int64.in_range (Int64.wrap z).
Proof.
  unfold Int64.in_range, Int64.wrap, Int64.min_int, Int64.max_int.
  pose proof (Z.mod_pos_bound (z + 2 ^ 63) (2 ^ 64) ltac:(lia)). lia.
Qed.

Lemma upgrade_window (upgrade height : Z) :
  Int64.in_range upgrade -> 0 <= height ->
  (height <=? upgrade) && (Int64.sub upgrade height <=? 20)
  = inUpgradeWindow upgrade height.
Proof.
  intros Hup Hh. unfold inUpgradeWindow, Int64.sub.
  destruct (height <=? upgrade) eqn:Hle; [|reflexivity].
  apply Z.leb_le in Hle. rewrite Int64_wrap_id; [reflexivity|].
  unfold Int64.in_range, Int64.min_int, Int64.max_int in *. lia.
Qed.

Section Corrections.

Context {Cache : Type} (mp : MessagePool Cache).

Lemma correctionFactor_bounds (msg : Message) (ts : TipSet) :
  100 <= correctionFactor mp msg ts <= 300.
Proof.
  unfold correctionFactor.
  destruct (negb _); [lia|].
  destruct (Method msg =? MethodSend mp); [lia|].
  destruct (targetActor mp ts (To msg)) as [act|]; [|lia].
  destruct (IsStorageMinerActor mp (Code act)); [apply minerFactor_bounds | lia].
Qed.

Lemma transitionalMulti_scaled (msgIn : Message) (ts : TipSet) :
  Int64.in_range (UpgradeHyggeHeight mp) -> 0 <= Height ts ->
  F64.to_int64 (platform mp)
    (transitionalMulti mp msgIn (probeMessage mp msgIn) ts * 1024)%float
  = correctionFactor mp msgIn ts * 1024 / 100.
Proof.
  intros Hup Hh. unfold transitionalMulti, correctionFactor.
  rewrite (upgrade_window _ _ Hup Hh).
  destruct (inUpgradeWindow (UpgradeHyggeHeight mp) (Height ts)); cbn [negb];
    [|vm_compute; reflexivity].
  unfold overestimate, targetActor. cbn [To probeMessage with_GasPremium with_GasFeeCap with_GasLimit].
  destruct (Method msgIn =? MethodSend mp); [vm_compute; reflexivity|].
  destruct (ParentState mp ts) as [st | err]; [|vm_compute; reflexivity].
  destruct (st (To msgIn)) as [[act|] | err];
    [ | vm_compute; reflexivity | vm_compute; reflexivity ].
  destruct (IsStorageMinerActor mp (Code act)); [|vm_compute; reflexivity].
  apply minerMulti_scaled.
Qed.

Lemma scaledGas_fixedPoint (msgIn : Message) (ts : TipSet) (g : Z) :
  Int64.in_range (UpgradeHyggeHeight mp) -> 0 <= Height ts ->
  0 <= g < 2 ^ 51 ->
  scaledGas mp msgIn (probeMessage mp msgIn) ts g
  = fixedPointMul g (correctionFactor mp msgIn ts).
Proof.
  intros Hup Hh Hg. unfold scaledGas, fixedPointMul.
  rewrite (transitionalMulti_scaled _ _ Hup Hh).
  pose proof (correctionFactor_bounds msgIn ts) as Hf.
  set (k := correctionFactor mp msgIn ts * 1024 / 100).
  assert (Hk : 1024 <= k <= 3072).
  { unfold k. split.
    - change 1024 with (100 * 1024 / 100) at 1. apply Z.div_le_mono; lia.
    - change 3072 with (300 * 1024 / 100). apply Z.div_le_mono; lia. }
  unfold Int64.shr, Int64.mul. rewrite Int64_wrap_id.
  - rewrite Z.shiftr_div_pow2 by lia. reflexivity.
  - unfold Int64.in_range, Int64.min_int, Int64.max_int. nia.
Qed.

Lemma scaledGas_range (msgIn msg : Message) (ts : TipSet) (g : Z) :
  - 2 ^ 53 <= scaledGas mp msgIn msg ts g < 2 ^ 53.
Proof.
  unfold scaledGas, Int64.shr, Int64.mul.
  set (x := Int64.wrap _). pose proof (Int64_wrap_range (g * F64.to_int64 (platform mp)
    (transitionalMulti mp msgIn msg ts * 1024)%float)) as Hx. fold x in Hx.
  unfold Int64.in_range, Int64.min_int, Int64.max_int in Hx.
  rewrite Z.shiftr_div_pow2 by lia. split.
  - apply Z.div_le_lower_bound; lia.
  - apply Z.div_lt_upper_bound; lia.
Qed.

Lemma collectRefund_refund (msgIn : Message) (ts : TipSet) :
  collectRefund mp msgIn (probeMessage mp msgIn) ts = refund mp msgIn ts.
Proof.
  unfold collectRefund, refund, targetActor.
  cbn [To probeMessage with_GasPremium with_GasFeeCap with_GasLimit].
  destruct (ParentState mp ts) as [st | err]; [|reflexivity].
  destruct (st (To msgIn)) as [[act|] | err]; reflexivity.
Qed.

Lemma refund_values (msg : Message) (ts : TipSet) :
  refund mp msg ts = 0 \/ refund mp msg ts = 76000.
Proof.
  unfold refund. destruct (targetActor mp ts (To msg)) as [act|]; [|auto].
  destruct (_ && _); auto.
Qed.

(** C8.  After a successful simulated execution (reached at the tipset
    [last] of the retry protocol) the gas used is multiplied, in fixed point
    at scale 1024 with a right shift by 10, by the correction factor: 3 for
    a MethodSend message, the table's factor for the method when the message
    is addressed to a storage miner actor (1.92, 1.72, 1.06, 1.2, 1.19,
    1.73, 1.73, 1.15, 1.18 for methods 3, 4, 6, 7, 16, 18, 23, 26, 27), and 1
    in every other case, all within 20 heights at or before the upgrade;
    1 outside that window.  Factor 3 is exactly thrice and factor 1 leaves
    the gas unchanged.  (The estimate is this plus the collect refund.) *)
Theorem upgrade_window_correction (fuel : nat) (msgIn : Message)
  (prior : list Message) (ts last : TipSet) (seen : list TipSet)
  (w : World Cache) (res : InvocResult) :
  steppedBack mp (probeMessage mp msgIn) prior ts seen last ->
  (List.length seen < fuel)%nat ->
  CallWithGas mp (probeMessage mp msgIn) prior last = inl res ->
  ExitCode (MsgRct res) = exitcode_Ok ->
  Int64.in_range (UpgradeHyggeHeight mp) -> 0 <= Height last ->
  0 <= GasUsed (MsgRct res) < 2 ^ 51 ->
  fst (evalMessageGasLimit mp fuel msgIn prior ts w)
  = Ret (fixedPointMul (GasUsed (MsgRct res)) (correctionFactor mp msgIn last)
         + refund mp msgIn last)
  /\ fixedPointMul (GasUsed (MsgRct res)) 300 = 3 * GasUsed (MsgRct res)
  /\ fixedPointMul (GasUsed (MsgRct res)) 100 = GasUsed (MsgRct res).
Proof.
  intros Hback Hfuel Hcall Hexit Hup Hh Hg.
  rewrite (evalMessageGasLimit_success mp fuel msgIn prior ts last seen w res
             Hback Hfuel Hcall Hexit).
  cbn [fst]. unfold correctedGas.
  rewrite (scaledGas_fixedPoint _ _ _ Hup Hh Hg), collectRefund_refund.
  repeat split.
  - f_equal. unfold Int64.add. apply Int64_wrap_id.
    pose proof (scaledGas_range msgIn (probeMessage mp msgIn) last (GasUsed (MsgRct res))) as Hr.
    rewrite (scaledGas_fixedPoint _ _ _ Hup Hh Hg) in Hr.
    unfold Int64.in_range, Int64.min_int, Int64.max_int.
    destruct (refund_values msgIn last) as [-> | ->]; lia.
  - unfold fixedPointMul. change (300 * 1024 / 100) with (3 * 2 ^ 10).
    rewrite Z.mul_assoc. rewrite Z.div_mul by lia. lia.
  - unfold fixedPointMul. change (100 * 1024 / 100) with (2 ^ 10).
    apply Z.div_mul. lia.
Qed.

(** C9.  After a successful simulated execution, exactly 76,000 is added
    to the gas otherwise computed when the message is addressed to a
    payment channel actor and its method is Collect, and nothing is added
    for any other actor or method; an error of the state lookup, an error
    of the actor lookup and an actor that is not found add nothing either,
    and none of them fails the estimation. *)
Theorem collect_refund_is_best_effort (fuel : nat) (msgIn : Message)
  (prior : list Message) (ts last : TipSet) (seen : list TipSet)
  (w : World Cache) (res : InvocResult) :
  steppedBack mp (probeMessage mp msgIn) prior ts seen last ->
  (List.length seen < fuel)%nat ->
  CallWithGas mp (probeMessage mp msgIn) prior last = inl res ->
  ExitCode (MsgRct res) = exitcode_Ok ->
  let base := scaledGas mp msgIn (probeMessage mp msgIn) last (GasUsed (MsgRct res)) in
  let run := fst (evalMessageGasLimit mp fuel msgIn prior ts w) in
  (forall st act,
      ParentState mp last = inl st -> st (To msgIn) = inl (Some act) ->
      (IsPaymentChannelActor mp (Code act) = true
       /\ Method msgIn = MethodsPaych_Collect mp -> run = Ret (base + 76000))
      /\ (IsPaymentChannelActor mp (Code act) = false
          \/ Method msgIn <> MethodsPaych_Collect mp -> run = Ret base))
  /\ (forall e, ParentState mp last = inr e -> run = Ret base)
  /\ (forall st e, ParentState mp last = inl st -> st (To msgIn) = inr e ->
                   run = Ret base)
  /\ (forall st, ParentState mp last = inl st -> st (To msgIn) = inl None ->
                 run = Ret base).
Proof.
  intros Hback Hfuel Hcall Hexit base run.
  assert (Hrun : run = Ret (Int64.add base (refund mp msgIn last))).
  { unfold run.
    rewrite (evalMessageGasLimit_success mp fuel msgIn prior ts last seen w res
               Hback Hfuel Hcall Hexit).
    cbn [fst]. unfold correctedGas. rewrite collectRefund_refund. reflexivity. }
  pose proof (scaledGas_range msgIn (probeMessage mp msgIn) last (GasUsed (MsgRct res))) as Hr.
  fold base in Hr.
  assert (H0 : Int64.add base 0 = base).
  { unfold Int64.add. rewrite Z.add_0_r. apply Int64_wrap_id.
    unfold Int64.in_range, Int64.min_int, Int64.max_int. lia. }
  assert (H76 : Int64.add base 76000 = base + 76000).
  { unfold Int64.add. apply Int64_wrap_id.
    unfold Int64.in_range, Int64.min_int, Int64.max_int. lia. }
  rewrite Hrun. unfold refund, targetActor.
  split; [|split; [|split]].
  - intros st act Hst Hact. rewrite Hst, Hact. split.
    + intros [Hp Hm]. rewrite Hp. apply Z.eqb_eq in Hm. rewrite Hm.
      cbn [andb]. rewrite H76. reflexivity.
    + intros [Hp | Hm].
      * rewrite Hp. cbn [andb]. rewrite H0. reflexivity.
      * apply Z.eqb_neq in Hm. rewrite Hm, andb_false_r, H0. reflexivity.
  - intros e He. rewrite He, H0. reflexivity.
  - intros st e Hst He. rewrite Hst, He, H0. reflexivity.
  - intros st Hst Hnone. rewrite Hst, Hnone, H0. reflexivity.
Qed.

End Corrections.

(** ** Rules for runs *)

Section Runs.

Context {Cache : Type}.

Lemma post_ret {A} (a : A) (w : World Cache) (Q : outcome A -> World Cache -> Prop) :
  Q (Ret a) w -> post (ret a) w Q.
Proof. exact (fun H => H). Qed.

Lemma post_bind {A B} (m : M Cache A) (f : A -> M Cache B) (w : World Cache)
  (Q : outcome B -> World Cache -> Prop) :
  post m w (fun o w1 =>
              match o with
              | Ret a => post (f a) w1 Q
              | Fail e => Q (Fail e) w1
              | Panic s => Q (Panic s) w1
              | Spinning => Q Spinning w1
              end) ->
  post (bind m f) w Q.
Proof.
  unfold post, bind. destruct (m w) as [[a | e | s | ] w1]; cbn [fst snd]; auto.
Qed.

Lemma post_try {A} (m : M Cache A) (w : World Cache) (Q : outcome (result A) -> World Cache -> Prop) :
  post m w (fun o w1 =>
              match o with
              | Ret a => Q (Ret (inl a)) w1
              | Fail e => Q (Ret (inr e)) w1
              | Panic s => Q (Panic s) w1
              | Spinning => Q Spinning w1
              end) ->
  post (try m) w Q.
Proof.
  unfold post, try. destruct (m w) as [[a | e | s | ] w1]; cbn [fst snd]; auto.
Qed.

Lemma post_weaken {A} (m : M Cache A) (w : World Cache) (Q Q' : outcome A -> World Cache -> Prop) :
  post m w Q -> (forall o w1, Q o w1 -> Q' o w1) -> post m w Q'.
Proof. unfold post. auto. Qed.

Lemma post_load (p : ptr) (w : World Cache) (Q : outcome Message -> World Cache -> Prop) :
  Q (Ret (heap w p)) w -> post (load p) w Q.
Proof. exact (fun H => H). Qed.

Lemma post_store (p : ptr) (f : Message -> Message) (w : World Cache)
  (Q : outcome unit -> World Cache -> Prop) :
  Q (Ret tt) (set_heap (update p (f (heap w p)) (heap w)) w) -> post (store p f) w Q.
Proof. exact (fun H => H). Qed.

Lemma post_panic {A} (s : string) (w : World Cache) (Q : outcome A -> World Cache -> Prop) :
  Q (Panic s) w -> post (panic s) w Q.
Proof. exact (fun H => H). Qed.

Lemma post_wrapping_lift {A} (prefix : string) (r : result A) (w : World Cache)
  (Q : outcome A -> World Cache -> Prop) :
  match r with
  | inl a => Q (Ret a) w
  | inr e => Q (Fail (ErrWrap prefix e)) w
  end ->
  post (wrapping prefix (lift r)) w Q.
Proof. destruct r; exact (fun H => H). Qed.

Lemma post_wrapping {A} (prefix : string) (m : M Cache A) (w : World Cache)
  (Q : outcome A -> World Cache -> Prop) :
  post m w (fun o w1 =>
              match o with
              | Fail e => Q (Fail (ErrWrap prefix e)) w1
              | _ => Q o w1
              end) ->
  post (wrapping prefix m) w Q.
Proof.
  unfold post, wrapping. destruct (m w) as [[a | e | s | ] w1]; cbn [fst snd]; auto.
Qed.

End Runs.

(** ** The batch loop *)

Section Batch.

Context {Cache : Type} (mp : MessagePool Cache).

Lemma loop_heap (fuel : nat) (msg : Message) (prior : list Message) :
  forall ts w,
    heap (snd (callUntilNoMigration mp fuel msg prior ts w)) = heap w
    /\ (fst (callUntilNoMigration mp fuel msg prior ts w) = OutOfFuel ->
        fuel = 0%nat \/ exists m pr t, CallWithGas mp m pr t = inr ErrExpensiveFork).
Proof.
  induction fuel as [|fuel IH]; intros ts w.
  - cbn. auto.
  - cbn [callUntilNoMigration].
    destruct (CallWithGas mp msg prior ts) as [res | [ | text | prefix e]] eqn:Hcall;
      cbn [fst snd heap set_calls]; try (split; [reflexivity | discriminate]).
    destruct (ChainTipSet mp (Parents ts)) as [ts' | err];
      cbn [fst snd heap set_calls]; [|split; [reflexivity | discriminate]].
    destruct (IH ts' (set_calls (calls w ++ [ {| call_msg := msg; call_prior := prior;
                                                  call_ts := ts |} ]) w)) as [Hh Hs].
    split; [exact Hh|]. intros _. right. eauto.
Qed.

Lemma eval_post (fuel : nat) (msgIn : Message) (prior : list Message) (ts : TipSet) (w : World Cache) :
  post (evalMessageGasLimit mp fuel msgIn prior ts) w
    (fun o w1 => heap w1 = heap w
                 /\ match o with
                    | Ret _ | Fail _ => True
                    | Panic _ => False
                    | Spinning => ~ calm mp fuel
                    end).
Proof.
  unfold post, evalMessageGasLimit.
  destruct (loop_heap fuel (probeMessage mp msgIn) prior ts w) as [Hh Hs].
  destruct (callUntilNoMigration mp fuel (probeMessage mp msgIn) prior ts w)
    as [[[res | err] last | err | ] w1]; cbn [fst snd] in *.
  - destruct (negb _); cbn [fst snd]; auto.
  - auto.
  - auto.
  - split; [exact Hh|]. intros (Hfuel & Hfork & _).
    destruct (Hs eq_refl) as [H0 | (m & pr & t & Hc)]; [auto | exact (Hfork _ _ _ Hc)].
Qed.

Lemma GetTSGasStats_heap (ts : TipSet) (w : World Cache) :
  heap (snd (GetTSGasStats mp ts w)) = heap w
  /\ match fst (GetTSGasStats mp ts w) with Ret _ | Fail _ => True | _ => False end.
Proof.
  unfold GetTSGasStats. destruct (cacheGet mp (Key ts) (cache w)) as [[hit|] c];
    [cbn; auto|].
  destruct (MessagesForTipset mp ts); cbn; auto.
Qed.

Lemma gatherPrices_heap (n : nat) :
  forall ts prices blocks w,
    heap (snd (gatherPrices mp n ts prices blocks w)) = heap w
    /\ match fst (gatherPrices mp n ts prices blocks w) with
       | Ret _ | Fail _ => True | _ => False end.
Proof.
  induction n as [|n IH]; intros ts prices blocks w; [cbn; auto|].
  cbn [gatherPrices]. destruct (Height ts =? 0); [cbn; auto|].
  unfold bind, lift. destruct (LoadTipSet mp (Parents ts)) as [pts | err]; [|cbn; auto].
  cbn [ret]. destruct (GetTSGasStats_heap pts w) as [Hh Ho].
  destruct (GetTSGasStats mp pts w) as [[meta | e | s | ] w1]; cbn [fst snd] in *;
    try contradiction; [|auto].
  destruct (IH pts (prices ++ meta) (Int64.add blocks (Z.of_nat (List.length (Blocks pts)))) w1)
    as [Hh' Ho'].
  split; [congruence | exact Ho'].
Qed.

Lemma premium_post (n : Z) (sender : Address) (gaslimit : Z) (tsk : TipSetKey) (w : World Cache) :
  post (GasEstimateGasPremium mp n sender gaslimit tsk) w
    (fun o w1 => heap w1 = heap w
                 /\ match o with Ret _ | Fail _ => True | _ => False end).
Proof.
  unfold post, GasEstimateGasPremium, premiumBeforeNoise, bind, lift.
  destruct (ChainHead mp) as [ts | err]; [|cbn; auto]. cbn [ret].
  destruct (gatherPrices_heap (Z.to_nat (Uint64.mul (inclusionTarget n) 2)) ts [] 0 w)
    as [Hh Ho].
  destruct (gatherPrices mp _ ts [] 0 w) as [[pb | e | s | ] w1]; cbn [fst snd] in *;
    try contradiction; auto.
Qed.

Lemma feecap_post (fuel : nat) (msg : Message) (d : Z) (tsk : TipSetKey) (w : World Cache) :
  post (GasEstimateFeeCap mp msg d tsk) w
    (fun o w1 => w1 = w
                 /\ match o with
                    | Ret _ | Fail _ => True
                    | Panic _ => ~ calm mp fuel
                    | Spinning => False
                    end).
Proof.
  unfold post, GasEstimateFeeCap, bind, lift.
  destruct (ChainHead mp) as [ts | err] eqn:Hhead; [|cbn; auto]. cbn [ret].
  destruct (Blocks ts) eqn:Hb; cbn; [|auto].
  split; [reflexivity|]. intros (_ & _ & Hblocks). exact (Hblocks ts Hhead Hb).
Qed.

Lemma slotInv_store (h0 : ptr -> Message) (p : ptr) (k k' : Z) (m : Message) (w : World Cache) :
  slotInv h0 p k w -> Nonce m = k' ->
  slotInv h0 p k' (set_heap (update p m (heap w)) w).
Proof.
  intros [Hframe _] Hm. split; cbn [heap set_heap]; unfold update.
  - intros q Hq. apply Nat.eqb_neq in Hq. rewrite Hq. apply Hframe.
    apply Nat.eqb_neq. exact Hq.
  - rewrite Nat.eqb_refl. exact Hm.
Qed.

Lemma slotInv_heap (h0 : ptr -> Message) (p : ptr) (k : Z) (w w' : World Cache) :
  slotInv h0 p k w -> heap w' = heap w -> slotInv h0 p k w'.
Proof. unfold slotInv. intros H ->. exact H. Qed.

Lemma failSlot_post (C : Prop) (h0 : ptr -> Message) (p : ptr) (n : Z) (what : string)
  (err : error) (w : World Cache) :
  slotInv h0 p n w -> post (failSlot p what err) w (slotPost C h0 p n).
Proof.
  intros Hinv. unfold failSlot. apply post_bind, post_store. apply post_ret.
  cbn. split; [apply (slotInv_store h0 p n); [exact Hinv | reflexivity]|].
  destruct what; discriminate.
Qed.

Lemma orContinue_post (C : Prop) (h0 : ptr -> Message) (p : ptr) (n : Z)
  (block rest : M Cache (option string)) (w : World Cache) :
  post block w (slotPost C h0 p n) ->
  (forall w1, slotInv h0 p n w1 -> post rest w1 (slotPost C h0 p n)) ->
  post (orContinue block rest) w (slotPost C h0 p n).
Proof.
  intros Hb Hrest. unfold orContinue. apply post_bind.
  apply (post_weaken _ _ _ _ Hb). intros [[text|] | e | s | ] w1 H; cbn in *; auto.
Qed.

Lemma fillGasLimit_post (fuel : nat) (p : ptr) (spec : option SendSpec)
  (priorMsgs : list PriorMsg) (ts : TipSet) (h0 : ptr -> Message) (n : Z) (w : World Cache) :
  slotInv h0 p n w ->
  post (fillGasLimit mp fuel p spec priorMsgs ts) w
       (slotPost (calm mp fuel /\ spec <> None) h0 p n).
Proof.
  intros Hinv. unfold fillGasLimit. apply post_bind, post_load.
  destruct (GasLimit (heap w p) =? 0); [|apply post_ret; exact Hinv].
  apply post_bind. unfold derefPrior at 1. unfold post at 1. cbn [fst snd].
  apply post_bind, post_try.
  eapply post_weaken; [apply eval_post|].
  intros [gasUsed | e | s | ] w1 [Hh Ho]; cbn beta iota.
  - destruct spec as [sp|].
    + apply post_bind, post_store. apply post_ret. cbn.
      pose proof (slotInv_heap _ _ _ _ _ Hinv Hh) as H1.
      apply (slotInv_store h0 p n); [exact H1 | exact (proj2 H1)].
    + apply post_panic. cbn. intros [_ H]. exact (H eq_refl).
  - apply failSlot_post. exact (slotInv_heap _ _ _ _ _ Hinv Hh).
  - destruct Ho.
  - cbn. intros [Hc _]. exact (Ho Hc).
Qed.

Lemma fillGasPremium_post (C : Prop) (p : ptr) (spec : option SendSpec)
  (h0 : ptr -> Message) (n : Z) (w : World Cache) :
  slotInv h0 p n w ->
  post (fillGasPremium mp p spec) w (slotPost C h0 p n).
Proof.
  intros Hinv. unfold fillGasPremium. apply post_bind, post_load.
  destruct (unset (GasPremium (heap w p))); [|apply post_ret; exact Hinv].
  apply post_bind, post_try.
  eapply post_weaken; [apply premium_post|].
  intros [gasPremium | e | s | ] w1 [Hh Ho]; cbn beta iota; try destruct Ho.
  - apply post_bind, post_store. apply post_ret. cbn.
    pose proof (slotInv_heap _ _ _ _ _ Hinv Hh) as H1.
    apply (slotInv_store h0 p n); [exact H1 | exact (proj2 H1)].
  - apply failSlot_post. exact (slotInv_heap _ _ _ _ _ Hinv Hh).
Qed.

Lemma fillGasFeeCap_post (fuel : nat) (C : Prop) (p : ptr) (h0 : ptr -> Message)
  (n : Z) (w : World Cache) :
  slotInv h0 p n w ->
  post (fillGasFeeCap mp p) w (slotPost (calm mp fuel /\ C) h0 p n).
Proof.
  intros Hinv. unfold fillGasFeeCap. apply post_bind, post_load.
  destruct (unset (GasFeeCap (heap w p))); [|apply post_ret; exact Hinv].
  apply post_bind, post_try.
  eapply post_weaken; [apply (feecap_post fuel)|].
  intros [feeCap | e | s | ] w1 [-> Ho]; cbn beta iota.
  - apply post_bind, post_store. apply post_ret. cbn.
    apply (slotInv_store h0 p n); [exact Hinv | exact (proj2 Hinv)].
  - apply failSlot_post. exact Hinv.
  - cbn. intros [Hc _]. exact (Ho Hc).
  - destruct Ho.
Qed.

Lemma capGasFee_post (C : Prop) (p : ptr) (spec : option SendSpec)
  (h0 : ptr -> Message) (n : Z) (w : World Cache) :
  slotInv h0 p n w ->
  post (bind (capGasFee mp p spec) (fun _ => ret None)) w (slotPost C h0 p n).
Proof.
  intros Hinv. apply post_bind. unfold capGasFee. apply post_bind, post_load.
  destruct (CapGasFee mp (heap w p) spec) as [feeCap premium].
  apply post_store. apply post_ret. cbn.
  apply (slotInv_store h0 p n); [exact Hinv | exact (proj2 Hinv)].
Qed.

Lemma estimateSlot_post (fuel : nat) (p : ptr) (spec : option SendSpec)
  (priorMsgs : list PriorMsg) (ts : TipSet) (n : Z) (w : World Cache) :
  post (estimateSlot mp fuel p spec priorMsgs ts n) w
       (slotPost (calm mp fuel /\ spec <> None) (heap w) p n).
Proof.
  unfold estimateSlot. apply post_bind, post_store.
  assert (Hinv : slotInv (heap w) p n
                   (set_heap (update p (with_Nonce n (heap w p)) (heap w)) w)).
  { split; cbn [heap set_heap]; unfold update.
    - intros q Hq. apply Nat.eqb_neq in Hq. rewrite Hq. reflexivity.
    - rewrite Nat.eqb_refl. reflexivity. }
  revert Hinv. generalize (set_heap (update p (with_Nonce n (heap w p)) (heap w)) w).
  intros w0 Hinv.
  apply orContinue_post; [apply fillGasLimit_post; exact Hinv|].
  intros w1 H1. apply orContinue_post; [apply fillGasPremium_post; exact H1|].
  intros w2 H2. apply orContinue_post; [apply (fillGasFeeCap_post fuel); exact H2|].
  intros w3 H3. apply capGasFee_post. exact H3.
Qed.

Lemma batchPost_cons (C C' : Prop) (em : option EstimateMessage)
  (rest : list (option EstimateMessage)) (p : ptr) (r : EstimateResult)
  (n n' : Z) (acc : list EstimateResult) (w w1 : World Cache)
  (o : outcome (list EstimateResult)) (w' : World Cache) :
  pointers (em :: rest) = p :: pointers rest ->
  ~ In p (pointers rest) ->
  ResMsg r = p ->
  (forall q, q <> p -> heap w1 q = heap w q) ->
  noncesBySuccess n (r :: nil) = Nonce (heap w1 p) :: nil ->
  n' = (if succeeded r then Uint64.add n 1 else n) ->
  (C' -> C) ->
  batchPost C rest n' (acc ++ [r]) w1 o w' ->
  batchPost C' (em :: rest) n acc w o w'.
Proof.
  intros Hptr Hfresh Hres Hframe Hnonce Hn' HC H.
  destruct o as [rs | e | s | ]; cbn in *; auto.
  destruct H as (new & Hrs & Hlen & Hmap & Hheap & Hnonces).
  exists (r :: new). rewrite Hptr.
  split; [rewrite Hrs, <- app_assoc; reflexivity|].
  split; [cbn; rewrite Hlen; reflexivity|].
  split; [cbn; rewrite Hres, Hmap; reflexivity|].
  split.
  - intros q Hq. cbn in Hq.
    rewrite Hheap by tauto. apply Hframe. intros ->. tauto.
  - unfold resultNonces in *. cbn [map noncesBySuccess] in *.
    rewrite Hres, (Hheap p Hfresh).
    destruct (succeeded r); injection Hnonce as Hn; subst n'; rewrite Hnonces; congruence.
Qed.

Lemma batchLoop_post (fuel : nat) (ts : TipSet) :
  forall (ems : list (option EstimateMessage)) (priorMsgs : list PriorMsg) (n : Z)
         (acc : list EstimateResult) (w : World Cache),
    NoDup (pointers ems) ->
    post (batchLoop mp fuel ems priorMsgs ts n acc) w
         (batchPost (calm mp fuel /\ Forall wellFormed ems) ems n acc w).
Proof.
  induction ems as [|em rest IH]; intros priorMsgs n acc w Hnd.
  - apply post_ret. exists []. rewrite app_nil_r. cbn. auto.
  - destruct em as [[[p|] spec]|]; cbn [batchLoop Msg Spec].
    + cbn [pointers] in Hnd. apply NoDup_cons_iff in Hnd. destruct Hnd as [Hfresh Hnd].
      apply post_bind.
      eapply post_weaken; [apply estimateSlot_post|].
      intros [[text|] | e | s | ] w1 Hslot; cbn in Hslot.
      * destruct Hslot as [[Hframe Hnonce] Htext].
        specialize (IH priorMsgs n (acc ++ [ {| ResMsg := p; Err := text |} ]) w1 Hnd).
        unfold post in *.
        eapply (batchPost_cons _ _ _ _ p {| ResMsg := p; Err := text |} n n);
          [reflexivity | exact Hfresh | reflexivity | exact Hframe | | | | exact IH].
        -- cbn. unfold succeeded. cbn [Err].
           destruct (String.eqb_spec text ""); [contradiction|]. rewrite Hnonce. reflexivity.
        -- unfold succeeded. cbn [Err].
           destruct (String.eqb_spec text ""); [contradiction | reflexivity].
        -- intros [Hc Hwf]. split; [exact Hc|]. inversion Hwf; assumption.
      * destruct Hslot as [Hframe Hnonce].
        specialize (IH (priorMsgs ++ [inr p]) (Uint64.add n 1)
                       (acc ++ [ {| ResMsg := p; Err := "" |} ]) w1 Hnd).
        unfold post in *.
        eapply (batchPost_cons _ _ _ _ p {| ResMsg := p; Err := "" |} n (Uint64.add n 1));
          [reflexivity | exact Hfresh | reflexivity | exact Hframe | | | | exact IH].
        -- cbn. rewrite Hnonce. reflexivity.
        -- reflexivity.
        -- intros [Hc Hwf]. split; [exact Hc|]. inversion Hwf; assumption.
      * destruct Hslot.
      * unfold post. cbn. intros [Hc Hwf]. apply Hslot. split; [exact Hc|].
        inversion Hwf as [|x l Hx _]; subst. destruct spec; [discriminate | destruct Hx].
      * unfold post. cbn. intros [Hc Hwf]. apply Hslot. split; [exact Hc|].
        inversion Hwf as [|x l Hx _]; subst. destruct spec; [discriminate | destruct Hx].
    + unfold post. cbn. intros [_ Hwf]. inversion Hwf as [|x l Hx _]; subst. exact Hx.
    + unfold post. cbn. intros [_ Hwf]. inversion Hwf as [|x l Hx _]; subst. exact Hx.
Qed.

Lemma GasBatchEstimateMessageGas_post (fuel : nat)
  (ems : list (option EstimateMessage)) (fromNonce : Z) (tsk : TipSetKey)
  (w : World Cache) :
  NoDup (pointers ems) ->
  post (GasBatchEstimateMessageGas mp fuel ems fromNonce tsk) w
    (fun o w' =>
       match o with
       | Ret rs =>
           List.length rs = List.length ems /\ map ResMsg rs = pointers ems
           /\ resultNonces w' rs = noncesBySuccess fromNonce rs
       | Fail _ =>
           ems = [] \/ (exists err, ChainTipSet mp tsk = inr err)
           \/ (exists a ts err, ResolveToDeterministicAddress mp a ts = inr err)
       | Panic _ | Spinning => ~ (calm mp fuel /\ Forall wellFormed ems)
       end).
Proof.
  intros Hnd. unfold GasBatchEstimateMessageGas.
  destruct ems as [|first rest] eqn:Hems; [unfold post; cbn; auto|].
  rewrite <- Hems in *.
  apply post_bind, post_wrapping_lift.
  destruct (ChainTipSet mp tsk) as [currTS | err] eqn:Htip; [|right; left; eauto].
  apply post_bind.
  assert (Hbad : ~ wellFormed first ->
                 ~ (calm mp fuel /\ Forall wellFormed ems)).
  { intros Hfirst [_ Hwf]. subst ems. inversion Hwf; auto. }
  destruct first as [[[p|] spec]|];
    [ | apply post_panic, Hbad; destruct spec; exact (fun H => H)
      | apply post_panic, Hbad; exact (fun H => H) ].
  apply post_load, post_bind, post_wrapping_lift.
  destruct (ResolveToDeterministicAddress mp (From_ (heap w p)) currTS)
    as [fromA | err] eqn:Hres; [|right; right; eauto].
  destruct (PendingFor mp fromA) as [pending ts].
  eapply post_weaken; [apply batchLoop_post; exact Hnd|].
  intros [rs | e | s | ] w1 H; cbn in H |- *; auto; [|destruct H].
  destruct H as (new & Hrs & Hlen & Hmap & _ & Hn). subst rs. auto.
Qed.

(** C1, as amended.  In a batch whose messages are distinct objects, a
    call that returns results returns one per input message, in input
    order, and the nonces they carry are handed out one per *success*: a
    result that succeeded carries the base nonce plus the number of
    successes before it, and a result that failed carries the unset nonce
    0 and uses no nonce up, so the next success takes the nonce the failed
    message was tried with.  Such a call does return results whenever the
    batch is not empty, every entry has a message and a spec, the tipset
    and the sender resolve, and the pool is [calm]. *)
Theorem batch_nonces_count_successes (fuel : nat)
  (ems : list (option EstimateMessage)) (fromNonce : Z) (tsk : TipSetKey)
  (w : World Cache) :
  NoDup (pointers ems) ->
  (forall rs w',
      GasBatchEstimateMessageGas mp fuel ems fromNonce tsk w = (Ret rs, w') ->
      List.length rs = List.length ems /\ map ResMsg rs = pointers ems
      /\ resultNonces w' rs = noncesBySuccess fromNonce rs)
  /\ (ems <> [] -> calm mp fuel -> Forall wellFormed ems ->
      (forall err, ChainTipSet mp tsk <> inr err) ->
      (forall a ts err, ResolveToDeterministicAddress mp a ts <> inr err) ->
      exists rs w',
        GasBatchEstimateMessageGas mp fuel ems fromNonce tsk w = (Ret rs, w')).
Proof.
  intros Hnd.
  pose proof (GasBatchEstimateMessageGas_post fuel ems fromNonce tsk w Hnd) as H.
  unfold post in H.
  destruct (GasBatchEstimateMessageGas mp fuel ems fromNonce tsk w) as [o w1].
  cbn [fst snd] in H. split.
  - intros rs w' Heq. injection Heq as -> ->. exact H.
  - intros Hne Hcalm Hwf Htip Hres.
    destruct o as [rs | e | s | ].
    + eauto.
    + destruct H as [H | [(err & H) | (a & ts & err & H)]];
        [contradiction | destruct (Htip _ H) | destruct (Hres _ _ _ H)].
    + destruct (H (conj Hcalm Hwf)).
    + destruct (H (conj Hcalm Hwf)).
Qed.

End Batch.

(** The sample pool [Sample.steady] is calm. *)
Lemma steady_is_calm : calm Sample.steady 5.
Proof.
  split; [discriminate|]. split.
  - intros m pr ts. cbn. unfold Sample.steadyEvaluator.
    destruct (To m =? 666); discriminate.
  - intros ts Hhead. injection Hhead as <-. discriminate.
Defined.

Lemma batch_nonces_count_successes_witness :
  exists rs w',
    GasBatchEstimateMessageGas Sample.steady 5
      (Sample.batch 1.25 [0; 1; 2; 3; 4]%nat) 10 [] Sample.fiveMessages = (Ret rs, w')
    /\ resultNonces w' rs = noncesBySuccess 10 rs.
Proof.
  assert (Hnd : NoDup (pointers (Sample.batch 1.25 [0; 1; 2; 3; 4]%nat))).
  { cbn. repeat constructor; cbn; lia. }
  destruct (batch_nonces_count_successes Sample.steady 5
              (Sample.batch 1.25 [0; 1; 2; 3; 4]%nat) 10 [] Sample.fiveMessages Hnd)
    as [Hnonces Hreturns].
  destruct Hreturns as (rs & w' & Hrun).
  - discriminate.
  - exact steady_is_calm.
  - cbn. repeat constructor.
  - intros err. destruct err; discriminate.
  - intros a ts err. discriminate.
  - exists rs, w'. split; [exact Hrun|]. apply (Hnonces rs w' Hrun).
Defined.

(** The nonce of each result, by its position: a success carries the base
    nonce plus the number of successes before it. *)
Lemma noncesBySuccess_nth :
  forall (rs : list EstimateResult) (start : Z) (i : nat) (r : EstimateResult),
    0 <= start < 2 ^ 64 ->
    nth_error rs i = Some r ->
    nth_error (noncesBySuccess start rs) i
    = Some (if succeeded r
            then Uint64.wrap
                   (start + Z.of_nat (List.length (filter succeeded (firstn i rs))))
            else 0).
Proof.
  induction rs as [|r0 rest IH]; intros start i r Hstart Hnth.
  - destruct i; discriminate.
  - destruct i as [|i].
    + injection Hnth as ->. cbn [noncesBySuccess firstn filter List.length nth_error].
      destruct (succeeded r); [|reflexivity].
      rewrite Z.add_0_r, Uint64_wrap_id by exact Hstart. reflexivity.
    + cbn [nth_error] in Hnth. cbn [noncesBySuccess firstn filter].
      destruct (succeeded r0) eqn:H0; cbn [nth_error].
      * rewrite (IH (Uint64.add start 1) i r); [|apply Z.mod_pos_bound; lia | exact Hnth].
        destruct (succeeded r); [|reflexivity].
        f_equal. unfold Uint64.add, Uint64.wrap. cbn [List.length].
        rewrite Z.add_mod_idemp_l by lia. f_equal. lia.
      * exact (IH start i r Hstart Hnth).
Qed.

(** C1 as stated fails: with base nonce 10 and a third message that fails,
    the results carry 10, 11, unset, 12, 13; the fourth message takes the
    nonce 12 the third was tried with, not 13. *)
Lemma failed_slot_uses_no_nonce :
  let run := GasBatchEstimateMessageGas Sample.steady 5
               (Sample.batch 1.25 [0; 1; 2; 3; 4]%nat) 10 [] Sample.fiveMessages in
  exists rs,
    fst run = Ret rs
    /\ map succeeded rs = [true; true; false; true; true]
    /\ resultNonces (snd run) rs = [10; 11; 0; 12; 13]
    /\ noncesBySlot 10 rs = [10; 11; 0; 13; 14]
    /\ resultNonces (snd run) rs <> noncesBySlot 10 rs.
Proof.
  eexists. split; [vm_compute; reflexivity|].
  split; [vm_compute; reflexivity|].
  split; [vm_compute; reflexivity|].
  split; [vm_compute; reflexivity|].
  vm_compute. discriminate.
Qed.

(** ** The single-message path *)

Section Single.

Context {Cache : Type} (mp : MessagePool Cache).

Lemma GasEstimateGasLimit_heap (fuel : nat) (msgIn : Message) (tsk : TipSetKey)
  (w : World Cache) :
  heap (snd (GasEstimateGasLimit mp fuel msgIn tsk w)) = heap w.
Proof.
  destruct (GasEstimateGasLimit_runs mp fuel msgIn tsk w) as [[e He] | (prior & ts & He)];
    rewrite He; [reflexivity|].
  exact (proj1 (eval_post mp fuel msgIn prior ts w)).
Qed.

(** Storing into [p] a message with the same gas limit keeps the gas limit
    at [p]. *)
Lemma post_store_keeps (p : ptr) (f : Message -> Message) (w : World Cache)
  (Q : outcome unit -> World Cache -> Prop) :
  (forall w1, GasLimit (heap w1 p) = GasLimit (f (heap w p)) -> Q (Ret tt) w1) ->
  post (store p f) w Q.
Proof.
  intros H. apply post_store, H. cbn [heap set_heap]. unfold update.
  rewrite Nat.eqb_refl. reflexivity.
Qed.

(** The steps of [GasEstimateMessageGas] after the gas limit is filled
    leave the gas limit alone, however they end. *)
Lemma after_gas_limit (p : ptr) (spec : option SendSpec) (g : Z) (w : World Cache) :
  GasLimit (heap w p) = g ->
  post ((msg <- load p ;;
         (if unset (GasPremium msg) then
            gasPremium <- wrapping "estimating gas price"
                            (GasEstimateGasPremium mp 10 (From_ msg) (GasLimit msg)
                               EmptyTSK) ;;
            store p (with_GasPremium (Some (overPremium mp spec gasPremium)))
          else ret tt) ;;;
         msg <- load p ;;
         (if unset (GasFeeCap msg) then
            feeCap <- wrapping "estimating fee cap"
                        (GasEstimateFeeCap mp msg 20 EmptyTSK) ;;
            store p (with_GasFeeCap (Some feeCap))
          else ret tt) ;;;
         capGasFee mp p spec ;;;
         ret p)%pool) w
       (fun _ w' => GasLimit (heap w' p) = g).
Proof.
  intros Hg.
  assert (Htail : forall w1, GasLimit (heap w1 p) = g ->
            post ((msg <- load p ;;
                   (if unset (GasFeeCap msg) then
                      feeCap <- wrapping "estimating fee cap"
                                  (GasEstimateFeeCap mp msg 20 EmptyTSK) ;;
                      store p (with_GasFeeCap (Some feeCap))
                    else ret tt) ;;;
                   capGasFee mp p spec ;;;
                   ret p)%pool) w1
                 (fun _ w' => GasLimit (heap w' p) = g)).
  { intros w1 H1.
    assert (Hcap : forall w2, GasLimit (heap w2 p) = g ->
              post (bind (capGasFee mp p spec) (fun _ => ret p)) w2
                   (fun _ w' => GasLimit (heap w' p) = g)).
    { intros w2 H2. apply post_bind. unfold capGasFee. apply post_bind, post_load.
      destruct (CapGasFee mp (heap w2 p) spec) as [feeCap premium].
      apply post_store_keeps. intros w3 H3. apply post_ret.
      rewrite H3. exact H2. }
    apply post_bind, post_load. apply post_bind.
    destruct (unset (GasFeeCap (heap w1 p))).
    - apply post_bind, post_wrapping.
      eapply post_weaken; [apply (feecap_post mp 0)|].
      intros [feeCap | e | s0 | ] w2 [-> _]; try exact H1.
      apply post_store_keeps. intros w3 H3. apply Hcap.
      rewrite H3. exact H1.
    - apply post_ret, Hcap, H1. }
  apply post_bind, post_load. apply post_bind.
  destruct (unset (GasPremium (heap w p))).
  - apply post_bind, post_wrapping.
    eapply post_weaken; [apply premium_post|].
    intros [gasPremium | e | s0 | ] w1 [Hh _]; try (rewrite Hh; exact Hg).
    apply post_store_keeps. intros w2 H2. apply Htail.
    rewrite H2. cbn. rewrite Hh. exact Hg.
  - apply post_ret, Htail, Hg.
Qed.

(** The single-message path does what C3 says: when the gas limit is
    unset, the simulated gas usage is [g], and the spec is absent or asks
    for a zero over-estimation, the message is left with the gas limit
    [int64(float64(g) * GasLimitOverestimation)] of the pool's
    configuration. *)
Lemma single_path_uses_pool_default (fuel : nat) (p : ptr) (spec : option SendSpec)
  (tsk : TipSetKey) (w w1 : World Cache) (g : Z) :
  GasLimit (heap w p) = 0 ->
  match spec with Some s => GasOverEstimation s = 0%float | None => True end ->
  GasEstimateGasLimit mp fuel (heap w p) EmptyTSK w = (Ret g, w1) ->
  GasLimit (heap (snd (GasEstimateMessageGas mp fuel
                         (Some {| Msg := Some p; Spec := spec |}) tsk w)) p)
  = F64.to_int64 (platform mp) (F64.of_Z g * GasLimitOverestimation mp)%float.
Proof.
  intros Hunset Hspec Hrun.
  change (post (GasEstimateMessageGas mp fuel (Some {| Msg := Some p; Spec := spec |}) tsk) w
            (fun _ w' => GasLimit (heap w' p)
                         = F64.to_int64 (platform mp)
                             (F64.of_Z g * GasLimitOverestimation mp)%float)).
  unfold GasEstimateMessageGas. cbn [Msg Spec].
  apply post_bind, post_load. rewrite Hunset. cbn [Z.eqb].
  apply post_bind. apply post_bind, post_wrapping.
  pose proof (GasEstimateGasLimit_heap fuel (heap w p) EmptyTSK w) as Hheap.
  unfold post at 1. rewrite Hrun in *. cbn [fst snd] in *.
  assert (Hover : match spec with
                  | Some s => if (0 <? GasOverEstimation s)%float
                              then GasOverEstimation s else GasLimitOverestimation mp
                  | None => GasLimitOverestimation mp
                  end = GasLimitOverestimation mp).
  { destruct spec as [s|]; [|reflexivity]. rewrite Hspec. reflexivity. }
  rewrite Hover.
  apply post_store_keeps. intros w2 H2.
  apply after_gas_limit. rewrite H2. reflexivity.
Qed.

End Single.

(** ** The premium *)

Lemma remaining_cons (tgt : Z) (g : GasMeta) (l : list GasMeta) (k : nat) :
  remaining tgt (g :: l) (S k) = remaining (tgt - Limit g) l k.
Proof. unfold remaining. cbn [firstn map fold_right]. lia. Qed.

Lemma stopsAt_here (tgt : Z) (g : GasMeta) (l : list GasMeta) :
  stopsAt tgt (g :: l) 0 -> tgt - Limit g < 0.
Proof.
  intros (_ & Hneg & _). rewrite remaining_cons in Hneg.
  unfold remaining in Hneg. cbn in Hneg. lia.
Qed.

Lemma stopsAt_later (tgt : Z) (g : GasMeta) (l : list GasMeta) (i : nat) :
  stopsAt tgt (g :: l) (S i) -> 0 <= tgt - Limit g /\ stopsAt (tgt - Limit g) l i.
Proof.
  intros (Hlen & Hneg & Hpos). split.
  - specialize (Hpos 0%nat ltac:(lia)). rewrite remaining_cons in Hpos.
    unfold remaining in Hpos. cbn in Hpos. lia.
  - split; [cbn in Hlen; lia|]. split.
    + rewrite <- remaining_cons. exact Hneg.
    + intros j Hj. rewrite <- remaining_cons. apply Hpos. lia.
Qed.

(** The walk leaves, as [prev1] and [prev2], the price of the entry at
    which the running total first goes negative and the price before it. *)
Lemma medianWalk_stops :
  forall (sorted : list GasMeta) (tgt : Z) (i : nat) (prev1 prev2 : Z),
    Forall (fun g => 0 <= Limit g <= Int64.max_int) sorted ->
    0 <= tgt <= Int64.max_int ->
    stopsAt tgt sorted i ->
    medianWalk sorted tgt prev1 prev2
    = (priceAt sorted i, match i with O => prev1 | S j => priceAt sorted j end).
Proof.
  induction sorted as [|g rest IH]; intros tgt i prev1 prev2 Hlim Htgt Hstop.
  - destruct Hstop as (Hlen & _). cbn in Hlen. lia.
  - inversion Hlim as [|x l Hg Hrest]; subst.
    cbn [medianWalk]. unfold Int64.sub. rewrite Int64_wrap_id
      by (unfold Int64.in_range, Int64.min_int, Int64.max_int in *; lia).
    destruct i as [|i].
    + apply stopsAt_here in Hstop. apply Z.ltb_lt in Hstop. rewrite Hstop. reflexivity.
    + apply stopsAt_later in Hstop. destruct Hstop as [Hpos Hstop].
      destruct (tgt - Limit g <? 0) eqn:Hneg; [apply Z.ltb_lt in Hneg; lia|].
      rewrite (IH (tgt - Limit g) i (Price g) prev1 Hrest ltac:(lia) Hstop).
      destruct i; reflexivity.
Qed.

Section Premium.

Context {Cache : Type} (mp : MessagePool Cache).

(** The starting value of [at] is the target of the specification. *)
Lemma median_target (blocks : Z) :
  0 <= BlockGasTarget mp -> 0 <= blocks ->
  BlockGasTarget mp * blocks <= Int64.max_int ->
  Int64.add (Int64.quot (Int64.mul (BlockGasTarget mp) blocks) 2)
            (Int64.quot (Int64.mul (BlockGasTarget mp) blocks) (2 * 20))
  = target (BlockGasTarget mp) blocks
  /\ 0 <= target (BlockGasTarget mp) blocks <= Int64.max_int.
Proof.
  intros HT Hb Hmax. unfold target, Int64.add, Int64.quot, Int64.mul.
  set (x := BlockGasTarget mp * blocks) in *.
  assert (Hx : 0 <= x) by (unfold x; apply Z.mul_nonneg_nonneg; lia).
  unfold Int64.max_int in *.
  assert (H2 : 0 <= x / 2 <= x) by (split; [apply Z.div_pos; lia | apply Z.div_le_upper_bound; lia]).
  assert (H40 : 0 <= x / 40) by (apply Z.div_pos; lia).
  assert (Hsum : x / 2 + x / 40 <= x).
  { pose proof (Z.mul_div_le x 2 ltac:(lia)). pose proof (Z.mul_div_le x 40 ltac:(lia)). lia. }
  rewrite (Int64_wrap_id x) by (unfold Int64.in_range, Int64.min_int, Int64.max_int; lia).
  change (2 * 20) with 40.
  rewrite !Z.quot_div_nonneg by lia.
  rewrite (Int64_wrap_id (x / 2)) by (unfold Int64.in_range, Int64.min_int, Int64.max_int; lia).
  rewrite (Int64_wrap_id (x / 40)) by (unfold Int64.in_range, Int64.min_int, Int64.max_int; lia).
  rewrite Int64_wrap_id by (unfold Int64.in_range, Int64.min_int, Int64.max_int; lia).
  split; [reflexivity | lia].
Qed.

(** C5.  [medianGasPremium] sorts the window descending by price (with
    [sort.Slice], whose result is a rearrangement in which prices never
    rise), starts from [target = blockGasTarget * blocks / 2 +
    blockGasTarget * blocks / 40], and, where entry [i] of the sorted list
    is the first at which the running total [target - limits so far] is
    negative, returns the average of the prices at [i] and before [i] when
    the latter is nonzero, and the price at [i] alone when that price is
    zero or [i] is the first entry.  (Limits are non-negative [int64]s and
    [blockGasTarget * blocks] fits one.) *)
Theorem median_premium_selection (prices : list GasMeta) (blocks : Z) (i : nat) :
  sortsDescending mp ->
  Forall (fun g => 0 <= Limit g <= Int64.max_int) prices ->
  0 <= BlockGasTarget mp -> 0 <= blocks ->
  BlockGasTarget mp * blocks <= Int64.max_int ->
  let sorted := sortSlice mp (fun i j => Price j <? Price i) prices in
  Permutation prices sorted
  /\ StronglySorted (fun a b => Price b <= Price a) sorted
  /\ (stopsAt (target (BlockGasTarget mp) blocks) sorted i ->
      medianGasPremium mp prices blocks = chosenPremium sorted i).
Proof.
  intros Hsort Hlim HT Hb Hmax sorted.
  destruct (Hsort prices) as [Hperm Hdesc]. fold sorted in Hperm, Hdesc.
  split; [exact Hperm|]. split; [exact Hdesc|].
  intros Hstop. unfold medianGasPremium. fold sorted.
  destruct (median_target blocks HT Hb Hmax) as [-> Htgt].
  assert (Hlim' : Forall (fun g => 0 <= Limit g <= Int64.max_int) sorted)
    by (eapply Permutation_Forall; eassumption).
  rewrite (medianWalk_stops sorted _ i 0 0 Hlim' Htgt Hstop).
  unfold chosenPremium. destruct i as [|j]; [reflexivity|].
  destruct (priceAt sorted j =? 0); reflexivity.
Qed.

End Premium.

Lemma medianWalk_zero (l : list GasMeta) :
  Forall (fun g => Price g = 0) l ->
  forall at_, medianWalk l at_ 0 0 = (0, 0).
Proof.
  induction 1 as [|g rest Hg _ IH]; intros at_; [reflexivity|].
  cbn [medianWalk]. rewrite Hg. destruct (_ <? 0); [reflexivity | apply IH].
Qed.

Section Floor.

Context {Cache : Type} (mp : MessagePool Cache).

Lemma median_of_zero_prices (prices : list GasMeta) (blocks : Z) :
  sortsDescending mp -> Forall (fun g => Price g = 0) prices ->
  medianGasPremium mp prices blocks = 0.
Proof.
  intros Hsort Hzero. unfold medianGasPremium.
  destruct (Hsort prices) as [Hperm _].
  rewrite medianWalk_zero; [reflexivity|].
  eapply Permutation_Forall; eassumption.
Qed.

(** C6.  Once the price window is gathered from the chain head, the
    premium before noise is the computed (median) premium when that is at
    least [MinGasPremium]; below it, it is exactly twice the minimum for
    one block, one and a half times for two, and the minimum for three or
    more.  In particular, for one block and a window of zero prices it is
    exactly twice the minimum. *)
Theorem premium_floor (nblocksincl : Z) (w w' : World Cache) (ts : TipSet)
  (prices : list GasMeta) (blocks : Z) :
  ChainHead mp = inl ts ->
  gatherPrices mp (Z.to_nat (Uint64.mul (inclusionTarget nblocksincl) 2)) ts [] 0 w
  = (Ret (prices, blocks), w') ->
  let computed := medianGasPremium mp prices blocks in
  exists premium,
    premiumBeforeNoise mp nblocksincl w = (Ret premium, w')
    /\ (MinGasPremium <= computed -> premium = computed)
    /\ (computed < MinGasPremium ->
        (nblocksincl = 1 -> premium = 2 * MinGasPremium)
        /\ (nblocksincl = 2 -> 2 * premium = 3 * MinGasPremium)
        /\ (3 <= nblocksincl -> premium = MinGasPremium))
    /\ (sortsDescending mp -> nblocksincl = 1 ->
        Forall (fun g => Price g = 0) prices -> premium = 2 * MinGasPremium).
Proof.
  intros Hhead Hgather computed.
  exists (premiumFloor (inclusionTarget nblocksincl) computed).
  split.
  - unfold premiumBeforeNoise, bind, lift. rewrite Hhead. cbn [ret].
    rewrite Hgather. reflexivity.
  - unfold premiumFloor, inclusionTarget, MinGasPremium.
    repeat split.
    + intros Hge. destruct (computed <? 100000) eqn:Hlt; [apply Z.ltb_lt in Hlt; lia | reflexivity].
    + intros ->. apply Z.ltb_lt in H. rewrite H. reflexivity.
    + intros ->. apply Z.ltb_lt in H. rewrite H. reflexivity.
    + intros Hthree. apply Z.ltb_lt in H. rewrite H.
      destruct (nblocksincl =? 0) eqn:H0; [apply Z.eqb_eq in H0; lia|].
      destruct (nblocksincl =? 1) eqn:H1; [apply Z.eqb_eq in H1; lia|].
      destruct (nblocksincl =? 2) eqn:H2; [apply Z.eqb_eq in H2; lia|].
      reflexivity.
    + intros Hsort -> Hzero. unfold computed.
      rewrite (median_of_zero_prices _ _ Hsort Hzero). reflexivity.
Qed.

(** C10.  Neither estimator looks at its tipset key: two calls that differ
    only in the key give the same outcome and leave the same world; both
    start from the chain head, and fail with its error when it cannot be
    had; and the premium estimator treats 0 blocks as 1. *)
Theorem tipset_key_is_ignored (msg : Message) (maxqueueblks nblocksincl : Z)
  (sender : Address) (gaslimit : Z) (tsk1 tsk2 : TipSetKey) (w : World Cache) :
  GasEstimateFeeCap mp msg maxqueueblks tsk1 w
  = GasEstimateFeeCap mp msg maxqueueblks tsk2 w
  /\ GasEstimateGasPremium mp nblocksincl sender gaslimit tsk1 w
     = GasEstimateGasPremium mp nblocksincl sender gaslimit tsk2 w
  /\ GasEstimateGasPremium mp 0 sender gaslimit tsk1 w
     = GasEstimateGasPremium mp 1 sender gaslimit tsk2 w
  /\ (forall err, ChainHead mp = inr err ->
                  GasEstimateFeeCap mp msg maxqueueblks tsk1 w = (Fail err, w)
                  /\ GasEstimateGasPremium mp nblocksincl sender gaslimit tsk1 w
                     = (Fail err, w)).
Proof.
  repeat split.
  - unfold GasEstimateFeeCap, bind, lift. rewrite H. reflexivity.
  - unfold GasEstimateGasPremium, premiumBeforeNoise, bind, lift. rewrite H. reflexivity.
Qed.

End Floor.

(** The insertion sort of the sample pool meets the contract of
    [sort.Slice]. *)
Lemma insert_permutation (less : GasMeta -> GasMeta -> bool) (x : GasMeta)
  (l : list GasMeta) : Permutation (x :: l) (Sample.insert less x l).
Proof.
  induction l as [|y r IH]; cbn; [reflexivity|].
  destruct (less y x); [|reflexivity].
  rewrite perm_swap. apply perm_skip. exact IH.
Qed.

Lemma insertionSort_permutation (less : GasMeta -> GasMeta -> bool)
  (l : list GasMeta) : Permutation l (Sample.insertionSort less l).
Proof.
  induction l as [|x l IH]; cbn; [reflexivity|].
  rewrite <- insert_permutation. apply perm_skip. exact IH.
Qed.

Lemma insert_descending (x : GasMeta) (l : list GasMeta) :
  StronglySorted (fun a b => Price b <= Price a) l ->
  StronglySorted (fun a b => Price b <= Price a)
                 (Sample.insert (fun i j => Price j <? Price i) x l).
Proof.
  induction 1 as [|y r Hr IH Hy]; cbn; [repeat constructor|].
  destruct (Price x <? Price y) eqn:Hlt.
  - apply Z.ltb_lt in Hlt. constructor; [exact IH|].
    eapply Permutation_Forall; [apply insert_permutation|].
    constructor; [lia | exact Hy].
  - apply Z.ltb_ge in Hlt. constructor; [constructor; assumption|].
    constructor; [exact Hlt|].
    eapply Forall_impl; [|exact Hy]. cbn. intros a Ha. lia.
Qed.

Lemma sample_sortsDescending
  (eval : Message -> list Message -> TipSet -> result InvocResult)
  (incl : TipSet -> result (list Message)) (hygge : Z) :
  sortsDescending (Sample.poolWith eval incl hygge).
Proof.
  intros l. cbn. split; [apply insertionSort_permutation|].
  induction l as [|x l IH]; cbn; [constructor | apply insert_descending, IH].
Defined.

(** ** The properties on the sample pool *)

(** The model on concrete inputs. *)

Example scaled_factor_of_20_blocks :
  scaledIncrease 8 20 = Some 2699 /\ 256 * 9 ^ 20 / 8 ^ 20 = 2699.
Proof. vm_compute. split; reflexivity. Qed.

Example scaled_factor_overflows_at_330 :
  scaledIncrease 8 329 = Some 17275071378429106176
  /\ scaledIncrease 8 330 = None
  /\ 2 ^ 64 <= 256 * 9 ^ 330 / 8 ^ 330.
Proof. vm_compute. repeat split; discriminate. Qed.

Example scaled_table :
  map (fun m => F64.to_int64 amd64 (minerMulti m * 1024)%float)
      [3; 4; 6; 7; 16; 18; 23; 26; 27; 5]
  = [1966; 1761; 1085; 1228; 1218; 1771; 1771; 1177; 1208; 1024].
Proof. vm_compute. reflexivity. Qed.

Example sample_premium :
  fst (premiumBeforeNoise Sample.steady 1 Sample.plain) = Ret 400000
  /\ fst (GasEstimateGasPremium Sample.steady 1 7 0 [] Sample.plain) = Ret 400000.
Proof. vm_compute. split; reflexivity. Qed.

Example sample_single_estimate :
  let run := GasEstimateMessageGas Sample.steady 5
               (Some {| Msg := Some 0%nat; Spec := None |}) [] Sample.plain in
  fst run = Ret 0%nat
  /\ heap (snd run) 0%nat
     = with_GasFeeCap (Some 401054)
         (with_GasPremium (Some 400000) (with_GasLimit 1250000 (Sample.message 70 0))).
Proof. vm_compute. split; reflexivity. Qed.

Lemma fork_boundary_is_the_only_retry_witness :
  (* method 77 meets the boundary at the head and succeeds at its parent *)
  evalMessageGasLimit (Sample.pool 1000) 5 (Sample.message 70 77) [] Sample.tip2
    Sample.plain
  = (Ret 1000000,
     set_calls (invoked (probeMessage (Sample.pool 1000) (Sample.message 70 77)) []
                  [Sample.tip2; Sample.tip1]) Sample.plain)
  (* method 78 meets another error, which is final *)
  /\ evalMessageGasLimit (Sample.pool 1000) 5 (Sample.message 70 78) [] Sample.tip2
       Sample.plain
     = (Fail (ErrWrap "CallWithGas failed" (ErrNew "state not found")),
        set_calls (invoked (probeMessage (Sample.pool 1000) (Sample.message 70 78)) []
                     [Sample.tip2]) Sample.plain).
Proof.
  split.
  - assert (Hback : steppedBack (Sample.pool 1000)
                      (probeMessage (Sample.pool 1000) (Sample.message 70 77)) []
                      Sample.tip2 [Sample.tip2] Sample.tip1).
    { apply (sb_back _ _ _ Sample.tip2 Sample.tip1 [] Sample.tip1);
        [reflexivity | reflexivity | apply sb_here]. }
    assert (Hfuel : (List.length [Sample.tip2] < 5)%nat) by (cbn; lia).
    destruct (fork_boundary_is_the_only_retry (Sample.pool 1000) 5
                (Sample.message 70 77) [] Sample.tip2 Sample.tip1 [Sample.tip2]
                Sample.plain Hback Hfuel) as (_ & _ & Hok & _).
    exact (Hok Sample.receipt eq_refl eq_refl).
  - assert (Hfuel : (List.length (@nil TipSet) < 5)%nat) by (cbn; lia).
    destruct (fork_boundary_is_the_only_retry (Sample.pool 1000) 5
                (Sample.message 70 78) [] Sample.tip2 Sample.tip2 []
                Sample.plain (sb_here _ _ _ _) Hfuel) as (Hother & _).
    apply (Hother (ErrNew "state not found") eq_refl). discriminate.
Defined.

Lemma upgrade_window_correction_witness :
  (* three heights before the upgrade, method 3 of a storage miner: 1.92 *)
  fst (evalMessageGasLimit (Sample.pool 5) 5 (Sample.message 50 3) [] Sample.tip2
         Sample.plain)
  = Ret 1919921
  /\ fixedPointMul 1000000 300 = 3000000
  /\ fixedPointMul 1000000 100 = 1000000.
Proof.
  assert (Hfuel : (List.length (@nil TipSet) < 5)%nat) by (cbn; lia).
  assert (Hup : Int64.in_range (UpgradeHyggeHeight (Sample.pool 5))).
  { unfold Int64.in_range, Int64.min_int, Int64.max_int. cbn. lia. }
  assert (Hh : 0 <= Height Sample.tip2) by (cbn; lia).
  assert (Hg : 0 <= GasUsed (MsgRct Sample.receipt) < 2 ^ 51) by (cbn; lia).
  exact (upgrade_window_correction (Sample.pool 5) 5 (Sample.message 50 3) []
           Sample.tip2 Sample.tip2 [] Sample.plain Sample.receipt
           (sb_here _ _ _ _) Hfuel eq_refl eq_refl Hup Hh Hg).
Defined.

Lemma collect_refund_is_best_effort_witness :
  (* Collect on the payment channel actor 60 *)
  fst (evalMessageGasLimit (Sample.pool 1000) 5 (Sample.message 60 4) [] Sample.tip2
         Sample.plain)
  = Ret (1000000 + 76000)
  (* the actor lookup of address 500 is an error *)
  /\ fst (evalMessageGasLimit (Sample.pool 1000) 5 (Sample.message 500 4) []
            Sample.tip2 Sample.plain)
     = Ret 1000000.
Proof.
  assert (Hfuel : (List.length (@nil TipSet) < 5)%nat) by (cbn; lia).
  split.
  - destruct (collect_refund_is_best_effort (Sample.pool 1000) 5 (Sample.message 60 4)
                [] Sample.tip2 Sample.tip2 [] Sample.plain Sample.receipt
                (sb_here _ _ _ _) Hfuel eq_refl eq_refl) as (Hfound & _).
    destruct (Hfound Sample.tree {| Code := 3 |} eq_refl eq_refl) as (Hadd & _).
    exact (Hadd (conj eq_refl eq_refl)).
  - destruct (collect_refund_is_best_effort (Sample.pool 1000) 5 (Sample.message 500 4)
                [] Sample.tip2 Sample.tip2 [] Sample.plain Sample.receipt
                (sb_here _ _ _ _) Hfuel eq_refl eq_refl) as (_ & _ & Herr & _).
    exact (Herr Sample.tree (ErrNew "lookup failed") eq_refl eq_refl).
Defined.

Lemma median_premium_selection_witness :
  (* target 5,250,000,000: the walk stops at the second entry, 300000,
     after 500000 *)
  medianGasPremium Sample.steady Sample.window 2 = (300000 + 500000) / 2.
Proof.
  assert (Hlim : Forall (fun g => 0 <= Limit g <= Int64.max_int) Sample.window).
  { unfold Int64.max_int. repeat constructor; cbn; lia. }
  assert (HT : 0 <= BlockGasTarget Sample.steady) by (cbn; lia).
  assert (Hb : 0 <= 2) by lia.
  assert (Hmax : BlockGasTarget Sample.steady * 2 <= Int64.max_int)
    by (unfold Int64.max_int; cbn; lia).
  destruct (median_premium_selection Sample.steady Sample.window 2 1
              (sample_sortsDescending _ _ _) Hlim HT Hb Hmax) as (_ & _ & Hsel).
  apply Hsel. split; [cbn; lia|]. split; [cbn; lia|].
  intros j Hj. assert (j = 0%nat) as -> by lia. cbn. lia.
Defined.

Lemma premium_floor_witness :
  (* one block, a window of zero prices: twice the minimum *)
  exists w', premiumBeforeNoise Sample.quiet 1 Sample.plain = (Ret 200000, w').
Proof.
  destruct (premium_floor Sample.quiet 1 Sample.plain
              (snd (gatherPrices Sample.quiet 2 Sample.tip2 [] 0 Sample.plain))
              Sample.tip2
              [ {| Price := 0; Limit := 4000000000 |};
                {| Price := 0; Limit := 4000000000 |} ] 2
              eq_refl eq_refl) as (premium & Hrun & _ & _ & Hzero).
  rewrite (Hzero (sample_sortsDescending _ _ _) eq_refl) in Hrun.
  - eexists. exact Hrun.
  - repeat constructor.
Defined.

(** C3 holds on the single-message path ([single_path_uses_pool_default])
    and fails on the batch path, which multiplies by the spec's field
    without the test its sibling makes.  For one message with an unset gas
    limit and a simulated gas usage of 1,000,000, in a pool whose default
    over-estimation is 1.25: the single-message path leaves the gas limit
    at 1,250,000 whether the spec has a zero over-estimation or is absent;
    the batch path leaves it at 0 for the zero over-estimation, and
    dereferences the nil spec when it is absent. *)
Theorem batch_path_ignores_pool_default :
  let single spec :=
    GasEstimateMessageGas Sample.steady 5 (Some {| Msg := Some 0%nat; Spec := spec |})
      [] Sample.plain in
  let batch spec :=
    GasBatchEstimateMessageGas Sample.steady 5 [ Some {| Msg := Some 0%nat; Spec := spec |} ]
      10 [] Sample.plain in
  F64.to_int64 (platform Sample.steady)
    (F64.of_Z 1000000 * GasLimitOverestimation Sample.steady)%float = 1250000
  /\ fst (single (Some Sample.zeroSpec)) = Ret 0%nat
  /\ GasLimit (heap (snd (single (Some Sample.zeroSpec))) 0%nat) = 1250000
  /\ fst (single None) = Ret 0%nat
  /\ GasLimit (heap (snd (single None)) 0%nat) = 1250000
  /\ fst (batch (Some Sample.zeroSpec)) = Ret [ {| ResMsg := 0%nat; Err := "" |} ]
  /\ GasLimit (heap (snd (batch (Some Sample.zeroSpec))) 0%nat) = 0
  /\ fst (batch None) = Panic nilDeref.
Proof. vm_compute. repeat split; reflexivity. Qed.


(** * Further properties of the estimators *)

Section Estimates.
Context {Cache : Type} (mp : MessagePool Cache).

(** X1.  Once the gas statistics of a tipset were returned, asking again is
    answered from the cache, with the same statistics, whatever the message
    loader would answer now. *)
Theorem price_cache_answers_again (mp' : MessagePool Cache) (ts : TipSet)
  (w w1 : World Cache) (prices : list GasMeta) :
  retainsEntries mp ->
  cacheGet mp' = cacheGet mp ->
  GetTSGasStats mp ts w = (Ret prices, w1) ->
  fst (GetTSGasStats mp' ts w1) = Ret prices.
Proof.
  intros [Hhit Hadd] Hget Hrun. unfold GetTSGasStats in *. rewrite Hget.
  destruct (cacheGet mp (Key ts) (cache w)) as [[i|] c] eqn:H1.
  - injection Hrun as <- <-. cbn [cache set_cache].
    specialize (Hhit _ _ _ _ H1).
    destruct (cacheGet mp (Key ts) c) as [hit c2]. cbn in Hhit. subst hit. reflexivity.
  - destruct (MessagesForTipset mp ts) as [msgs | err]; [|discriminate].
    injection Hrun as <- <-. cbn [cache set_cache].
    specialize (Hadd (Key ts)
      (map (fun msg => {| Price := bigint_value (GasPremium msg); Limit := GasLimit msg |}) msgs) c).
    destruct (cacheGet mp (Key ts) _) as [hit c2]. cbn in Hadd. subst hit. reflexivity.
Qed.

(** *** The premium estimator *)




(** X3.  The premium before noise is never below [MinGasPremium]. *)
Theorem premium_before_noise_has_floor (n : Z) (w w' : World Cache) (p : Z) :
  premiumBeforeNoise mp n w = (Ret p, w') -> MinGasPremium <= p.
Proof.
  unfold premiumBeforeNoise, bind, lift.
  destruct (ChainHead mp) as [ts | err]; [|discriminate]. cbn [ret].
  destruct (gatherPrices mp _ ts [] 0 w) as [[pb | e | s | ] w1]; try discriminate.
  intros H. injection H as <- _. unfold premiumFloor, MinGasPremium.
  destruct (_ <? 100000) eqn:Hlt.
  - destruct (_ =? 1); [lia|]. destruct (_ =? 2); lia.
  - apply Z.ltb_ge in Hlt. exact Hlt.
Qed.

(** X4.  With the chain head at genesis nothing is loaded: whatever the tipset
    loader and the message loader would answer, the premium before noise
    is the floor for the inclusion target, and the world is untouched. *)
Theorem premium_at_genesis (n : Z) (ts : TipSet) (w : World Cache) :
  sortsDescending mp ->
  ChainHead mp = inl ts -> Height ts = 0 ->
  premiumBeforeNoise mp n w
  = (Ret (if (n =? 0) || (n =? 1) then 2 * MinGasPremium
          else if n =? 2 then 150000 else MinGasPremium), w).
Proof.
  intros Hsort Hhead Hgen. unfold premiumBeforeNoise, bind, lift.
  rewrite Hhead. cbn [ret].
  assert (Hg : forall k, gatherPrices mp k ts [] 0 w = (Ret ([], 0), w)).
  { intros [|k]; cbn [gatherPrices]; [reflexivity|]. rewrite Hgen. reflexivity. }
  rewrite Hg. cbn [fst snd].
  rewrite (median_of_zero_prices mp [] 0 Hsort (Forall_nil _)).
  unfold premiumFloor, inclusionTarget, MinGasPremium. cbn [Z.ltb Z.compare].
  destruct (n =? 0) eqn:H0; [reflexivity|]. cbn [orb].
  destruct (n =? 1); reflexivity.
Qed.


(** *** The fee cap *)

Lemma Pow_zero (x : float) : Math.Pow x (F64.of_Z 0) = 1%float.
Proof. reflexivity. Qed.

(** X5.  With no inclusion delay the fee cap is the base fee of the head's first
    block plus the premium the message carries, if it carries one. *)
Theorem feecap_without_delay (msg : Message) (tsk : TipSetKey) (w : World Cache)
  (ts : TipSet) (b : BlockHeader) (bs : list BlockHeader) :
  ChainHead mp = inl ts -> Blocks ts = b :: bs ->
  GasEstimateFeeCap mp msg 0 tsk w
  = (Ret (ParentBaseFee b + match GasPremium msg with Some p => p | None => 0 end), w).
Proof.
  intros Hhead Hblocks. unfold GasEstimateFeeCap, bind, lift.
  rewrite Hhead. cbn [ret]. rewrite Hblocks, Pow_zero.
  replace (F64.to_uint64 (platform mp) (1 * 256)%float) with 256
    by (vm_compute; reflexivity).
  rewrite Z.div_mul by lia. unfold ret.
  destruct (GasPremium msg); [reflexivity | rewrite Z.add_0_r; reflexivity].
Qed.

(** X6.  Within the delays whose factor fits, the projected fee cap is never
    below the current base fee plus the message's premium. *)
Theorem feecap_covers_base_fee (msg : Message) (tsk : TipSetKey) (w : World Cache)
  (ts : TipSet) (b : BlockHeader) (bs : list BlockHeader) (d : Z) :
  BaseFeeMaxChangeDenom mp = 8 ->
  ChainHead mp = inl ts -> Blocks ts = b :: bs ->
  0 <= ParentBaseFee b -> 0 <= d <= maxDelay ->
  exists c,
    GasEstimateFeeCap mp msg d tsk w = (Ret c, w)
    /\ ParentBaseFee b + match GasPremium msg with Some p => p | None => 0 end <= c.
Proof.
  intros Hden Hhead Hblocks Hfee Hd. unfold maxDelay in Hd.
  destruct (scaledIncrease_mono (Z.to_nat d) 0) as (a0 & a & H0 & Ha & Hle);
    [lia | rewrite Z2Nat.id; lia |].
  rewrite Z2Nat.id in Ha by lia. cbn [Z.add] in Ha.
  assert (a0 = 256) by (vm_compute in H0; congruence). subst a0.
  rewrite <- Hden in Ha.
  eexists. split; [apply (GasEstimateFeeCap_defined mp msg d tsk w ts b bs a); assumption|].
  apply Z.add_le_mono_r.
  rewrite <- (Z.div_mul (ParentBaseFee b) 256) at 1 by lia.
  apply Z.div_le_mono; [lia|]. apply Z.mul_le_mono_nonneg_l; lia.
Qed.

(** *** [GasEstimateCallWithGas] and [priorTo] *)

Lemma loop_break_is_the_answer (fuel : nat) (msg : Message) (prior : list Message) :
  forall (ts : TipSet) (w w' : World Cache) (r : result InvocResult) (last : TipSet),
    callUntilNoMigration mp fuel msg prior ts w = (Broke r last, w') ->
    CallWithGas mp msg prior last = r
    /\ exists earlier,
        calls w' = calls w ++ earlier
                   ++ [ {| call_msg := msg; call_prior := prior; call_ts := last |} ].
Proof.
  induction fuel as [|fuel IH]; intros ts w w' r last Hrun; [discriminate|].
  cbn [callUntilNoMigration] in Hrun.
  set (w1 := set_calls _ w) in Hrun.
  assert (Hhere : (Broke (CallWithGas mp msg prior ts) ts, w1) = (Broke r last, w') ->
                  CallWithGas mp msg prior last = r
                  /\ exists earlier,
                      calls w' = calls w ++ earlier
                                 ++ [ {| call_msg := msg; call_prior := prior;
                                         call_ts := last |} ]).
  { intros H. injection H as <- <- <-. split; [reflexivity|]. exists []. reflexivity. }
  destruct (CallWithGas mp msg prior ts) as [res | [ | text | prefix e]] eqn:Hcall;
    try (apply Hhere; exact Hrun).
  destruct (ChainTipSet mp (Parents ts)) as [ts' | err]; [|discriminate].
  destruct (IH ts' w1 w' r last Hrun) as (Hr & earlier & Hcalls).
  split; [exact Hr|].
  exists ({| call_msg := msg; call_prior := prior; call_ts := ts |} :: earlier).
  rewrite Hcalls. unfold w1. cbn [calls set_calls]. rewrite <- app_assoc. reflexivity.
Qed.

(** X7.  What [GasEstimateCallWithGas] returns can be replayed: the evaluator
    answers the returned result for the message as it was given, the
    returned prior messages and the returned tipset; that was its last
    invocation; and the prior messages are the sender's pending messages
    before the message's nonce. *)
Theorem call_with_gas_can_be_replayed (fuel : nat) (msgIn : Message)
  (currTS ts : TipSet) (w w' : World Cache) (res : InvocResult)
  (prior : list Message) :
  GasEstimateCallWithGas mp fuel msgIn currTS w = (Ret (res, prior, ts), w') ->
  CallWithGas mp msgIn prior ts = inl res
  /\ (exists earlier,
        calls w' = calls w ++ earlier
                   ++ [ {| call_msg := msgIn; call_prior := prior; call_ts := ts |} ])
  /\ (exists fromA,
        ResolveToDeterministicAddress mp (From_ msgIn) currTS = inl fromA
        /\ prior = priorTo (Nonce msgIn) (fst (PendingFor mp fromA))).
Proof.
  unfold GasEstimateCallWithGas, bind, wrapping, lift.
  destruct (ResolveToDeterministicAddress mp (From_ msgIn) currTS) as [fromA | err];
    cbn [ret fail]; [|discriminate].
  destruct (PendingFor mp fromA) as [pending ts0] eqn:Hpend.
  destruct (callUntilNoMigration mp fuel msgIn (priorTo (Nonce msgIn) pending) ts0 w)
    as [[[r | err] last | err | ] w1] eqn:Hloop; try discriminate.
  intros H. injection H as <- <- <- <-.
  destruct (loop_break_is_the_answer _ _ _ _ _ _ _ _ Hloop) as [Hr Hcalls].
  split; [exact Hr|]. split; [exact Hcalls|].
  exists fromA. split; [reflexivity|]. rewrite Hpend. reflexivity.
Qed.

(** X23.  A gas limit that [evalMessageGasLimit] returns comes from an
    execution of the probe message that the evaluator answered with the
    exit code Ok: it is the corrected gas usage of that answer, at the
    tipset of that invocation. *)
Theorem gas_limit_comes_from_ok_execution (fuel : nat) (msgIn : Message)
  (prior : list Message) (ts : TipSet) (w w' : World Cache) (g : Z) :
  evalMessageGasLimit mp fuel msgIn prior ts w = (Ret g, w') ->
  exists res last,
    CallWithGas mp (probeMessage mp msgIn) prior last = inl res
    /\ ExitCode (MsgRct res) = exitcode_Ok
    /\ g = correctedGas mp msgIn (probeMessage mp msgIn) last (GasUsed (MsgRct res)).
Proof.
  unfold evalMessageGasLimit.
  destruct (callUntilNoMigration mp fuel (probeMessage mp msgIn) prior ts w)
    as [[[res | err] last | err | ] w1] eqn:Hloop; try discriminate.
  destruct (ExitCode (MsgRct res) =? exitcode_Ok) eqn:Hok; cbn [negb]; [|discriminate].
  intros H. injection H as <- _.
  destruct (loop_break_is_the_answer _ _ _ _ _ _ _ _ Hloop) as [Hr _].
  exists res, last. apply Z.eqb_eq in Hok. auto.
Qed.

(** X24.  [GasEstimateGasLimit] uses the tipset of its key to resolve the
    sender and for nothing else: for two keys whose tipsets resolve the
    sender alike, it simulates the same message on the same prior
    messages at the same tipset, that of the pending messages, and
    answers the same. *)
Theorem gas_limit_key_only_resolves_sender (fuel : nat) (msgIn : Message)
  (tsk1 tsk2 : TipSetKey) (t1 t2 : TipSet) (w : World Cache) :
  IsEmpty tsk1 = false -> IsEmpty tsk2 = false ->
  ChainTipSet mp tsk1 = inl t1 -> ChainTipSet mp tsk2 = inl t2 ->
  ResolveToDeterministicAddress mp (From_ msgIn) t1
  = ResolveToDeterministicAddress mp (From_ msgIn) t2 ->
  GasEstimateGasLimit mp fuel msgIn tsk1 w = GasEstimateGasLimit mp fuel msgIn tsk2 w.
Proof.
  intros He1 He2 Ht1 Ht2 Hres.
  unfold GasEstimateGasLimit, bind, wrapping, lift, ret.
  rewrite He1, He2, Ht1, Ht2, Hres. reflexivity.
Qed.

End Estimates.

(** X8.  The prior messages are the pending ones up to the first that has the
    nonce: a prefix of the pending list, none of which has the nonce, cut
    right before a message that has it (or not cut at all). *)
Theorem priorTo_is_the_prefix_before_the_nonce (nonce : Z) (pending : list Message) :
  exists rest,
    pending = priorTo nonce pending ++ rest
    /\ Forall (fun m => Nonce m <> nonce) (priorTo nonce pending)
    /\ match rest with [] => True | m :: _ => Nonce m = nonce end.
Proof.
  induction pending as [|m pending (rest & Heq & Hall & Hcut)]; cbn [priorTo].
  - exists []. repeat split. constructor.
  - destruct (Nonce m =? nonce) eqn:Hm.
    + exists (m :: pending). apply Z.eqb_eq in Hm. repeat split; [constructor | exact Hm].
    + exists rest. apply Z.eqb_neq in Hm. cbn [app]. rewrite <- Heq.
      repeat split; [constructor; assumption | exact Hcut].
Qed.

Section SingleWrites.
Context {Cache : Type} (mp : MessagePool Cache).

(** Whatever [J] says of the heap and survives the four writes of the
    single-message path survives the call. *)
Lemma single_path_keeps (J : (ptr -> Message) -> Prop) (fuel : nat) (p : ptr)
  (spec : option SendSpec) (tsk : TipSetKey) (w : World Cache) :
  (forall h g, J h -> J (update p (with_GasLimit g (h p)) h)) ->
  (forall h x, J h -> J (update p (with_GasPremium x (h p)) h)) ->
  (forall h x, J h -> J (update p (with_GasFeeCap x (h p)) h)) ->
  (forall h a b, J h -> J (update p (with_GasPremium a (with_GasFeeCap b (h p))) h)) ->
  J (heap w) ->
  J (heap (snd (GasEstimateMessageGas mp fuel (Some {| Msg := Some p; Spec := spec |})
                  tsk w))).
Proof.
  intros Hlimit Hpremium Hcap Hboth HJ.
  change (post (GasEstimateMessageGas mp fuel (Some {| Msg := Some p; Spec := spec |}) tsk)
            w (fun _ w' => J (heap w'))).
  unfold GasEstimateMessageGas. cbn [Msg Spec].
  assert (Hend : forall w3, J (heap w3) ->
            post (bind (capGasFee mp p spec) (fun _ => ret p)) w3
                 (fun _ w' => J (heap w'))).
  { intros w3 H3. apply post_bind. unfold capGasFee. apply post_bind, post_load.
    destruct (CapGasFee mp (heap w3 p) spec) as [feeCap premium].
    apply post_store, post_ret. cbn [heap set_heap]. apply Hboth, H3. }
  assert (Hfee : forall w2, J (heap w2) ->
            post ((msg <- load p ;;
                   (if unset (GasFeeCap msg) then
                      feeCap <- wrapping "estimating fee cap"
                                  (GasEstimateFeeCap mp msg 20 EmptyTSK) ;;
                      store p (with_GasFeeCap (Some feeCap))
                    else ret tt) ;;;
                   capGasFee mp p spec ;;;
                   ret p)%pool) w2
                 (fun _ w' => J (heap w'))).
  { intros w2 H2. apply post_bind, post_load. apply post_bind.
    destruct (unset (GasFeeCap (heap w2 p))); [|apply post_ret, Hend, H2].
    apply post_bind, post_wrapping.
    eapply post_weaken; [apply (feecap_post mp 0)|].
    intros [feeCap | e | s0 | ] w3 [-> _]; try exact H2.
    apply post_store, Hend. cbn [heap set_heap]. apply Hcap, H2. }
  assert (Hprem : forall w1, J (heap w1) ->
            post ((msg <- load p ;;
                   (if unset (GasPremium msg) then
                      gasPremium <- wrapping "estimating gas price"
                                      (GasEstimateGasPremium mp 10 (From_ msg)
                                         (GasLimit msg) EmptyTSK) ;;
                      store p (with_GasPremium (Some (overPremium mp spec gasPremium)))
                    else ret tt) ;;;
                   msg <- load p ;;
                   (if unset (GasFeeCap msg) then
                      feeCap <- wrapping "estimating fee cap"
                                  (GasEstimateFeeCap mp msg 20 EmptyTSK) ;;
                      store p (with_GasFeeCap (Some feeCap))
                    else ret tt) ;;;
                   capGasFee mp p spec ;;;
                   ret p)%pool) w1
                 (fun _ w' => J (heap w'))).
  { intros w1 H1. apply post_bind, post_load. apply post_bind.
    destruct (unset (GasPremium (heap w1 p))); [|apply post_ret, Hfee, H1].
    apply post_bind, post_wrapping.
    eapply post_weaken; [apply premium_post|].
    intros [gasPremium | e | s0 | ] w2 [Hh _]; try (rewrite Hh; exact H1).
    apply post_store, Hfee. cbn [heap set_heap]. rewrite Hh. apply Hpremium, H1. }
  apply post_bind, post_load. apply post_bind.
  destruct (GasLimit (heap w p) =? 0); [|apply post_ret, Hprem, HJ].
  apply post_bind, post_wrapping.
  pose proof (GasEstimateGasLimit_heap mp fuel (heap w p) EmptyTSK w) as Hheap.
  unfold post at 1.
  destruct (GasEstimateGasLimit mp fuel (heap w p) EmptyTSK w) as [[g | e | s0 | ] w1];
    cbn [fst snd] in *; try (rewrite Hheap; exact HJ).
  apply post_store, Hprem. cbn [heap set_heap]. rewrite Hheap. apply Hlimit, HJ.
Qed.

(** X9.  The single-message path writes the gas limit, the premium and the fee
    cap of the message it is given and nothing else: every other message
    is left as it was, and so are the other fields of this one, however
    the call ends. *)
Theorem single_path_writes_gas_fields_only (fuel : nat) (p : ptr)
  (spec : option SendSpec) (tsk : TipSetKey) (w : World Cache) :
  let w' := snd (GasEstimateMessageGas mp fuel (Some {| Msg := Some p; Spec := spec |})
                   tsk w) in
  (forall q, q <> p -> heap w' q = heap w q)
  /\ sameButGas (heap w p) (heap w' p).
Proof.
  apply (single_path_keeps
           (fun h => (forall q, q <> p -> h q = heap w q) /\ sameButGas (heap w p) (h p))).
  - intros h g [Hf Hs]. unfold update. rewrite Nat.eqb_refl. split; [|exact Hs].
    intros q Hq. apply Nat.eqb_neq in Hq as Hq'. rewrite Hq'. auto.
  - intros h x [Hf Hs]. unfold update. rewrite Nat.eqb_refl. split; [|exact Hs].
    intros q Hq. apply Nat.eqb_neq in Hq as Hq'. rewrite Hq'. auto.
  - intros h x [Hf Hs]. unfold update. rewrite Nat.eqb_refl. split; [|exact Hs].
    intros q Hq. apply Nat.eqb_neq in Hq as Hq'. rewrite Hq'. auto.
  - intros h a b [Hf Hs]. unfold update. rewrite Nat.eqb_refl. split; [|exact Hs].
    intros q Hq. apply Nat.eqb_neq in Hq as Hq'. rewrite Hq'. auto.
  - split; [reflexivity | unfold sameButGas; tauto].
Qed.

(** X10.  A message that comes with its gas limit, premium and fee cap is not
    estimated at all: no collaborator is consulted, and the only write is
    that of the spend cap. *)
Theorem complete_message_is_only_capped (fuel : nat) (p : ptr)
  (spec : option SendSpec) (tsk : TipSetKey) (w : World Cache) :
  GasLimit (heap w p) <> 0 ->
  unset (GasPremium (heap w p)) = false ->
  unset (GasFeeCap (heap w p)) = false ->
  GasEstimateMessageGas mp fuel (Some {| Msg := Some p; Spec := spec |}) tsk w
  = (Ret p,
     set_heap (update p (with_GasPremium (snd (CapGasFee mp (heap w p) spec))
                           (with_GasFeeCap (fst (CapGasFee mp (heap w p) spec))
                              (heap w p)))
                      (heap w)) w).
Proof.
  intros Hlimit Hprem Hcap. apply Z.eqb_neq in Hlimit.
  unfold GasEstimateMessageGas, capGasFee, bind, load, store, ret. cbn [Msg Spec].
  rewrite Hlimit, Hprem, Hcap.
  destruct (CapGasFee mp (heap w p) spec) as [feeCap premium]. reflexivity.
Qed.

(** X11.  A gas-limit estimation that fails fails the call, under the prefix
    "estimating gas used", and the message is as it was. *)
Theorem failed_estimate_leaves_the_message (fuel : nat) (p : ptr)
  (spec : option SendSpec) (tsk : TipSetKey) (w w1 : World Cache) (e : error) :
  GasLimit (heap w p) = 0 ->
  GasEstimateGasLimit mp fuel (heap w p) EmptyTSK w = (Fail e, w1) ->
  GasEstimateMessageGas mp fuel (Some {| Msg := Some p; Spec := spec |}) tsk w
  = (Fail (ErrWrap "estimating gas used" e), w1)
  /\ heap w1 = heap w.
Proof.
  intros Hunset Hrun. split.
  - unfold GasEstimateMessageGas, bind, load, wrapping. cbn [Msg Spec].
    rewrite Hunset. cbn [Z.eqb]. rewrite Hrun. reflexivity.
  - pose proof (GasEstimateGasLimit_heap mp fuel (heap w p) EmptyTSK w) as H.
    rewrite Hrun in H. exact H.
Qed.

End SingleWrites.

Section BatchContext.
Context {Cache : Type} (mp : MessagePool Cache).




Lemma silent_post {A} (m : M Cache A) (w : World Cache) (L : list Call) :
  silent m -> calls w = L -> post m w (fun _ w' => calls w' = L).
Proof. intros Hq <-. apply Hq. Qed.


















End BatchContext.

(** * The tipset height index *)

Section Index.

Import ChainIndex.
Context (ci : Index).

Lemma walkLoop_descends (fuel : nat) :
  forall ts to r,
    to < Height ts ->
    walkLoop ci fuel ts to = Ret r -> descends ci to ts r.
Proof.
  induction fuel as [|fuel IH]; intros ts to r Hlt Hrun; [discriminate|].
  cbn [walkLoop] in Hrun.
  destruct (loadTipSet ci (Parents ts)) as [pts|err] eqn:Hload; [|discriminate].
  destruct (Height pts <? to) eqn:Hbelow.
  - injection Hrun as <-. apply Z.ltb_lt in Hbelow. eapply d_above; eauto.
  - apply Z.ltb_ge in Hbelow.
    destruct (to =? Height pts) eqn:Hat.
    + injection Hrun as <-. apply Z.eqb_eq in Hat. eapply d_hit; eauto.
    + apply Z.eqb_neq in Hat. eapply d_next; eauto; [lia|]. apply IH; [lia|exact Hrun].
Qed.

Lemma walkBack_walks (fuel : nat) (from : TipSet) (to : Z) (r : TipSet) :
  walkBack ci fuel from to = Ret r -> walks ci from to r.
Proof.
  unfold walkBack. intros Hrun.
  destruct (Height from <? to) eqn:Habove; [discriminate|]. apply Z.ltb_ge in Habove.
  destruct (to =? Height from) eqn:Hat.
  - injection Hrun as <-. apply Z.eqb_eq in Hat. left. auto.
  - apply Z.eqb_neq in Hat. right. split; [lia|]. apply walkLoop_descends with fuel; [lia|exact Hrun].
Qed.

Lemma descends_walkLoop (to : Z) (ts r : TipSet) :
  descends ci to ts r ->
  exists n, forall fuel, (n <= fuel)%nat -> walkLoop ci fuel ts to = Ret r.
Proof.
  induction 1 as [ts p Hload Hlt|ts p Hload Heq|ts p r Hload Hlt Hd [n IH]].
  - exists 1%nat. intros [|fuel] Hle; [lia|]. cbn [walkLoop]. rewrite Hload.
    apply Z.ltb_lt in Hlt. rewrite Hlt. reflexivity.
  - exists 1%nat. intros [|fuel] Hle; [lia|]. cbn [walkLoop]. rewrite Hload.
    replace (Height p <? to) with false by (symmetry; apply Z.ltb_ge; lia).
    replace (to =? Height p) with true by (symmetry; apply Z.eqb_eq; lia). reflexivity.
  - exists (S n). intros [|fuel] Hle; [lia|]. cbn [walkLoop]. rewrite Hload.
    replace (Height p <? to) with false by (symmetry; apply Z.ltb_ge; lia).
    replace (to =? Height p) with false by (symmetry; apply Z.eqb_neq; lia).
    apply IH. lia.
Qed.

Lemma walks_walkBack (from : TipSet) (to : Z) (r : TipSet) :
  walks ci from to r ->
  exists n, forall fuel, (n <= fuel)%nat -> walkBack ci fuel from to = Ret r.
Proof.
  intros [[Hat ->]|[Hlt Hd]].
  - exists O. intros fuel _. unfold walkBack.
    replace (Height from <? to) with false by (symmetry; apply Z.ltb_ge; lia).
    replace (to =? Height from) with true by (symmetry; apply Z.eqb_eq; lia). reflexivity.
  - destruct (descends_walkLoop _ _ _ Hd) as [n Hn]. exists n. intros fuel Hle.
    unfold walkBack.
    replace (Height from <? to) with false by (symmetry; apply Z.ltb_ge; lia).
    replace (to =? Height from) with false by (symmetry; apply Z.eqb_neq; lia).
    apply Hn, Hle.
Qed.

Lemma walks_functional (from : TipSet) (to : Z) (r r' : TipSet) :
  walks ci from to r -> walks ci from to r' -> r = r'.
Proof.
  intros H H'.
  destruct (walks_walkBack _ _ _ H) as [n Hn].
  destruct (walks_walkBack _ _ _ H') as [n' Hn'].
  specialize (Hn (Nat.max n n') (Nat.le_max_l _ _)).
  specialize (Hn' (Nat.max n n') (Nat.le_max_r _ _)).
  congruence.
Qed.

Lemma descends_lands (to : Z) (ts r : TipSet) :
  descends ci to ts r -> to < Height ts ->
  to <= Height r
  /\ (Height r = to
      \/ exists p, loadTipSet ci (Parents r) = inl p /\ Height p < to).
Proof.
  induction 1 as [ts p Hload Hlt|ts p Hload Heq|ts p r Hload Hlt Hd IH]; intros Hts.
  - split; [lia|]. right. eauto.
  - split; [lia|]. left. exact Heq.
  - apply IH. exact Hlt.
Qed.

Lemma walks_compose (a m r : TipSet) (mid to : Z) :
  walks ci a mid m -> walks ci m to r -> to <= mid -> walks ci a to r.
Proof.
  intros [[Hat ->]|[Hlt Hd]] Hm Hle; [exact Hm|].
  induction Hd as [ts p Hload Hbelow|ts p Hload Heq|ts p m Hload Hover Hd IH].
  - exact Hm.
  - right. split; [lia|].
    destruct Hm as [[Hat ->]|[Hlt' Hd']].
    + eapply d_hit; eauto.
    + eapply d_next; eauto.
  - right. split; [lia|].
    destruct (IH Hover Hm) as [[Hat ->]|[Hlt' Hd']].
    + eapply d_hit; eauto.
    + eapply d_next; eauto.
Qed.

Lemma descends_stored (to : Z) (ts r : TipSet) :
  descends ci to ts r -> r = ts \/ exists k, loadTipSet ci k = inl r.
Proof.
  induction 1 as [ts p Hload Hlt|ts p Hload Heq|ts p r Hload Hlt Hd IH].
  - left. reflexivity.
  - right. eauto.
  - right. destruct IH as [->|IH]; eauto.
Qed.

Lemma walks_stored (k : TipSetKey) (from r : TipSet) (to : Z) :
  loadTipSet ci k = inl from -> walks ci from to r ->
  exists k', loadTipSet ci k' = inl r.
Proof.
  intros Hfrom [[_ ->]|[_ Hd]]; [eauto|].
  destruct (descends_stored _ _ _ Hd) as [->|H]; eauto.
Qed.

Lemma descends_exact (to : Z) (ts r : TipSet) :
  consistent ci ->
  descends ci to ts r ->
  (exists k, loadTipSet ci k = inl ts) ->
  walks ci ts (Height r) r.
Proof.
  intros Hc.
  induction 1 as [ts p Hload Hlt|ts p Hload Heq|ts p r Hload Hlt Hd IH]; intros [k Hts].
  - left. auto.
  - right. destruct (Hc _ _ Hts) as [_ Hup]. split; [apply Hup, Hload|].
    eapply d_hit; eauto.
  - destruct (Hc _ _ Hts) as [_ Hup]. specialize (Hup _ Hload).
    destruct (IH (ex_intro _ _ Hload)) as [[Hat ->]|[Hlt' Hd']].
    + right. split; [lia|]. eapply d_hit; eauto.
    + right. split; [lia|]. eapply d_next; eauto.
Qed.

Lemma walks_exact (k : TipSetKey) (ts r : TipSet) (to : Z) :
  consistent ci ->
  loadTipSet ci k = inl ts ->
  walks ci ts to r ->
  walks ci ts (Height r) r.
Proof.
  intros Hc Hts [[_ ->]|[_ Hd]]; [left; auto|].
  eapply descends_exact; eauto.
Qed.

Lemma walks_height (from r : TipSet) (to : Z) :
  walks ci from to r -> to <= Height r.
Proof.
  intros [[-> ->]|[Hlt Hd]]; [lia|]. apply (descends_lands _ _ _ Hd Hlt).
Qed.

Lemma walks_parent (k : TipSetKey) (ts p r : TipSet) (to : Z) :
  consistent ci ->
  loadTipSet ci k = inl ts ->
  loadTipSet ci (Parents ts) = inl p ->
  walks ci p to r ->
  Height r < Height ts /\ descends ci (Height r) ts r.
Proof.
  intros Hc Hts Hp Hw.
  destruct (Hc _ _ Hts) as [_ Hup]. specialize (Hup _ Hp).
  pose proof (walks_exact _ _ _ _ Hc Hp Hw) as [[Hat ->]|[Hlt Hd]].
  - split; [lia|]. eapply d_hit; eauto.
  - split; [lia|]. eapply d_next; eauto.
Qed.

Lemma cache_insert_same (k : TipSetKey) (e : lbEntry) (c : IndexCache) :
  insert k e c k = Some e.
Proof. unfold insert, key_eqb. destruct (list_eq_dec Z.eq_dec k k); congruence. Qed.

Lemma cache_insert_other (k k' : TipSetKey) (e : lbEntry) (c : IndexCache) :
  k' <> k -> insert k e c k' = c k'.
Proof. unfold insert, key_eqb. intros H. destruct (list_eq_dec Z.eq_dec k' k); congruence. Qed.

Lemma fillCache_valid (fuel : nat) (k : TipSetKey) (c c' : IndexCache) (e : lbEntry) :
  consistent ci -> validCache ci c ->
  fillCache ci fuel k c = (Ret e, c') ->
  validEntry ci k e /\ validCache ci c'
  /\ (forall k', k' <> k -> c' k' = c k').
Proof.
  intros Hc Hv. unfold fillCache.
  destruct (loadTipSet ci k) as [ts|err] eqn:Hts; [|discriminate].
  destruct (Height ts =? 0) eqn:Hgen.
  { intros [= <- <-]. apply Z.eqb_eq in Hgen. split; [|split; auto].
    exists ts, ts. cbn. repeat split; auto. left. auto. }
  destruct (loadTipSet ci (Parents ts)) as [parent|err] eqn:Hp; [|discriminate].
  set (rh := if Int64.sub (roundHeight ci (Height ts)) (skipLength ci) <? 0 then 0
             else Int64.sub (roundHeight ci (Height ts)) (skipLength ci)).
  assert (Hjump : forall t, (if Height parent <? rh then Ret parent
                             else match walkBack ci fuel parent rh with
                                  | Fail err => Fail (ErrWrap "fillCache walkback" err)
                                  | o => o end) = Ret t ->
                            validEntry ci k {| targetHeight := Height t; target := Key t |}
                            /\ Height t < Height ts).
  { intros t Ht.
    assert (Hw : exists x, walks ci parent x t).
    { destruct (Height parent <? rh).
      - injection Ht as <-. exists (Height parent). left. auto.
      - destruct (walkBack ci fuel parent rh) eqn:Hwb; try discriminate.
        injection Ht as <-. exists rh. eapply walkBack_walks; eauto. }
    destruct Hw as [x Hw].
    destruct (walks_stored _ _ _ _ Hp Hw) as [k' Hk'].
    destruct (walks_parent _ _ _ _ _ Hc Hts Hp Hw) as [Hlow Hd].
    split; [|exact Hlow].
    exists ts, t. cbn. split; [exact Hts|]. split.
    - destruct (Hc _ _ Hk') as [-> _]. exact Hk'.
    - split; [reflexivity|]. right. auto. }
  fold rh.
  destruct (if Height parent <? rh then Ret parent
            else match walkBack ci fuel parent rh with
                 | Fail err => Fail (ErrWrap "fillCache walkback" err)
                 | o => o end) as [t| | |] eqn:Hskip; try discriminate.
  intros [= <- <-]. destruct (Hjump t eq_refl) as [Hentry Hlow].
  split; [exact Hentry|]. split.
  - intros k' e' He'. destruct (list_eq_dec Z.eq_dec k' k) as [->|Hne].
    + rewrite cache_insert_same in He'. injection He' as <-. split; [exact Hentry|].
      intros ts' Hts'. rewrite Hts in Hts'. injection Hts' as <-. exact Hlow.
    + rewrite cache_insert_other in He' by exact Hne. apply Hv, He'.
  - intros k' Hne. apply cache_insert_other, Hne.
Qed.

Lemma lookupLoop_walks (fuel inner : nat) (to : Z) :
  consistent ci ->
  forall cur tcur c r c',
    validCache ci c ->
    loadTipSet ci cur = inl tcur ->
    lookupLoop ci fuel inner cur to c = (Ret r, c') ->
    walks ci tcur to r /\ validCache ci c'.
Proof.
  intros Hc. induction fuel as [|fuel IH]; intros cur tcur c r c' Hv Hcur Hrun;
    [discriminate|].
  cbn [lookupLoop] in Hrun.
  assert (Hfilled : forall e c1,
    match c cur with
    | Some lbe => (Ret lbe, c)
    | None => match fillCache ci inner cur c with
              | (Fail err, c') => (Fail (ErrWrap "failed to fill cache" err), c')
              | r => r end
    end = (Ret e, c1) -> validEntry ci cur e /\ validCache ci c1).
  { intros e c1. destruct (c cur) as [lbe|] eqn:Hhit.
    - intros [= <- <-]. split; [apply (Hv _ _ Hhit)|exact Hv].
    - destruct (fillCache ci inner cur c) as [[e'| | |] c2] eqn:Hfill; try discriminate.
      intros [= <- <-]. destruct (fillCache_valid _ _ _ _ _ Hc Hv Hfill) as (He & Hv' & _).
      auto. }
  destruct (match c cur with
    | Some lbe => (Ret lbe, c)
    | None => match fillCache ci inner cur c with
              | (Fail err, c') => (Fail (ErrWrap "failed to fill cache" err), c')
              | r => r end
    end) as [[e| | |] c1] eqn:Hf; try discriminate.
  destruct (Hfilled e c1 eq_refl) as [(ts & t & Hts & Ht & Hh & Hw) Hv1].
  rewrite Hcur in Hts. injection Hts as <-.
  destruct (to =? targetHeight e) eqn:Hat.
  - apply Z.eqb_eq in Hat. rewrite Ht in Hrun. injection Hrun as <- <-.
    split; [|exact Hv1]. rewrite Hat. exact Hw.
  - apply Z.eqb_neq in Hat. destruct (targetHeight e <? to) eqn:Hlow.
    + rewrite Hcur in Hrun. injection Hrun as Hrun <-.
      split; [|exact Hv1]. eapply walkBack_walks; eauto.
    + apply Z.ltb_ge in Hlow.
      destruct (IH _ _ _ _ _ Hv1 Ht Hrun) as [Hw' Hv'].
      split; [|exact Hv']. eapply walks_compose; eauto.
Qed.


Lemma quot_bounds (h s : Z) :
  0 < s ->
  Z.min h 0 <= Z.quot h s <= Z.max h 0
  /\ Z.min h 0 <= Z.quot h s * s <= Z.max h 0.
Proof.
  intros Hpos.
  assert (Hnn : forall a, 0 <= a -> 0 <= Z.quot a s /\ Z.quot a s * s <= a).
  { intros a Ha. pose proof (Z.quot_rem' a s). pose proof (Z.rem_bound_pos a s Ha Hpos).
    pose proof (Z.quot_pos a s Ha Hpos). lia. }
  destruct (Z.le_gt_cases 0 h) as [Hh|Hh].
  - destruct (Hnn h Hh). nia.
  - destruct (Hnn (- h) ltac:(lia)) as [H1 H2].
    rewrite Z.quot_opp_l in H1, H2 by lia. nia.
Qed.

Lemma roundHeight_exact (h : Z) :
  0 < skipLength ci -> Int64.in_range (skipLength ci) -> Int64.in_range h ->
  roundHeight ci h = Z.quot h (skipLength ci) * skipLength ci.
Proof.
  intros Hpos Hs Hh. unfold roundHeight, Int64.mul, Int64.quot.
  destruct (quot_bounds h _ Hpos) as [H1 H2].
  unfold Int64.in_range, Int64.min_int, Int64.max_int in *.
  rewrite (Int64_wrap_id (Z.quot h (skipLength ci))).
  - apply Int64_wrap_id. unfold Int64.in_range, Int64.min_int, Int64.max_int. lia.
  - unfold Int64.in_range, Int64.min_int, Int64.max_int. lia.
Qed.

Lemma roundHeight_within (h : Z) :
  0 < skipLength ci -> Int64.in_range (skipLength ci) ->
  0 <= h -> Int64.in_range h ->
  0 <= roundHeight ci h <= h.
Proof.
  intros Hpos Hs Hh Hr. rewrite roundHeight_exact by assumption.
  pose proof (Z.quot_rem' h (skipLength ci)) as Hqr.
  pose proof (Z.rem_bound_pos h (skipLength ci) Hh Hpos).
  pose proof (Z.quot_pos h (skipLength ci) Hh Hpos).
  split; [nia|lia].
Qed.

(** X13.  [roundHeight] of a height that is not negative is the multiple of
    [skipLength] at or below it. *)
Theorem roundHeight_floors (h : Z) :
  0 < skipLength ci -> Int64.in_range (skipLength ci) ->
  0 <= h -> Int64.in_range h ->
  roundHeight ci h <= h < roundHeight ci h + skipLength ci
  /\ 0 <= roundHeight ci h
  /\ roundHeight ci h mod skipLength ci = 0.
Proof.
  intros Hpos Hs Hh Hr. rewrite roundHeight_exact by assumption.
  pose proof (Z.quot_rem' h (skipLength ci)) as Hqr.
  pose proof (Z.rem_bound_pos h (skipLength ci) Hh Hpos).
  pose proof (Z.quot_pos h (skipLength ci) Hh Hpos).
  split; [lia|]. split; [nia|]. apply Z_mod_mult.
Qed.

Lemma roundHeight_near (h : Z) :
  0 < skipLength ci -> Int64.in_range (skipLength ci) -> Int64.in_range h ->
  h - skipLength ci < roundHeight ci h.
Proof.
  intros Hpos Hs Hr. rewrite roundHeight_exact by assumption.
  pose proof (Z.quot_rem' h (skipLength ci)) as Hqr.
  pose proof (Z.rem_bound_abs h (skipLength ci) ltac:(lia)). lia.
Qed.

(** X14.  The tipset [walkBack] answers is never below the height asked, and is
    above it only when its parent is below it: the lowest tipset of the
    walk at or above the height. *)
Theorem walkBack_lands (fuel : nat) (from : TipSet) (to : Z) (r : TipSet) :
  walkBack ci fuel from to = Ret r ->
  to <= Height r
  /\ (Height r = to
      \/ exists p, loadTipSet ci (Parents r) = inl p /\ Height p < to).
Proof.
  intros Hrun. destruct (walkBack_walks _ _ _ _ Hrun) as [[-> ->]|[Hlt Hd]].
  - split; [lia|]. left. reflexivity.
  - apply (descends_lands _ _ _ Hd Hlt).
Qed.

Lemma walkLoop_total (to : Z) (ts : TipSet) :
  grounded ci ts ->
  forall fuel, 0 <= to < Height ts -> (Z.to_nat (Height ts - to) <= fuel)%nat ->
  exists r, walkLoop ci fuel ts to = Ret r /\ Height r <= Height ts.
Proof.
  induction 1 as [ts Hgen|ts p Hload Hp Hg IH]; intros fuel Hto Hfuel; [lia|].
  destruct fuel as [|fuel]; [lia|]. cbn [walkLoop]. rewrite Hload.
  destruct (Height p <? to) eqn:Hbelow; [exists ts; split; [reflexivity|lia]|].
  apply Z.ltb_ge in Hbelow.
  destruct (to =? Height p) eqn:Hat; [exists p; split; [reflexivity|lia]|].
  apply Z.eqb_neq in Hat.
  destruct (IH fuel ltac:(lia) ltac:(lia)) as (r & Hr & Hle).
  exists r. split; [exact Hr|lia].
Qed.

Lemma walkBack_returns (fuel : nat) (from : TipSet) (to : Z) :
  grounded ci from ->
  0 <= to <= Height from ->
  (Z.to_nat (Height from - to) <= fuel)%nat ->
  exists r, walkBack ci fuel from to = Ret r /\ Height r <= Height from.
Proof.
  intros Hg Hto Hfuel. unfold walkBack.
  replace (Height from <? to) with false by (symmetry; apply Z.ltb_ge; lia).
  destruct (to =? Height from) eqn:Hat; [exists from; split; [reflexivity|lia]|].
  apply Z.eqb_neq in Hat.
  apply walkLoop_total; auto. lia.
Qed.

(** X15.  On a chain that goes down to a tipset of height 0, [walkBack] answers
    every height from 0 to the height it starts at, in no more steps than
    the distance, with a tipset between the two heights. *)
Theorem walkBack_total (fuel : nat) (from : TipSet) (to : Z) :
  grounded ci from ->
  0 <= to <= Height from ->
  (Z.to_nat (Height from - to) <= fuel)%nat ->
  exists r, walkBack ci fuel from to = Ret r /\ to <= Height r <= Height from.
Proof.
  intros Hg Hto Hfuel.
  destruct (walkBack_returns fuel from to Hg Hto Hfuel) as (r & Hrun & Hle).
  exists r. split; [exact Hrun|]. split; [|exact Hle].
  apply (walks_height from r to). eapply walkBack_walks; eauto.
Qed.

(** X16.  What [GetTipSetByHeight] answers through the cache is what the walk
    without the cache answers, and the cache it leaves is again one of
    jumps the walk would make. *)
Theorem index_agrees_with_walk (fuel : nat) (from : TipSet) (to : Z)
    (c c' : IndexCache) (r : TipSet) :
  consistent ci -> validCache ci c ->
  loadTipSet ci (Key from) = inl from ->
  0 < skipLength ci -> Int64.in_range (skipLength ci) ->
  Int64.in_range (Height from) -> Int64.in_range (Height from - to) ->
  GetTipSetByHeight ci fuel from to c = (Ret r, c') ->
  (exists n, forall fuel', (n <= fuel')%nat ->
     GetTipsetByHeightWithoutCache ci fuel' from to = Ret r)
  /\ validCache ci c'.
Proof.
  intros Hc Hv Hfrom Hpos Hs Hh Hd. unfold GetTipSetByHeight, GetTipsetByHeightWithoutCache.
  unfold Int64.sub. rewrite (Int64_wrap_id _ Hd).
  destruct (Height from - to <=? skipLength ci) eqn:Hnear.
  - intros [= Hrun <-]. split; [|exact Hv].
    apply walks_walkBack. eapply walkBack_walks; eauto.
  - apply Z.leb_gt in Hnear. unfold roundDown.
    destruct (walkBack ci fuel from (roundHeight ci (Height from))) as [rounded| | |] eqn:Hround;
      try discriminate.
    intros Hrun. apply walkBack_walks in Hround.
    destruct (walks_stored _ _ _ _ Hfrom Hround) as [k Hk].
    assert (Hkey : loadTipSet ci (Key rounded) = inl rounded).
    { destruct (Hc _ _ Hk) as [-> _]. exact Hk. }
    destruct (lookupLoop_walks _ _ _ Hc _ _ _ _ _ Hv Hkey Hrun) as [Hw Hv'].
    split; [|exact Hv']. apply walks_walkBack.
    eapply walks_compose; eauto.
    pose proof (roundHeight_near (Height from) Hpos Hs Hh). lia.
Qed.


Lemma grounded_nonneg (ts : TipSet) : grounded ci ts -> 0 <= Height ts.
Proof. destruct 1; lia. Qed.

Lemma walkLoop_runs (to : Z) (ts : TipSet) :
  grounded ci ts ->
  forall fuel, 0 <= to < Height ts ->
  (exists r, walkLoop ci fuel ts to = Ret r) \/ walkLoop ci fuel ts to = Spinning.
Proof.
  induction 1 as [ts Hgen|ts p Hload Hp Hg IH]; intros fuel Hto; [lia|].
  destruct fuel as [|fuel]; [right; reflexivity|]. cbn [walkLoop]. rewrite Hload.
  destruct (Height p <? to) eqn:Hbelow; [eauto|]. apply Z.ltb_ge in Hbelow.
  destruct (to =? Height p) eqn:Hat; [eauto|]. apply Z.eqb_neq in Hat.
  apply IH; lia.
Qed.

Lemma walkBack_runs (fuel : nat) (from : TipSet) (to : Z) :
  grounded ci from ->
  0 <= to <= Height from ->
  (exists r, walkBack ci fuel from to = Ret r) \/ walkBack ci fuel from to = Spinning.
Proof.
  intros Hg Hto. unfold walkBack.
  replace (Height from <? to) with false by (symmetry; apply Z.ltb_ge; lia).
  destruct (to =? Height from) eqn:Hat; [eauto|]. apply Z.eqb_neq in Hat.
  apply walkLoop_runs; auto. lia.
Qed.

Lemma walks_below (k : TipSetKey) (from r : TipSet) (to : Z) :
  consistent ci -> loadTipSet ci k = inl from -> walks ci from to r ->
  Height r <= Height from.
Proof.
  intros Hc Hk Hw. destruct (walks_exact _ _ _ _ Hc Hk Hw) as [[-> _]|[Hlt _]]; lia.
Qed.

Lemma fillCache_steps (fuel : nat) (k : TipSetKey) (ts : TipSet) (c : IndexCache) :
  rooted ci ->
  loadTipSet ci k = inl ts ->
  (exists e c', fillCache ci fuel k c = (Ret e, c'))
  \/ (fillCache ci fuel k c = (Spinning, c) /\ (fuel < Z.to_nat (Height ts))%nat).
Proof.
  intros Hr Hts. unfold fillCache. rewrite Hts.
  destruct (Height ts =? 0) eqn:Hgen; [left; eauto|]. apply Z.eqb_neq in Hgen.
  destruct (Hr _ _ Hts) as [ts Hz|ts p Hload Hp Hg]; [contradiction|].
  rewrite Hload.
  set (rh := if Int64.sub (roundHeight ci (Height ts)) (skipLength ci) <? 0 then 0
             else Int64.sub (roundHeight ci (Height ts)) (skipLength ci)).
  assert (Hrh : 0 <= rh).
  { unfold rh. destruct (Int64.sub (roundHeight ci (Height ts)) (skipLength ci) <? 0) eqn:Hneg;
      [lia|]. apply Z.ltb_ge in Hneg. exact Hneg. }
  destruct (Height p <? rh) eqn:Hbelow; [left; eauto|]. apply Z.ltb_ge in Hbelow.
  destruct (walkBack_runs fuel p rh Hg ltac:(lia)) as [[r Hrun]|Hspin].
  - rewrite Hrun. left. eauto.
  - rewrite Hspin. right. split; [reflexivity|].
    destruct (Nat.lt_ge_cases fuel (Z.to_nat (Height ts))) as [Hlt|Hge]; [exact Hlt|].
    destruct (walkBack_returns fuel p rh Hg ltac:(lia) ltac:(lia)) as (r & Hrun & _). congruence.
Qed.

Lemma lookupLoop_total (inner : nat) (to : Z) :
  consistent ci -> rooted ci ->
  forall fuel cur tcur c,
    validCache ci c ->
    loadTipSet ci cur = inl tcur ->
    0 <= to < Height tcur ->
    (Z.to_nat (Height tcur) <= fuel)%nat ->
    (Z.to_nat (Height tcur) <= inner)%nat ->
    exists r c', lookupLoop ci fuel inner cur to c = (Ret r, c').
Proof.
  intros Hc Hr. induction fuel as [|fuel IH]; intros cur tcur c Hv Hcur Hto Hfuel Hinner;
    [lia|].
  cbn [lookupLoop].
  assert (Hfilled : exists e c1,
    match c cur with
    | Some lbe => (Ret lbe, c)
    | None => match fillCache ci inner cur c with
              | (Fail err, c') => (Fail (ErrWrap "failed to fill cache" err), c')
              | r => r end
    end = (Ret e, c1)
    /\ validCache ci c1 /\ validEntry ci cur e /\ targetHeight e < Height tcur).
  { destruct (c cur) as [lbe|] eqn:Hhit.
    - exists lbe, c. destruct (Hv _ _ Hhit) as [He Hlow]. auto.
    - destruct (fillCache_steps inner cur tcur c Hr Hcur) as [(e & c1 & Hfill)|[_ Hlt]]; [|lia].
      rewrite Hfill. exists e, c1. split; [reflexivity|].
      destruct (fillCache_valid _ _ _ _ _ Hc Hv Hfill) as (He & Hv1 & _).
      split; [exact Hv1|]. split; [exact He|].
      assert (Hin : c1 cur = Some e).
      { revert Hfill. unfold fillCache. rewrite Hcur.
        replace (Height tcur =? 0) with false by (symmetry; apply Z.eqb_neq; lia).
        destruct (loadTipSet ci (Parents tcur)); [|discriminate].
        match goal with |- context [match ?x with Ret _ => _ | _ => _ end] => destruct x end;
          try discriminate.
        intros [= <- <-]. apply cache_insert_same. }
      apply (proj2 (Hv1 _ _ Hin)), Hcur. }
  destruct Hfilled as (e & c1 & -> & Hv1 & (ts & t & Hts & Ht & Hh & Hw) & Hlow).
  rewrite Hcur in Hts. injection Hts as <-.
  destruct (to =? targetHeight e) eqn:Hat.
  - rewrite Ht. eauto.
  - apply Z.eqb_neq in Hat. destruct (targetHeight e <? to) eqn:Hbelow.
    + rewrite Hcur.
      destruct (walkBack_returns inner tcur to (Hr _ _ Hcur) ltac:(lia) ltac:(lia)) as (r & -> & _).
      eauto.
    + apply Z.ltb_ge in Hbelow. apply (IH _ t); auto; lia.
Qed.

(** X17.  On a rooted chain [GetTipSetByHeight] answers every height from 0 to
    the height it starts at. *)
Theorem index_answers (fuel : nat) (from : TipSet) (to : Z) (c : IndexCache) :
  consistent ci -> rooted ci -> validCache ci c ->
  loadTipSet ci (Key from) = inl from ->
  0 < skipLength ci -> Int64.in_range (skipLength ci) ->
  Int64.in_range (Height from) ->
  0 <= to <= Height from ->
  (Z.to_nat (Height from) <= fuel)%nat ->
  exists r c', GetTipSetByHeight ci fuel from to c = (Ret r, c').
Proof.
  intros Hc Hr Hv Hfrom Hpos Hs Hh Hto Hfuel. unfold GetTipSetByHeight.
  assert (Hd : Int64.in_range (Height from - to)).
  { unfold Int64.in_range, Int64.min_int, Int64.max_int in *. lia. }
  unfold Int64.sub. rewrite (Int64_wrap_id _ Hd).
  destruct (Height from - to <=? skipLength ci) eqn:Hnear.
  - destruct (walkBack_returns fuel from to (Hr _ _ Hfrom) Hto ltac:(lia)) as (r & -> & _). eauto.
  - apply Z.leb_gt in Hnear. unfold roundDown.
    destruct (roundHeight_within (Height from) Hpos Hs ltac:(lia) Hh) as (Hrh0 & Hrh).
    destruct (walkBack_returns fuel from (roundHeight ci (Height from)) (Hr _ _ Hfrom)
                ltac:(lia) ltac:(lia)) as (rounded & Hround & _).
    rewrite Hround. apply walkBack_walks in Hround.
    destruct (walks_stored _ _ _ _ Hfrom Hround) as [k Hk].
    assert (Hkey : loadTipSet ci (Key rounded) = inl rounded).
    { destruct (Hc _ _ Hk) as [-> _]. exact Hk. }
    pose proof (walks_height _ _ _ Hround).
    pose proof (walks_below _ _ _ _ Hc Hfrom Hround).
    pose proof (roundHeight_near (Height from) Hpos Hs Hh).
    apply (lookupLoop_total fuel to Hc Hr fuel _ rounded); auto; lia.
Qed.

Lemma lookupLoop_spins (inner : nat) (to : Z) :
  consistent ci -> rooted ci -> to < 0 ->
  forall fuel cur tcur c,
    validCache ci c ->
    loadTipSet ci cur = inl tcur ->
    fst (lookupLoop ci fuel inner cur to c) = Spinning.
Proof.
  intros Hc Hr Hneg. induction fuel as [|fuel IH]; intros cur tcur c Hv Hcur;
    [reflexivity|].
  cbn [lookupLoop].
  assert (Hfilled :
    (exists e c1,
      match c cur with
      | Some lbe => (Ret lbe, c)
      | None => match fillCache ci inner cur c with
                | (Fail err, c') => (Fail (ErrWrap "failed to fill cache" err), c')
                | r => r end
      end = (Ret e, c1) /\ validCache ci c1 /\ validEntry ci cur e)
    \/ match c cur with
       | Some lbe => (Ret lbe, c)
       | None => match fillCache ci inner cur c with
                 | (Fail err, c') => (Fail (ErrWrap "failed to fill cache" err), c')
                 | r => r end
       end = (Spinning, c)).
  { destruct (c cur) as [lbe|] eqn:Hhit.
    - left. exists lbe, c. destruct (Hv _ _ Hhit) as [He Hlow]. auto.
    - destruct (fillCache_steps inner cur tcur c Hr Hcur) as [(e & c1 & Hfill)|[Hspin _]].
      + left. rewrite Hfill. exists e, c1. split; [reflexivity|].
        destruct (fillCache_valid _ _ _ _ _ Hc Hv Hfill) as (He & Hv1 & _). auto.
      + right. rewrite Hspin. reflexivity. }
  destruct Hfilled as [(e & c1 & -> & Hv1 & (ts & t & Hts & Ht & Hh & Hw))| ->];
    [|reflexivity].
  pose proof (grounded_nonneg _ (Hr _ _ Ht)).
  replace (to =? targetHeight e) with false by (symmetry; apply Z.eqb_neq; lia).
  replace (targetHeight e <? to) with false by (symmetry; apply Z.ltb_ge; lia).
  apply (IH _ t); auto.
Qed.

(** X18.  Asked for a negative height more than [skipLength] below its start,
    [GetTipSetByHeight] does not return: on a rooted chain its loop over
    the cache comes to the tipset of height 0 and stays there. *)
Theorem index_spins_below_zero (fuel : nat) (from : TipSet) (to : Z) (c : IndexCache) :
  consistent ci -> rooted ci -> validCache ci c ->
  loadTipSet ci (Key from) = inl from ->
  0 < skipLength ci -> Int64.in_range (skipLength ci) ->
  Int64.in_range (Height from) -> Int64.in_range (Height from - to) ->
  to < 0 -> skipLength ci < Height from - to ->
  fst (GetTipSetByHeight ci fuel from to c) = Spinning.
Proof.
  intros Hc Hr Hv Hfrom Hpos Hs Hh Hd Hneg Hfar. unfold GetTipSetByHeight.
  unfold Int64.sub. rewrite (Int64_wrap_id _ Hd).
  replace (Height from - to <=? skipLength ci) with false by (symmetry; apply Z.leb_gt; lia).
  unfold roundDown.
  pose proof (grounded_nonneg _ (Hr _ _ Hfrom)) as Hnn.
  destruct (roundHeight_within (Height from) Hpos Hs Hnn Hh) as (Hrh0 & Hrh).
  destruct (walkBack_runs fuel from (roundHeight ci (Height from)) (Hr _ _ Hfrom)
              ltac:(lia)) as [[rounded Hround]|Hspin].
  - rewrite Hround. apply walkBack_walks in Hround.
    destruct (walks_stored _ _ _ _ Hfrom Hround) as [k Hk].
    assert (Hkey : loadTipSet ci (Key rounded) = inl rounded).
    { destruct (Hc _ _ Hk) as [-> _]. exact Hk. }
    apply (lookupLoop_spins fuel to Hc Hr Hneg fuel _ rounded); auto.
  - rewrite Hspin. reflexivity.
Qed.

End Index.

(** * Consensus faults and multisig creation *)

Section Faults.

Import Fvm.
Context {LbState MinerState StateTree AccountState : Type}.
Context (x : FvmExtern LbState MinerState StateTree AccountState).

Lemma forkOrOffset_cases (A B : BlockHeader) :
  (forkOrOffset x A B = ConsensusFaultNone
   /\ Height A <> Height B /\ CidArrsEqual x (Parents A) (Parents B) = false)
  \/ (forkOrOffset x A B = ConsensusFaultDoubleForkMining /\ Height A = Height B)
  \/ (forkOrOffset x A B = ConsensusFaultTimeOffsetMining
      /\ Height A <> Height B /\ CidArrsEqual x (Parents A) (Parents B) = true).
Proof.
  unfold forkOrOffset.
  destruct (Height A =? Height B) eqn:Hh;
    [apply Z.eqb_eq in Hh|apply Z.eqb_neq in Hh];
    destruct (CidArrsEqual x (Parents A) (Parents B)); cbn; auto.
Qed.

(** X19.  A fault is reported only for two blocks that decode, differ, are of the
    same miner, the first not higher than the second, and both carry a
    signature that verifies against the miner's worker key; the report
    names that miner and the height of the second block, and the gas is
    that of the two signature checks. *)
Theorem reported_fault_is_sound (a b extra : list Byte.byte)
    (ret : ConsensusFault) (gas : Z) :
  VerifyConsensusFault x a b extra = (ret, gas) ->
  Type_ ret <> ConsensusFaultNone ->
  exists A B gasA gasB,
    UnmarshalCBOR x a = inl A /\ UnmarshalCBOR x b = inl B
    /\ BlockCid x A <> BlockCid x B
    /\ Miner A = Miner B
    /\ Height A <= Height B
    /\ VerifyBlockSig x A = (gasA, None)
    /\ VerifyBlockSig x B = (gasB, None)
    /\ Target ret = Miner A
    /\ Epoch ret = Height B
    /\ gas = Int64.add (Int64.add 0 gasA) gasB.
Proof.
  unfold VerifyConsensusFault. intros Hrun Hty.
  destruct (UnmarshalCBOR x a) as [A|] eqn:Ha;
    [|injection Hrun as <- <-; contradiction].
  destruct (UnmarshalCBOR x b) as [B|] eqn:Hb;
    [|injection Hrun as <- <-; contradiction].
  destruct (BlockCid x A =? BlockCid x B) eqn:Hcid;
    [injection Hrun as <- <-; contradiction|]. apply Z.eqb_neq in Hcid.
  destruct (Miner A =? Miner B) eqn:Hminer; cbn [negb] in Hrun;
    [|injection Hrun as <- <-; contradiction]. apply Z.eqb_eq in Hminer.
  destruct (Height B <? Height A) eqn:Hh;
    [injection Hrun as <- <-; contradiction|]. apply Z.ltb_ge in Hh.
  cbn [Target Epoch Type_] in Hrun.
  match type of Hrun with
  | match ?w with _ => _ end = _ => destruct w as [ft|]
  end; [|injection Hrun as <- <-; contradiction].
  assert (Hsig :
    (let (gasA, sigErr) := VerifyBlockSig x A in
     match sigErr with
     | Some _ => ({| Target := address_Undef x; Epoch := Height B;
                     Type_ := ConsensusFaultNone |}, Int64.add 0 gasA)
     | None =>
         let (gas2, sigErr0) := VerifyBlockSig x B in
         match sigErr0 with
         | Some _ => ({| Target := address_Undef x; Epoch := Height B;
                         Type_ := ConsensusFaultNone |},
                      Int64.add (Int64.add 0 gasA) gas2)
         | None => ({| Target := Miner A; Epoch := Height B; Type_ := ft |},
                    Int64.add (Int64.add 0 gasA) gas2)
         end
     end) = (ret, gas)).
  { destruct ft; [injection Hrun as <- <-; contradiction|exact Hrun..]. }
  clear Hrun.
  destruct (VerifyBlockSig x A) as [gasA [errA|]] eqn:HsA;
    [injection Hsig as <- <-; contradiction|].
  destruct (VerifyBlockSig x B) as [gasB [errB|]] eqn:HsB;
    [injection Hsig as <- <-; contradiction|].
  injection Hsig as <- <-.
  exists A, B, gasA, gasB. repeat split; auto.
Qed.

(** X20.  What each reported fault type says of the blocks: double-fork mining,
    the same height; time-offset mining, the same parents at different
    heights; parent grinding, a witness block that decodes from [extra],
    is a sibling of the first block and a parent of the second, which
    leaves the first out. *)
Theorem reported_fault_type (a b extra : list Byte.byte) (A B : BlockHeader)
    (ret : ConsensusFault) (gas : Z) :
  VerifyConsensusFault x a b extra = (ret, gas) ->
  UnmarshalCBOR x a = inl A -> UnmarshalCBOR x b = inl B ->
  match Type_ ret with
  | ConsensusFaultNone => True
  | ConsensusFaultDoubleForkMining => Height A = Height B
  | ConsensusFaultTimeOffsetMining =>
      Height A < Height B /\ CidArrsEqual x (Parents A) (Parents B) = true
  | ConsensusFaultParentGrinding =>
      exists C,
        extra <> [] /\ UnmarshalCBOR x extra = inl C
        /\ CidArrsEqual x (Parents A) (Parents C) = true
        /\ Height A = Height C
        /\ CidArrsContains x (Parents B) (BlockCid x C) = true
        /\ CidArrsContains x (Parents B) (BlockCid x A) = false
  end.
Proof.
  unfold VerifyConsensusFault. intros Hrun Ha Hb. rewrite Ha, Hb in Hrun.
  destruct (BlockCid x A =? BlockCid x B); [injection Hrun as <- _; exact I|].
  destruct (negb (Miner A =? Miner B)); [injection Hrun as <- _; exact I|].
  destruct (Height B <? Height A) eqn:Hh; [injection Hrun as <- _; exact I|].
  apply Z.ltb_ge in Hh. cbn [Target Epoch Type_] in Hrun.
  assert (Hw : forall ft,
    match extra with
    | [] => Some (forkOrOffset x A B)
    | _ :: _ =>
        match UnmarshalCBOR x extra with
        | inl blockC =>
            Some (if grinds x A B blockC then ConsensusFaultParentGrinding
                  else forkOrOffset x A B)
        | inr _ => None
        end
    end = Some ft ->
    match ft with
    | ConsensusFaultNone => True
    | ConsensusFaultDoubleForkMining => Height A = Height B
    | ConsensusFaultTimeOffsetMining =>
        Height A < Height B /\ CidArrsEqual x (Parents A) (Parents B) = true
    | ConsensusFaultParentGrinding =>
        exists C,
          extra <> [] /\ UnmarshalCBOR x extra = inl C
          /\ CidArrsEqual x (Parents A) (Parents C) = true
          /\ Height A = Height C
          /\ CidArrsContains x (Parents B) (BlockCid x C) = true
          /\ CidArrsContains x (Parents B) (BlockCid x A) = false
    end).
  { intros ft Hft.
    assert (Hplain : ft = forkOrOffset x A B ->
      match ft with
      | ConsensusFaultNone => True
      | ConsensusFaultDoubleForkMining => Height A = Height B
      | ConsensusFaultTimeOffsetMining =>
          Height A < Height B /\ CidArrsEqual x (Parents A) (Parents B) = true
      | ConsensusFaultParentGrinding => False
      end).
    { intros ->.
      destruct (forkOrOffset_cases A B) as [[-> _]|[[-> H]|[-> [H1 H2]]]]; auto.
      split; [lia|exact H2]. }
    destruct extra as [|e0 extra'].
    - injection Hft as <-. specialize (Hplain eq_refl).
      destruct (forkOrOffset x A B); auto. contradiction.
    - destruct (UnmarshalCBOR x (e0 :: extra')) as [C|] eqn:Hc; [|discriminate].
      destruct (grinds x A B C) eqn:Hg.
      + injection Hft as <-. exists C. unfold grinds in Hg.
        apply andb_prop in Hg as [Hg Hg4]. apply andb_prop in Hg as [Hg Hg3].
        apply andb_prop in Hg as [Hg1 Hg2]. apply Z.eqb_eq in Hg2.
        apply negb_true_iff in Hg4. repeat split; auto. discriminate.
      + injection Hft as <-. specialize (Hplain eq_refl).
        destruct (forkOrOffset x A B); auto. contradiction. }
  match type of Hrun with
  | match ?w with _ => _ end = _ => destruct w as [ft|]
  end; [|injection Hrun as <- _; exact I].
  specialize (Hw ft eq_refl).
  destruct (VerifyBlockSig x A) as [gasA [errA|]];
    [destruct ft; injection Hrun as <- _; exact I|].
  destruct (VerifyBlockSig x B) as [gasB [errB|]];
    [destruct ft; injection Hrun as <- _; exact I|].
  destruct ft; injection Hrun as <- _; cbn [Type_]; auto.
Qed.

(** X21.  Two different blocks of one miner, the first not higher than the
    second, that are at the same height, or have the same parents, or are
    shown by a decoded witness to grind parents, are reported as a fault
    once both signatures verify; an [extra] that is not empty has to
    decode. *)
Theorem fault_is_reported (a b extra : list Byte.byte) (A B : BlockHeader)
    (gasA gasB : Z) :
  UnmarshalCBOR x a = inl A -> UnmarshalCBOR x b = inl B ->
  BlockCid x A <> BlockCid x B ->
  Miner A = Miner B ->
  Height A <= Height B ->
  (extra = [] /\ (Height A = Height B \/ CidArrsEqual x (Parents A) (Parents B) = true)
   \/ exists C, extra <> [] /\ UnmarshalCBOR x extra = inl C
                /\ (Height A = Height B
                    \/ CidArrsEqual x (Parents A) (Parents B) = true
                    \/ grinds x A B C = true)) ->
  VerifyBlockSig x A = (gasA, None) ->
  VerifyBlockSig x B = (gasB, None) ->
  exists ft,
    ft <> ConsensusFaultNone
    /\ VerifyConsensusFault x a b extra
       = ({| Target := Miner A; Epoch := Height B; Type_ := ft |},
          Int64.add (Int64.add 0 gasA) gasB).
Proof.
  intros Ha Hb Hcid Hminer Hh Hfault HsA HsB.
  unfold VerifyConsensusFault. rewrite Ha, Hb.
  replace (BlockCid x A =? BlockCid x B) with false by (symmetry; apply Z.eqb_neq; exact Hcid).
  replace (Miner A =? Miner B) with true by (symmetry; apply Z.eqb_eq; exact Hminer).
  replace (Height B <? Height A) with false by (symmetry; apply Z.ltb_ge; exact Hh).
  cbn [negb Target Epoch Type_]. rewrite HsA, HsB.
  assert (Hplain : Height A = Height B \/ CidArrsEqual x (Parents A) (Parents B) = true ->
                   forkOrOffset x A B <> ConsensusFaultNone).
  { intros Hor Hnone.
    destruct (forkOrOffset_cases A B) as [[_ [H1 H2]]|[[H _]|[H _]]]; try congruence.
    destruct Hor; congruence. }
  assert (Hw : exists ft, ft <> ConsensusFaultNone /\
    match extra with
    | [] => Some (forkOrOffset x A B)
    | _ :: _ =>
        match UnmarshalCBOR x extra with
        | inl blockC =>
            Some (if grinds x A B blockC then ConsensusFaultParentGrinding
                  else forkOrOffset x A B)
        | inr _ => None
        end
    end = Some ft).
  { destruct Hfault as [[-> Hor]|[C (Hne & Hc & Hor)]].
    - exists (forkOrOffset x A B). auto.
    - rewrite Hc. destruct extra as [|e0 extra']; [contradiction|].
      destruct (grinds x A B C) eqn:Hg.
      + exists ConsensusFaultParentGrinding. split; [discriminate|reflexivity].
      + exists (forkOrOffset x A B). split; [|reflexivity].
        apply Hplain. destruct Hor as [H|[H|H]]; auto. discriminate. }
  destruct Hw as (ft & Hft & ->). exists ft. split; [exact Hft|].
  destruct ft; [contradiction|reflexivity..].
Qed.

End Faults.

Section Create.

Import Multisig.
Context (a : Actors).

(** X22.  The message [Create] returns asks the init actor to construct a
    multisig whose threshold is the one given, or the number of signers
    when 0 is given: never more than the signers, and at least 1 when
    there is a signer.  It is sent from the source address, which is
    defined, and carries the initial amount. *)
Theorem create_threshold (m : message0) (signers : list Address) (threshold : Z)
    (unlockStart unlockDuration : Z) (initialAmount : BigInt) (msg : Message) :
  0 <= threshold ->
  Z.of_nat (List.length signers) < 2 ^ 64 ->
  Create a m signers threshold unlockStart unlockDuration initialAmount = inl msg ->
  exists t enc code,
    t = (if threshold =? 0 then Z.of_nat (List.length signers) else threshold)
    /\ t <= Z.of_nat (List.length signers)
    /\ (signers <> [] -> 1 <= t)
    /\ SerializeConstructorParams a
         {| Signers := signers; NumApprovalsThreshold := t;
            UnlockDuration := unlockDuration; StartEpoch := unlockStart |} = inl enc
    /\ GetActorCodeID a (Version8 a) "multisig" = Some code
    /\ SerializeExecParams a {| CodeCID := code; ConstructorParams_ := enc |}
       = inl (Params msg)
    /\ To msg = init_Address a
    /\ Method msg = MethodsInit_Exec a
    /\ From_ msg = from m /\ from m <> address_Undef a
    /\ Value msg = initialAmount.
Proof.
  intros Hth Hlen. unfold Create.
  rewrite Uint64_wrap_id by lia.
  destruct (Z.of_nat (List.length signers) <? threshold) eqn:Hmany; [discriminate|].
  apply Z.ltb_ge in Hmany.
  destruct (from m =? address_Undef a) eqn:Hfrom; [discriminate|]. apply Z.eqb_neq in Hfrom.
  set (t := if threshold =? 0 then Z.of_nat (List.length signers) else threshold).
  destruct (SerializeConstructorParams a _) as [enc|] eqn:Henc; [|discriminate].
  destruct (GetActorCodeID a (Version8 a) "multisig") as [code|] eqn:Hcode; [|discriminate].
  destruct (SerializeExecParams a _) as [enc'|] eqn:Hexec; [|discriminate].
  intros [= <-]. exists t, enc, code. cbn.
  assert (Ht : t <= Z.of_nat (List.length signers) /\ (signers <> [] -> 1 <= t)).
  { unfold t. destruct (threshold =? 0) eqn:Hz.
    - split; [lia|]. intros Hne. destruct signers; [contradiction|]. cbn [List.length]. lia.
    - apply Z.eqb_neq in Hz. split; [lia|]. intros _. lia. }
  destruct Ht. repeat split; auto.
Qed.

End Create.

(** * The further properties on the samples *)

(** A run is its outcome and the world it leaves. *)
Lemma pair_of_run {A B : Type} (run : A * B) (a : A) :
  fst run = a -> run = (a, snd run).
Proof. intros <-. apply surjective_pairing. Qed.

Lemma sample_cache_retainsEntries : retainsEntries Sample.steady.
Proof.
  split.
  - intros k v c c' H. cbn in *. injection H as H <-. exact H.
  - intros k v c. cbn. destruct (list_eq_dec Z.eq_dec k k); [reflexivity|contradiction].
Defined.

Lemma price_cache_answers_again_witness :
  fst (GetTSGasStats Sample.steady Sample.tip1
         (snd (GetTSGasStats Sample.steady Sample.tip1 Sample.plain)))
  = Ret Sample.window.
Proof.
  exact (price_cache_answers_again Sample.steady Sample.steady Sample.tip1 Sample.plain
           _ Sample.window sample_cache_retainsEntries eq_refl eq_refl).
Defined.

Lemma premium_before_noise_has_floor_witness :
  premiumBeforeNoise Sample.steady 1 Sample.plain
  = (Ret 400000, snd (premiumBeforeNoise Sample.steady 1 Sample.plain))
  /\ MinGasPremium <= 400000.
Proof.
  assert (Hrun : premiumBeforeNoise Sample.steady 1 Sample.plain
                 = (Ret 400000, snd (premiumBeforeNoise Sample.steady 1 Sample.plain))).
  { apply pair_of_run. vm_compute. reflexivity. }
  split; [exact Hrun|].
  exact (premium_before_noise_has_floor Sample.steady 1 Sample.plain _ 400000 Hrun).
Defined.

Lemma premium_at_genesis_witness :
  premiumBeforeNoise (Cases.poolAt Sample.genesis) 2 Sample.plain
  = (Ret 150000, Sample.plain).
Proof.
  exact (premium_at_genesis (Cases.poolAt Sample.genesis) 2 Sample.genesis Sample.plain
           (sample_sortsDescending Sample.steadyEvaluator Sample.included 1000)
           eq_refl eq_refl).
Defined.

Lemma feecap_without_delay_witness :
  GasEstimateFeeCap Sample.steady (Sample.message 70 0) 0 [] Sample.plain
  = (Ret 100, Sample.plain).
Proof.
  exact (feecap_without_delay Sample.steady (Sample.message 70 0) [] Sample.plain
           Sample.tip2 _ _ eq_refl eq_refl).
Defined.

Lemma feecap_covers_base_fee_witness :
  exists c,
    GasEstimateFeeCap Sample.steady (Sample.message 70 0) 10 [] Sample.plain
    = (Ret c, Sample.plain)
    /\ 100 <= c.
Proof.
  assert (Hfee : 0 <= ParentBaseFee {| ParentBaseFee := 100 |}) by (cbn; lia).
  assert (Hd : 0 <= 10 <= maxDelay) by (unfold maxDelay; lia).
  exact (feecap_covers_base_fee Sample.steady (Sample.message 70 0) [] Sample.plain
           Sample.tip2 _ _ 10 eq_refl eq_refl eq_refl Hfee Hd).
Defined.

Lemma call_with_gas_can_be_replayed_witness :
  (* method 77 meets the fork boundary at the head and is answered at its
     parent *)
  CallWithGas (Sample.pool 1000) (Sample.message 70 77) [] Sample.tip1
  = inl Sample.receipt.
Proof.
  assert (Hrun : GasEstimateCallWithGas (Sample.pool 1000) 5 (Sample.message 70 77)
                   Sample.tip2 Sample.plain
                 = (Ret (Sample.receipt, [], Sample.tip1),
                    snd (GasEstimateCallWithGas (Sample.pool 1000) 5
                           (Sample.message 70 77) Sample.tip2 Sample.plain))).
  { apply pair_of_run. vm_compute. reflexivity. }
  exact (proj1 (call_with_gas_can_be_replayed (Sample.pool 1000) 5
                  (Sample.message 70 77) Sample.tip2 Sample.tip1 Sample.plain _
                  Sample.receipt [] Hrun)).
Defined.

Lemma complete_message_is_only_capped_witness :
  fst (GasEstimateMessageGas Sample.steady 5
         (Some {| Msg := Some 0%nat; Spec := None |}) [] Cases.complete)
  = Ret 0%nat
  /\ calls (snd (GasEstimateMessageGas Sample.steady 5
                   (Some {| Msg := Some 0%nat; Spec := None |}) [] Cases.complete))
     = [].
Proof.
  assert (Hlimit : GasLimit (heap Cases.complete 0%nat) <> 0) by (cbn; lia).
  pose proof (complete_message_is_only_capped Sample.steady 5 0%nat None []
                Cases.complete Hlimit eq_refl eq_refl) as Hrun.
  split; [exact (f_equal fst Hrun) | exact (f_equal (fun r => calls (snd r)) Hrun)].
Defined.

Lemma failed_estimate_leaves_the_message_witness :
  fst (GasEstimateMessageGas (Sample.pool 1000) 5
         (Some {| Msg := Some 0%nat; Spec := None |}) [] Cases.failing)
  = Fail (ErrWrap "estimating gas used"
            (ErrWrap "CallWithGas failed" (ErrNew "state not found"))).
Proof.
  assert (Hrun : GasEstimateGasLimit (Sample.pool 1000) 5 (heap Cases.failing 0%nat)
                   EmptyTSK Cases.failing
                 = (Fail (ErrWrap "CallWithGas failed" (ErrNew "state not found")),
                    snd (GasEstimateGasLimit (Sample.pool 1000) 5
                           (heap Cases.failing 0%nat) EmptyTSK Cases.failing))).
  { apply pair_of_run. vm_compute. reflexivity. }
  destruct (failed_estimate_leaves_the_message (Sample.pool 1000) 5 0%nat None []
              Cases.failing _ _ eq_refl Hrun) as [Hfail _].
  exact (f_equal fst Hfail).
Defined.


Lemma gas_limit_comes_from_ok_execution_witness :
  exists res last,
    CallWithGas Sample.steady (probeMessage Sample.steady (Sample.message 70 0)) [] last
    = inl res
    /\ ExitCode (MsgRct res) = exitcode_Ok
    /\ 1000000
       = correctedGas Sample.steady (Sample.message 70 0)
           (probeMessage Sample.steady (Sample.message 70 0)) last (GasUsed (MsgRct res)).
Proof.
  assert (Hrun : evalMessageGasLimit Sample.steady 5 (Sample.message 70 0) [] Sample.tip2
                   Sample.plain
                 = (Ret 1000000,
                    snd (evalMessageGasLimit Sample.steady 5 (Sample.message 70 0) []
                           Sample.tip2 Sample.plain))).
  { apply pair_of_run. vm_compute. reflexivity. }
  exact (gas_limit_comes_from_ok_execution Sample.steady 5 (Sample.message 70 0) []
           Sample.tip2 Sample.plain _ 1000000 Hrun).
Defined.

Lemma gas_limit_key_only_resolves_sender_witness :
  (* the keys of the two upper tipsets of the sample chain *)
  GasEstimateGasLimit Sample.steady 5 (Sample.message 70 0) [101] Sample.plain
  = GasEstimateGasLimit Sample.steady 5 (Sample.message 70 0) [102] Sample.plain.
Proof.
  exact (gas_limit_key_only_resolves_sender Sample.steady 5 (Sample.message 70 0)
           [101] [102] Sample.tip1 Sample.tip2 Sample.plain
           eq_refl eq_refl eq_refl eq_refl eq_refl).
Defined.

(** *** The chain with null rounds *)

Lemma sample_index_consistent : consistent Cases.index.
Proof.
  intros k ts H. destruct k as [|h [|h' k]]; try discriminate. cbn in H.
  destruct ((0 <=? h) && (h <=? 100) && negb (Cases.nullRound h)); [|discriminate].
  injection H as <-. split; [reflexivity|].
  intros p Hp. cbn in Hp.
  destruct ((0 <=? Cases.parentHeight h) && (Cases.parentHeight h <=? 100)
            && negb (Cases.nullRound (Cases.parentHeight h))); [|discriminate].
  injection Hp as <-. cbn. unfold Cases.parentHeight.
  destruct (Cases.nullRound (h - 1)); lia.
Defined.

Lemma sample_index_grounded (n : nat) :
  forall h, 0 <= h <= Z.of_nat n -> h <= 100 -> Cases.nullRound h = false ->
  grounded Cases.index (Cases.tipsetAt h).
Proof.
  induction n as [|n IH]; intros h Hh Hmax Hnull.
  - apply g_genesis. cbn. lia.
  - destruct (Z.eq_dec h 0) as [->|Hpos]; [apply g_genesis; reflexivity|].
    assert (Hp : 0 <= Cases.parentHeight h < h
                 /\ Cases.nullRound (Cases.parentHeight h) = false).
    { unfold Cases.parentHeight, Cases.nullRound in *.
      destruct ((h - 1) mod 7 =? 3) eqn:Hprev.
      - apply Z.eqb_eq in Hprev. split; [|apply Z.eqb_neq]; Z.div_mod_to_equations; lia.
      - split; [lia|exact Hprev]. }
    destruct Hp as [Hrange Hnn].
    apply (g_child _ _ (Cases.tipsetAt (Cases.parentHeight h))).
    + cbn. rewrite Hnn.
      replace (0 <=? Cases.parentHeight h) with true by (symmetry; apply Z.leb_le; lia).
      replace (Cases.parentHeight h <=? 100) with true by (symmetry; apply Z.leb_le; lia).
      reflexivity.
    + exact Hrange.
    + apply IH; [lia | lia | exact Hnn].
Defined.

Lemma sample_index_rooted : rooted Cases.index.
Proof.
  intros k ts H. destruct k as [|h [|h' k]]; try discriminate. cbn in H.
  destruct ((0 <=? h) && (h <=? 100) && negb (Cases.nullRound h)) eqn:Hk; [|discriminate].
  injection H as <-.
  apply andb_prop in Hk as [Hk Hnull]. apply andb_prop in Hk as [H0 H100].
  apply Z.leb_le in H0, H100. apply negb_true_iff in Hnull.
  apply (sample_index_grounded (Z.to_nat h)); [lia | exact H100 | exact Hnull].
Defined.

Lemma sample_empty_validCache : validCache Cases.index Cases.empty.
Proof. intros k e H. discriminate. Defined.

Lemma sample_skipLength :
  0 < ChainIndex.skipLength Cases.index
  /\ Int64.in_range (ChainIndex.skipLength Cases.index).
Proof. unfold Int64.in_range, Int64.min_int, Int64.max_int. cbn. lia. Defined.

Lemma roundHeight_floors_witness :
  ChainIndex.roundHeight Cases.index 47 = 40.
Proof.
  assert (Hr : Int64.in_range 47)
    by (unfold Int64.in_range, Int64.min_int, Int64.max_int; lia).
  destruct (roundHeight_floors Cases.index 47 (proj1 sample_skipLength)
              (proj2 sample_skipLength) ltac:(lia) Hr) as (Hle & _ & Hmod).
  change (ChainIndex.skipLength Cases.index) with 20 in *.
  Z.div_mod_to_equations. lia.
Defined.

Lemma walkBack_lands_witness :
  (* height 31 is a null round: the walk answers the tipset above it *)
  31 <= Height (Cases.tipsetAt 32)
  /\ (Height (Cases.tipsetAt 32) = 31
      \/ exists p,
          ChainIndex.loadTipSet Cases.index (Parents (Cases.tipsetAt 32)) = inl p
          /\ Height p < 31).
Proof.
  assert (Hrun : ChainIndex.walkBack Cases.index 100 (Cases.tipsetAt 40) 31
                 = Ret (Cases.tipsetAt 32)) by (vm_compute; reflexivity).
  exact (walkBack_lands Cases.index 100 (Cases.tipsetAt 40) 31 (Cases.tipsetAt 32) Hrun).
Defined.

Lemma walkBack_total_witness :
  exists r,
    ChainIndex.walkBack Cases.index 100 (Cases.tipsetAt 100) 0 = Ret r
    /\ 0 <= Height r <= 100.
Proof.
  assert (Hg : grounded Cases.index (Cases.tipsetAt 100)).
  { apply (sample_index_rooted [100]). reflexivity. }
  assert (Hto : 0 <= 0 <= Height (Cases.tipsetAt 100)) by (cbn; lia).
  assert (Hfuel : (Z.to_nat (Height (Cases.tipsetAt 100) - 0) <= 100)%nat) by (cbn; lia).
  exact (walkBack_total Cases.index 100 (Cases.tipsetAt 100) 0 Hg Hto Hfuel).
Defined.

Lemma index_agrees_with_walk_witness :
  exists n, forall fuel, (n <= fuel)%nat ->
    ChainIndex.GetTipsetByHeightWithoutCache Cases.index fuel (Cases.tipsetAt 100) 31
    = Ret (Cases.tipsetAt 32).
Proof.
  assert (Hh : Int64.in_range (Height (Cases.tipsetAt 100)))
    by (unfold Int64.in_range, Int64.min_int, Int64.max_int; cbn; lia).
  assert (Hd : Int64.in_range (Height (Cases.tipsetAt 100) - 31))
    by (unfold Int64.in_range, Int64.min_int, Int64.max_int; cbn; lia).
  assert (Hrun : ChainIndex.GetTipSetByHeight Cases.index 100 (Cases.tipsetAt 100) 31
                   Cases.empty
                 = (Ret (Cases.tipsetAt 32),
                    snd (ChainIndex.GetTipSetByHeight Cases.index 100
                           (Cases.tipsetAt 100) 31 Cases.empty))).
  { apply pair_of_run. vm_compute. reflexivity. }
  exact (proj1 (index_agrees_with_walk Cases.index 100 (Cases.tipsetAt 100) 31
                  Cases.empty _ (Cases.tipsetAt 32)
                  sample_index_consistent sample_empty_validCache eq_refl
                  (proj1 sample_skipLength) (proj2 sample_skipLength) Hh Hd Hrun)).
Defined.

Lemma index_answers_witness :
  exists r c',
    ChainIndex.GetTipSetByHeight Cases.index 100 (Cases.tipsetAt 100) 31 Cases.empty
    = (Ret r, c').
Proof.
  assert (Hh : Int64.in_range (Height (Cases.tipsetAt 100)))
    by (unfold Int64.in_range, Int64.min_int, Int64.max_int; cbn; lia).
  assert (Hto : 0 <= 31 <= Height (Cases.tipsetAt 100)) by (cbn; lia).
  assert (Hfuel : (Z.to_nat (Height (Cases.tipsetAt 100)) <= 100)%nat) by (cbn; lia).
  exact (index_answers Cases.index 100 (Cases.tipsetAt 100) 31 Cases.empty
           sample_index_consistent sample_index_rooted sample_empty_validCache eq_refl
           (proj1 sample_skipLength) (proj2 sample_skipLength) Hh Hto Hfuel).
Defined.

Lemma index_spins_below_zero_witness :
  fst (ChainIndex.GetTipSetByHeight Cases.index 1000 (Cases.tipsetAt 100) (-1)
         Cases.empty)
  = Spinning.
Proof.
  assert (Hh : Int64.in_range (Height (Cases.tipsetAt 100)))
    by (unfold Int64.in_range, Int64.min_int, Int64.max_int; cbn; lia).
  assert (Hd : Int64.in_range (Height (Cases.tipsetAt 100) - -1))
    by (unfold Int64.in_range, Int64.min_int, Int64.max_int; cbn; lia).
  assert (Hfar : ChainIndex.skipLength Cases.index < Height (Cases.tipsetAt 100) - -1)
    by (cbn; lia).
  exact (index_spins_below_zero Cases.index 1000 (Cases.tipsetAt 100) (-1) Cases.empty
           sample_index_consistent sample_index_rooted sample_empty_validCache eq_refl
           (proj1 sample_skipLength) (proj2 sample_skipLength) Hh Hd ltac:(lia) Hfar).
Defined.

(** *** Consensus faults and multisig creation *)

Lemma reported_fault_is_sound_witness :
  (* blocks 1 and 2: double-fork mining, for the gas of two signature checks *)
  exists A B gasA gasB,
    Fvm.UnmarshalCBOR Cases.extern [Byte.x01] = inl A
    /\ Fvm.UnmarshalCBOR Cases.extern [Byte.x02] = inl B
    /\ Fvm.BlockCid Cases.extern A <> Fvm.BlockCid Cases.extern B
    /\ Fvm.Miner A = Fvm.Miner B
    /\ Fvm.Height A <= Fvm.Height B
    /\ Fvm.VerifyBlockSig Cases.extern A = (gasA, None)
    /\ Fvm.VerifyBlockSig Cases.extern B = (gasB, None)
    /\ 1000 = Fvm.Miner A
    /\ 5 = Fvm.Height B
    /\ 30 = Int64.add (Int64.add 0 gasA) gasB.
Proof.
  assert (Hrun : Fvm.VerifyConsensusFault Cases.extern [Byte.x01] [Byte.x02] []
                 = ({| Fvm.Target := 1000; Fvm.Epoch := 5;
                       Fvm.Type_ := Fvm.ConsensusFaultDoubleForkMining |}, 30))
    by (vm_compute; reflexivity).
  apply (reported_fault_is_sound Cases.extern [Byte.x01] [Byte.x02] [] _ _ Hrun).
  discriminate.
Defined.

Lemma reported_fault_type_witness :
  (* blocks 1 and 5 with block 4 as the witness: parent grinding *)
  exists C,
    [Byte.x04] <> []
    /\ Fvm.UnmarshalCBOR Cases.extern [Byte.x04] = inl C
    /\ Fvm.CidArrsEqual Cases.extern (Fvm.Parents (Cases.header Byte.x01 5 [100; 101]))
         (Fvm.Parents C) = true
    /\ Fvm.Height (Cases.header Byte.x01 5 [100; 101]) = Fvm.Height C
    /\ Fvm.CidArrsContains Cases.extern (Fvm.Parents (Cases.header Byte.x05 6 [4; 2]))
         (Fvm.BlockCid Cases.extern C) = true
    /\ Fvm.CidArrsContains Cases.extern (Fvm.Parents (Cases.header Byte.x05 6 [4; 2]))
         (Fvm.BlockCid Cases.extern (Cases.header Byte.x01 5 [100; 101])) = false.
Proof.
  assert (Hrun : Fvm.VerifyConsensusFault Cases.extern [Byte.x01] [Byte.x05] [Byte.x04]
                 = ({| Fvm.Target := 1000; Fvm.Epoch := 6;
                       Fvm.Type_ := Fvm.ConsensusFaultParentGrinding |}, 30))
    by (vm_compute; reflexivity).
  exact (reported_fault_type Cases.extern [Byte.x01] [Byte.x05] [Byte.x04]
           (Cases.header Byte.x01 5 [100; 101]) (Cases.header Byte.x05 6 [4; 2])
           _ _ Hrun eq_refl eq_refl).
Defined.

Lemma fault_is_reported_witness :
  (* blocks 1 and 3: the same parents at heights 5 and 6 *)
  exists ft,
    ft <> Fvm.ConsensusFaultNone
    /\ Fvm.VerifyConsensusFault Cases.extern [Byte.x01] [Byte.x03] []
       = ({| Fvm.Target := 1000; Fvm.Epoch := 6; Fvm.Type_ := ft |}, 30).
Proof.
  assert (Hcid : Fvm.BlockCid Cases.extern (Cases.header Byte.x01 5 [100; 101])
                 <> Fvm.BlockCid Cases.extern (Cases.header Byte.x03 6 [100; 101]))
    by (cbn; lia).
  assert (Hh : Fvm.Height (Cases.header Byte.x01 5 [100; 101])
               <= Fvm.Height (Cases.header Byte.x03 6 [100; 101])) by (cbn; lia).
  exact (fault_is_reported Cases.extern [Byte.x01] [Byte.x03] []
           (Cases.header Byte.x01 5 [100; 101]) (Cases.header Byte.x03 6 [100; 101])
           15 15 eq_refl eq_refl Hcid eq_refl Hh
           (or_introl (conj eq_refl (or_intror eq_refl))) eq_refl eq_refl).
Defined.

Lemma create_threshold_witness :
  (* three signers and a threshold of 0: all three have to approve *)
  exists t enc code,
    t = 3
    /\ t <= 3
    /\ ([11; 12; 13] <> [] -> 1 <= t)
    /\ Multisig.SerializeConstructorParams Cases.actors
         {| Multisig.Signers := [11; 12; 13]; Multisig.NumApprovalsThreshold := t;
            Multisig.UnlockDuration := 0; Multisig.StartEpoch := 0 |} = inl enc
    /\ Multisig.GetActorCodeID Cases.actors 8 "multisig" = Some code
    /\ Multisig.SerializeExecParams Cases.actors
         {| Multisig.CodeCID := code; Multisig.ConstructorParams_ := enc |}
       = inl [Byte.x02; Byte.x01; Byte.x01; Byte.x01]
    /\ 1 = Multisig.init_Address Cases.actors
    /\ 2 = Multisig.MethodsInit_Exec Cases.actors
    /\ 7 = 7 /\ 7 <> Multisig.address_Undef Cases.actors
    /\ Some 1000 = Some 1000.
Proof.
  assert (Hlen : Z.of_nat (List.length [11; 12; 13]) < 2 ^ 64) by (cbn; lia).
  exact (create_threshold Cases.actors {| Multisig.from := 7 |} [11; 12; 13] 0 0 0
           (Some 1000)
           {| To := 1; From_ := 7; Nonce := 0; Value := Some 1000; GasLimit := 0;
              GasFeeCap := EmptyInt; GasPremium := EmptyInt; Method := 2;
              Params := [Byte.x02; Byte.x01; Byte.x01; Byte.x01] |}
           ltac:(lia) Hlen eq_refl).
Defined.
